(** * GoCSI: the service wrapper, the routing server, the endpoint parser
      and the mock provider

    A shallow embedding of the Go sources of
    container-storage-interface/examples (package gocsi and the mock
    storage provider), with the properties its specification states.

    Go methods that change their receiver become functions that pass
    the state along. What the sources call outside themselves (gRPC,
    the provider behind the pipe, the network, helpers of the package
    that live in other files, [strings.EqualFold]) is a parameter of
    the definitions, and every call made to it is recorded, so that
    "is never called" is a statement about the record. *)

From Stdlib Require Import ZArith NArith String Ascii List Bool Lia.
From Stdlib Require Import DecimalString.
From stdpp Require Import base gmap list strings.

Import ListNotations.
Local Open Scope string_scope.
Local Open Scope list_scope.

(** ** Go preliminaries *)

(** A Go [error] value, identified with the text of its [Error()]. *)
Definition error := string.

(** [fmt.Sprintf("%d", n)] for an unsigned integer. *)
Definition fmt_d (n : N) : string := NilZero.string_of_uint (N.to_uint n).

(** [len(s)] of a Go string. *)
Definition len (s : string) : nat := String.length s.

(** ** Protocol messages (package csi)

    Only the sub-messages the wrapper and the mock provider read are
    kept: the version, the volume identifier, the volume name and the
    capacity range. *)
Module csi.

Record Version := mkVersion { Major : N; Minor : N; Patch : N }.

Record VolumeID := mkVolumeID { Values : gmap string string }.

Record CapacityRange := mkCapacityRange
  { RequiredBytes : N; LimitBytes : N }.

Record VolumeInfo := mkVolumeInfo
  { Id : option VolumeID;
    Metadata : gmap string string;
    CapacityBytes : N }.

(** [CreateVolumeRequest]: version, name and capacity range. *)
Record CreateVolumeRequest := mkCreateVolumeRequest
  { cv_Version : option Version;
    Name : string;
    Capacity : option CapacityRange }.

(** The requests that carry a version and a volume identifier
    (DeleteVolume, Controller(Un)PublishVolume, Node(Un)PublishVolume). *)
Record VolumeRequest := mkVolumeRequest
  { vr_Version : option Version;
    VolumeId : option VolumeID }.

(** The requests of which only the version is read. *)
Record PlainRequest := mkPlainRequest
  { pr_Version : option Version }.

(** The reply of [GetSupportedVersions]: an error (general, or another
    one known by its [String()]), a result, or neither. *)
Inductive GetSupportedVersionsResponse :=
| GSV_GeneralError (code : N) (description : string)
| GSV_OtherError (text : string)
| GSV_Result (supported : list Version)
| GSV_Empty.

End csi.
Import csi.

#[global] Instance Version_eq_dec : EqDecision Version.
Proof. solve_decision. Defined.

(** ** The service wrapper (type [service] of package gocsi)

    A [service] reaches its provider through a private pipe connection.
    The provider, the pipe and the helpers of package gocsi that live
    outside the wrapper's file are the wrapper's collaborators: what a
    dial returns, what the provider answers, how a version is printed.
    Every interaction with them is recorded in a history of events. *)
Module Service.
Section Wrapper.

(** The payload of a reply built by the provider. *)
Context {R : Type}.

(** The fourteen calls the wrapper gates on the request version. *)
Inductive call :=
| CallCreateVolume (req : CreateVolumeRequest)
| CallDeleteVolume (req : VolumeRequest)
| CallControllerPublishVolume (req : VolumeRequest)
| CallControllerUnpublishVolume (req : VolumeRequest)
| CallValidateVolumeCapabilities (req : PlainRequest)
| CallListVolumes (req : PlainRequest)
| CallGetCapacity (req : PlainRequest)
| CallControllerGetCapabilities (req : PlainRequest)
| CallGetPluginInfo (req : PlainRequest)
| CallNodePublishVolume (req : VolumeRequest)
| CallNodeUnpublishVolume (req : VolumeRequest)
| CallGetNodeID (req : PlainRequest)
| CallProbeNode (req : PlainRequest)
| CallNodeGetCapabilities (req : PlainRequest).

(** [GetVersion()] of the request of a call. *)
Definition GetVersion (c : call) : option Version :=
  match c with
  | CallCreateVolume r => cv_Version r
  | CallDeleteVolume r | CallControllerPublishVolume r
  | CallControllerUnpublishVolume r | CallNodePublishVolume r
  | CallNodeUnpublishVolume r => vr_Version r
  | CallValidateVolumeCapabilities r | CallListVolumes r
  | CallGetCapacity r | CallControllerGetCapabilities r
  | CallGetPluginInfo r | CallGetNodeID r | CallProbeNode r
  | CallNodeGetCapabilities r => pr_Version r
  end.

(** A response message. The [Err...] helpers of package gocsi build a
    response whose reply is an error with a code and a description;
    they are kept as constructors, one per helper the wrapper calls.
    [Reply] is a response built by the provider. *)
Inductive response :=
| Reply (r : R)
| ErrCreateVolume (code : N) (msg : string)
| ErrCreateVolumeGeneral (code : N) (msg : string)
| ErrDeleteVolume (code : N) (msg : string)
| ErrDeleteVolumeGeneral (code : N) (msg : string)
| ErrControllerPublishVolume (code : N) (msg : string)
| ErrControllerPublishVolumeGeneral (code : N) (msg : string)
| ErrControllerUnpublishVolume (code : N) (msg : string)
| ErrControllerUnpublishVolumeGeneral (code : N) (msg : string)
| ErrValidateVolumeCapabilitiesGeneral (code : N) (msg : string)
| ErrListVolumes (code : N) (msg : string)
| ErrGetCapacity (code : N) (msg : string)
| ErrControllerGetCapabilities (code : N) (msg : string)
| ErrGetPluginInfo (code : N) (msg : string)
| ErrNodePublishVolumeGeneral (code : N) (msg : string)
| ErrNodeUnpublishVolumeGeneral (code : N) (msg : string)
| ErrGetNodeIDGeneral (code : N) (msg : string)
| ErrProbeNodeGeneral (code : N) (msg : string)
| ErrNodeGetCapabilities (code : N) (msg : string).

(** What a Go method returning a response pointer and an error
    returns: both components may be nil. *)
Definition outcome : Type := option response * option error.

(** An interaction of the wrapper with its collaborators. *)
Inductive event :=
| EvDial
| EvGetSupportedVersions
| EvForward (c : call).

(** The collaborators. Each answer may depend on the history so far. *)
Record collaborators := mkCollaborators
  { (* grpc.DialContext over the pipe connection: nil on success *)
    grpc_DialContext : list event -> option error;
    (* the provider's GetSupportedVersions, through the identity client *)
    client_GetSupportedVersions :
      list event -> GetSupportedVersionsResponse + error;
    (* the provider's operation, through the controller, identity or
       node client *)
    client_call : list event -> call -> outcome;
    SprintfVersion : Version -> string;
    ErrNilResult : error }.

(** The fields of [service] the calls read and write;
    [versionsOnce] is the done flag of the [sync.Once]. *)
Record service := mkService
  { serviceType : string;
    serviceName : string;
    versions : list Version;
    versionsOnce : bool }.

Record world := mkWorld { svc : service; hist : list event }.

Variable E : collaborators.

(** State passing over the world. *)
Definition M (A : Type) : Type := world -> A * world.
Definition ret {A} (a : A) : M A := fun w => (a, w).
Definition bind {A B} (m : M A) (k : A -> M B) : M B :=
  fun w => let (a, w') := m w in k a w'.

Notation "'let*' x ':=' m 'in' k" := (bind m (fun x => k))
  (at level 10, x name, m at level 100, k at level 200).

Definition set_versions (vs : list Version) : M unit :=
  fun w =>
    let s := svc w in
    (tt, mkWorld (mkService (serviceType s) (serviceName s) vs
                    (versionsOnce s)) (hist w)).

Definition set_versionsOnce : M unit :=
  fun w =>
    let s := svc w in
    (tt, mkWorld (mkService (serviceType s) (serviceName s) (versions s)
                    true) (hist w)).

(** [s.dial]: the error of the dial, nil when a connection is returned. *)
Definition dial : M (option error) :=
  fun w => (grpc_DialContext E (hist w), mkWorld (svc w) (hist w ++ [EvDial])).

Definition dialController : M (option error) := dial.
Definition dialIdentity : M (option error) := dial.
Definition dialNode : M (option error) := dial.

(** A call on the client of a dialled connection. *)
Definition forward (c : call) : M outcome :=
  fun w => (client_call E (hist w) c,
            mkWorld (svc w) (hist w ++ [EvForward c])).

(** [c.GetSupportedVersions] on the identity client. *)
Definition client_GetSupportedVersions_call
  : M (GetSupportedVersionsResponse + error) :=
  fun w => (client_GetSupportedVersions E (hist w),
            mkWorld (svc w) (hist w ++ [EvGetSupportedVersions])).

(** What [initSupportedVersions] makes of the answer to its query:
    the supported versions, or the error it returns. *)
Definition supported_of (r : GetSupportedVersionsResponse + error)
  : list Version + error :=
  match r with
  | inr e => inr e
  | inl (GSV_GeneralError code desc) =>
      inr ("error: GetSupportedVersionsResponse failed: "
             +:+ fmt_d code +:+ ": " +:+ desc)
  | inl (GSV_OtherError text) => inr text
  | inl GSV_Empty => inr (ErrNilResult E)
  | inl (GSV_Result vs) => inl vs
  end.

Definition initSupportedVersions : M (option error) :=
  let* err := dialIdentity in
  match err with
  | Some e => ret (Some e)
  | None =>
    let* r := client_GetSupportedVersions_call in
    match supported_of r with
    | inr e => ret (Some e)
    | inl vs => let* _ := set_versions vs in ret None
    end
  end.

(** [s.versionsOnce.Do(...)]: the function runs when the flag is not
    set, and the flag is set when it returns; the error is that of this
    run, nil when the function did not run. *)
Definition initSupportedVersionsOnce : M (option error) :=
  fun w =>
    if versionsOnce (svc w) then (None, w)
    else (let* err := initSupportedVersions in
          let* _ := set_versionsOnce in
          ret err) w.

(** The loop of [chkReqVersion] over the cached versions. *)
Fixpoint version_supported (rv : Version) (vs : list Version) : bool :=
  match vs with
  | [] => false
  | v :: vs' =>
      if negb (Major rv =? Major v)%N then version_supported rv vs'
      else if negb (Minor rv =? Minor v)%N then version_supported rv vs'
      else if negb (Patch rv =? Patch v)%N then version_supported rv vs'
      else true
  end.

(** The empty string means the request version is valid. *)
Definition chkReqVersion (rv : option Version) : M string :=
  let* err := initSupportedVersionsOnce in
  match err with
  | Some e => ret e
  | None =>
    match rv with
    | None => ret "request version is nil"
    | Some rv =>
        fun w =>
          if version_supported rv (versions (svc w)) then ("", w)
          else ("unsupported request version: " +:+ SprintfVersion E rv, w)
    end
  end.

(** *** Controller service *)

Definition CreateVolume (req : CreateVolumeRequest) : M outcome :=
  let* err := dialController in
  match err with
  | Some e => ret (None, Some e)
  | None =>
    let* v := chkReqVersion (cv_Version req) in
    if negb (Nat.eqb (len v) 0) then
      (* UNSUPPORTED_REQUEST_VERSION *)
      ret (Some (ErrCreateVolumeGeneral 2 v), None)
    else if Nat.eqb (len (Name req)) 0 then
      (* INVALID_VOLUME_NAME *)
      ret (Some (ErrCreateVolume 3 "missing name"), None)
    else forward (CallCreateVolume req)
  end.

Definition DeleteVolume (req : VolumeRequest) : M outcome :=
  match VolumeId req with
  | None =>
      (* INVALID_VOLUME_ID *)
      ret (Some (ErrDeleteVolume 3 "missing id obj"), None)
  | Some idObj =>
    if Nat.eqb (size (Values idObj)) 0 then
      (* INVALID_VOLUME_ID *)
      ret (Some (ErrDeleteVolume 3 "missing id map"), None)
    else
      let* err := dialController in
      match err with
      | Some e => ret (None, Some e)
      | None =>
        let* v := chkReqVersion (vr_Version req) in
        if negb (Nat.eqb (len v) 0) then
          (* UNSUPPORTED_REQUEST_VERSION *)
          ret (Some (ErrDeleteVolumeGeneral 2 v), None)
        else forward (CallDeleteVolume req)
      end
  end.

Definition ControllerPublishVolume (req : VolumeRequest) : M outcome :=
  match VolumeId req with
  | None =>
      (* INVALID_VOLUME_ID *)
      ret (Some (ErrControllerPublishVolume 3 "missing id obj"), None)
  | Some idObj =>
    if Nat.eqb (size (Values idObj)) 0 then
      (* INVALID_VOLUME_ID *)
      ret (Some (ErrControllerPublishVolume 3 "missing id map"), None)
    else
      let* err := dialController in
      match err with
      | Some e => ret (None, Some e)
      | None =>
        let* v := chkReqVersion (vr_Version req) in
        if negb (Nat.eqb (len v) 0) then
          (* UNSUPPORTED_REQUEST_VERSION *)
          ret (Some (ErrControllerPublishVolumeGeneral 2 v), None)
        else forward (CallControllerPublishVolume req)
      end
  end.

Definition ControllerUnpublishVolume (req : VolumeRequest) : M outcome :=
  match VolumeId req with
  | None =>
      (* INVALID_VOLUME_ID *)
      ret (Some (ErrControllerUnpublishVolume 3 "missing id obj"), None)
  | Some idObj =>
    if Nat.eqb (size (Values idObj)) 0 then
      (* INVALID_VOLUME_ID *)
      ret (Some (ErrControllerUnpublishVolume 3 "missing id map"), None)
    else
      let* err := dialController in
      match err with
      | Some e => ret (None, Some e)
      | None =>
        let* v := chkReqVersion (vr_Version req) in
        if negb (Nat.eqb (len v) 0) then
          (* UNSUPPORTED_REQUEST_VERSION *)
          ret (Some (ErrControllerUnpublishVolumeGeneral 2 v), None)
        else forward (CallControllerUnpublishVolume req)
      end
  end.

Definition ValidateVolumeCapabilities (req : PlainRequest) : M outcome :=
  let* err := dialController in
  match err with
  | Some e => ret (None, Some e)
  | None =>
    let* v := chkReqVersion (pr_Version req) in
    if negb (Nat.eqb (len v) 0) then
      (* UNSUPPORTED_REQUEST_VERSION *)
      ret (Some (ErrValidateVolumeCapabilitiesGeneral 2 v), None)
    else forward (CallValidateVolumeCapabilities req)
  end.

Definition ListVolumes (req : PlainRequest) : M outcome :=
  let* err := dialController in
  match err with
  | Some e => ret (None, Some e)
  | None =>
    let* v := chkReqVersion (pr_Version req) in
    if negb (Nat.eqb (len v) 0) then
      (* UNSUPPORTED_REQUEST_VERSION *)
      ret (Some (ErrListVolumes 2 v), None)
    else forward (CallListVolumes req)
  end.

Definition GetCapacity (req : PlainRequest) : M outcome :=
  let* err := dialController in
  match err with
  | Some e => ret (None, Some e)
  | None =>
    let* v := chkReqVersion (pr_Version req) in
    if negb (Nat.eqb (len v) 0) then
      (* UNSUPPORTED_REQUEST_VERSION *)
      ret (Some (ErrGetCapacity 2 v), None)
    else forward (CallGetCapacity req)
  end.

Definition ControllerGetCapabilities (req : PlainRequest) : M outcome :=
  let* err := dialController in
  match err with
  | Some e => ret (None, Some e)
  | None =>
    let* v := chkReqVersion (pr_Version req) in
    if negb (Nat.eqb (len v) 0) then
      (* UNSUPPORTED_REQUEST_VERSION *)
      ret (Some (ErrControllerGetCapabilities 2 v), None)
    else forward (CallControllerGetCapabilities req)
  end.

(** *** Identity service *)

(** The wrapper answers [GetSupportedVersions] from its cache; the
    request carries no version and nothing is forwarded. *)
Definition GetSupportedVersions
  : M (option GetSupportedVersionsResponse * option error) :=
  let* err := initSupportedVersionsOnce in
  match err with
  | Some e => ret (None, Some e)
  | None => fun w => ((Some (GSV_Result (versions (svc w))), None), w)
  end.

Definition GetPluginInfo (req : PlainRequest) : M outcome :=
  let* err := dialIdentity in
  match err with
  | Some e => ret (None, Some e)
  | None =>
    let* v := chkReqVersion (pr_Version req) in
    if negb (Nat.eqb (len v) 0) then
      (* UNSUPPORTED_REQUEST_VERSION *)
      ret (Some (ErrGetPluginInfo 2 v), None)
    else forward (CallGetPluginInfo req)
  end.

(** *** Node service *)

Definition NodePublishVolume (req : VolumeRequest) : M outcome :=
  match VolumeId req with
  | None =>
      (* MISSING_REQUIRED_FIELD *)
      ret (Some (ErrNodePublishVolumeGeneral 3 "missing id obj"), None)
  | Some idObj =>
    if Nat.eqb (size (Values idObj)) 0 then
      (* MISSING_REQUIRED_FIELD *)
      ret (Some (ErrNodePublishVolumeGeneral 3 "missing id map"), None)
    else
      let* err := dialNode in
      match err with
      | Some e => ret (None, Some e)
      | None =>
        let* v := chkReqVersion (vr_Version req) in
        if negb (Nat.eqb (len v) 0) then
          (* UNSUPPORTED_REQUEST_VERSION *)
          ret (Some (ErrNodePublishVolumeGeneral 2 v), None)
        else forward (CallNodePublishVolume req)
      end
  end.

Definition NodeUnpublishVolume (req : VolumeRequest) : M outcome :=
  match VolumeId req with
  | None =>
      (* MISSING_REQUIRED_FIELD *)
      ret (Some (ErrNodeUnpublishVolumeGeneral 3 "missing id obj"), None)
  | Some idObj =>
    if Nat.eqb (size (Values idObj)) 0 then
      (* MISSING_REQUIRED_FIELD *)
      ret (Some (ErrNodeUnpublishVolumeGeneral 3 "missing id map"), None)
    else
      let* err := dialNode in
      match err with
      | Some e => ret (None, Some e)
      | None =>
        let* v := chkReqVersion (vr_Version req) in
        if negb (Nat.eqb (len v) 0) then
          (* UNSUPPORTED_REQUEST_VERSION *)
          ret (Some (ErrNodeUnpublishVolumeGeneral 2 v), None)
        else forward (CallNodeUnpublishVolume req)
      end
  end.

Definition GetNodeID (req : PlainRequest) : M outcome :=
  let* err := dialNode in
  match err with
  | Some e => ret (None, Some e)
  | None =>
    let* v := chkReqVersion (pr_Version req) in
    if negb (Nat.eqb (len v) 0) then
      (* UNSUPPORTED_REQUEST_VERSION *)
      ret (Some (ErrGetNodeIDGeneral 2 v), None)
    else forward (CallGetNodeID req)
  end.

Definition ProbeNode (req : PlainRequest) : M outcome :=
  let* err := dialNode in
  match err with
  | Some e => ret (None, Some e)
  | None =>
    let* v := chkReqVersion (pr_Version req) in
    if negb (Nat.eqb (len v) 0) then
      (* UNSUPPORTED_REQUEST_VERSION *)
      ret (Some (ErrProbeNodeGeneral 2 v), None)
    else forward (CallProbeNode req)
  end.

Definition NodeGetCapabilities (req : PlainRequest) : M outcome :=
  let* err := dialNode in
  match err with
  | Some e => ret (None, Some e)
  | None =>
    let* v := chkReqVersion (pr_Version req) in
    if negb (Nat.eqb (len v) 0) then
      (* UNSUPPORTED_REQUEST_VERSION *)
      ret (Some (ErrNodeGetCapabilities 2 v), None)
    else forward (CallNodeGetCapabilities req)
  end.

(** The wrapper method a call is served by. *)
Definition serve_call (c : call) : M outcome :=
  match c with
  | CallCreateVolume r => CreateVolume r
  | CallDeleteVolume r => DeleteVolume r
  | CallControllerPublishVolume r => ControllerPublishVolume r
  | CallControllerUnpublishVolume r => ControllerUnpublishVolume r
  | CallValidateVolumeCapabilities r => ValidateVolumeCapabilities r
  | CallListVolumes r => ListVolumes r
  | CallGetCapacity r => GetCapacity r
  | CallControllerGetCapabilities r => ControllerGetCapabilities r
  | CallGetPluginInfo r => GetPluginInfo r
  | CallNodePublishVolume r => NodePublishVolume r
  | CallNodeUnpublishVolume r => NodeUnpublishVolume r
  | CallGetNodeID r => GetNodeID r
  | CallProbeNode r => ProbeNode r
  | CallNodeGetCapabilities r => NodeGetCapabilities r
  end.

(** The response with which each wrapper reports an unsupported
    request version (code 2). *)
Definition ErrUnsupportedVersion (c : call) (msg : string) : response :=
  match c with
  | CallCreateVolume _ => ErrCreateVolumeGeneral 2 msg
  | CallDeleteVolume _ => ErrDeleteVolumeGeneral 2 msg
  | CallControllerPublishVolume _ => ErrControllerPublishVolumeGeneral 2 msg
  | CallControllerUnpublishVolume _ =>
      ErrControllerUnpublishVolumeGeneral 2 msg
  | CallValidateVolumeCapabilities _ =>
      ErrValidateVolumeCapabilitiesGeneral 2 msg
  | CallListVolumes _ => ErrListVolumes 2 msg
  | CallGetCapacity _ => ErrGetCapacity 2 msg
  | CallControllerGetCapabilities _ => ErrControllerGetCapabilities 2 msg
  | CallGetPluginInfo _ => ErrGetPluginInfo 2 msg
  | CallNodePublishVolume _ => ErrNodePublishVolumeGeneral 2 msg
  | CallNodeUnpublishVolume _ => ErrNodeUnpublishVolumeGeneral 2 msg
  | CallGetNodeID _ => ErrGetNodeIDGeneral 2 msg
  | CallProbeNode _ => ErrProbeNodeGeneral 2 msg
  | CallNodeGetCapabilities _ => ErrNodeGetCapabilities 2 msg
  end.

(** The volume identifier a wrapper checks before anything else, for
    the calls that have one. *)
Definition checked_VolumeId (c : call) : option (option VolumeID) :=
  match c with
  | CallDeleteVolume r | CallControllerPublishVolume r
  | CallControllerUnpublishVolume r | CallNodePublishVolume r
  | CallNodeUnpublishVolume r => Some (VolumeId r)
  | _ => None
  end.

(** The identifier check of a call passes: the call has none, or its
    identifier object is present with a non-empty value map. *)
Definition id_present (c : call) : bool :=
  match checked_VolumeId c with
  | None => true
  | Some None => false
  | Some (Some idObj) => negb (Nat.eqb (size (Values idObj)) 0)
  end.

(** The number of calls forwarded to the provider in a history. *)
Fixpoint forwarded (h : list event) : nat :=
  match h with
  | [] => 0
  | EvForward _ :: h' => S (forwarded h')
  | _ :: h' => forwarded h'
  end.

(** The number of version queries made to the provider in a history. *)
Fixpoint version_queries (h : list event) : nat :=
  match h with
  | [] => 0
  | EvGetSupportedVersions :: h' => S (version_queries h')
  | _ :: h' => version_queries h'
  end.

(** The world after a dial. *)
Definition dialled (w : world) : world :=
  mkWorld (svc w) (hist w ++ [EvDial]).

(** The version [rv] is supported: the cache holds it, where a cache
    that has not been initialised yet is initialised now, without
    error. *)
Definition cache_holds (rv : Version) (w : world) : Prop :=
  fst (initSupportedVersionsOnce w) = None /\
  version_supported rv
    (versions (svc (snd (initSupportedVersionsOnce w)))) = true.

(** The response with which a wrapper reports a missing volume
    identifier (code 3), for the calls that check one. *)
Definition ErrMissingId (c : call) (msg : string) : response :=
  match c with
  | CallControllerPublishVolume _ => ErrControllerPublishVolume 3 msg
  | CallControllerUnpublishVolume _ => ErrControllerUnpublishVolume 3 msg
  | CallNodePublishVolume _ => ErrNodePublishVolumeGeneral 3 msg
  | CallNodeUnpublishVolume _ => ErrNodeUnpublishVolumeGeneral 3 msg
  | _ => ErrDeleteVolume 3 msg
  end.

(** What a wrapper does once the version check has passed: CreateVolume
    checks the name, every call is then forwarded. *)
Definition after_version_check (c : call) : M outcome :=
  match c with
  | CallCreateVolume req =>
      if Nat.eqb (len (Name req)) 0 then
        ret (Some (ErrCreateVolume 3 "missing name"), None)
      else forward c
  | _ => forward c
  end.

(** The fourteen wrappers in one: identifier check (where there is
    one), dial, version check, then the rest. *)
Definition gate (c : call) : M outcome :=
  fun w =>
    match checked_VolumeId c with
    | Some None => ((Some (ErrMissingId c "missing id obj"), None), w)
    | Some (Some idObj) =>
        if Nat.eqb (size (Values idObj)) 0 then
          ((Some (ErrMissingId c "missing id map"), None), w)
        else
          match grpc_DialContext E (hist w) with
          | Some e => ((None, Some e), dialled w)
          | None =>
              let (v, w') := chkReqVersion (GetVersion c) (dialled w) in
              if negb (Nat.eqb (len v) 0) then
                ((Some (ErrUnsupportedVersion c v), None), w')
              else after_version_check c w'
          end
    | None =>
        match grpc_DialContext E (hist w) with
        | Some e => ((None, Some e), dialled w)
        | None =>
            let (v, w') := chkReqVersion (GetVersion c) (dialled w) in
            if negb (Nat.eqb (len v) 0) then
              ((Some (ErrUnsupportedVersion c v), None), w')
            else after_version_check c w'
        end
    end.

(** A sequence of calls served one after the other; [None] stands for
    a call of [GetSupportedVersions], which has no request version. *)
Fixpoint serve_calls (cs : list (option call)) (w : world) : world :=
  match cs with
  | [] => w
  | Some c :: cs' => serve_calls cs' (snd (serve_call c w))
  | None :: cs' => serve_calls cs' (snd (GetSupportedVersions w))
  end.

End Wrapper.
End Service.

(** ** The routing server (types [Server] and [server] of package gocsi) *)
Module Server.
Section Routing.

Context {R : Type}.

(** [strings.EqualFold] of the Go standard library. *)
Variable EqualFold : string -> string -> bool.

(** A configured Service: a [service] (its state and the history of
    its interactions) together with the provider and pipe it owns. *)
Record Service := mkServiceEntry
  { sp : @Service.collaborators R;
    state : Service.world }.

(** [svc.Name()] and [svc.Type()]. *)
Definition Name (svc : Service) : string :=
  Service.serviceName (Service.svc (state svc)).
Definition Type_ (svc : Service) : string :=
  Service.serviceType (Service.svc (state svc)).

(** A [net.Listener], known by the network and the address of its
    [Addr()]. *)
Record Listener := mkListener { Network : string; String_ : string }.

(** An exit handler appended to [s.x]; the only one the server
    registers removes the socket file. *)
Inductive cleanup := RemoveAll (path : string).

(** The fields of [Server]; [g] tells whether the gRPC server has
    been created (it is nil before [Serve]). *)
Record Server := mkServer
  { Addr : string;
    Services : list Service;
    g : bool;
    x : list cleanup }.

(** What the server does to the world outside it. *)
Inductive effect :=
| EvParseProtoAddr (addr : string)
| EvListen (proto addr : string)
| EvNewServer
| EvRegisterControllerServer
| EvRegisterIdentityServer
| EvRegisterNodeServer
| EvGoServeServices (names : list string)
| EvGrpcServe (l : Listener)
| EvProviderStop (name : string)
| EvProviderGracefulStop (name : string)
| EvConnClose (name : string)
| EvGrpcStop
| EvGrpcGracefulStop
| EvCleanup (c : cleanup).

(** The functions of package gocsi, net and grpc that [Serve] calls. *)
Record platform := mkPlatform
  { ErrEmptyServices : error;
    ParseProtoAddr : string -> (string * string) + error;
    net_Listen : string -> string -> Listener + error;
    (* the error [s.g.Serve(l)] returns when it stops serving *)
    grpc_Serve : Listener -> error }.

Variable P : platform.

(** [Serve] from the listener on: the error it returns, the server
    and the effects. *)
Definition Serve_on (s : Server) (l : Listener)
  : error * Server * list effect :=
  let netw := Network l in
  let addr := String_ l in
  let x' := if String.eqb netw "unix" then x s ++ [RemoveAll addr]
            else x s in
  (grpc_Serve P l,
   mkServer (netw +:+ ":/" +:+ addr) (Services s) true x',
   [EvNewServer; EvRegisterControllerServer; EvRegisterIdentityServer;
    EvRegisterNodeServer; EvGoServeServices (map Name (Services s));
    EvGrpcServe l]).

Definition Serve (s : Server) (l : option Listener)
  : error * Server * list effect :=
  if Nat.eqb (length (Services s)) 0 then (ErrEmptyServices P, s, [])
  else
    match l with
    | Some l => Serve_on s l
    | None =>
      match ParseProtoAddr P (Addr s) with
      | inr err => (err, s, [EvParseProtoAddr (Addr s)])
      | inl (p, a) =>
        match net_Listen P p a with
        | inr err => (err, s, [EvParseProtoAddr (Addr s); EvListen p a])
        | inl lis =>
            let '(e, s', t) := Serve_on s lis in
            (e, s', [EvParseProtoAddr (Addr s); EvListen p a] ++ t)
        end
      end
    end.

(** How a call of [Stop] or [GracefulStop] ends: the call on a nil
    gRPC server panics. *)
Inductive ending := Returned | Panicked.

(** [service.Stop] and [service.GracefulStop]: the provider is
    stopped, then the pipe is closed. *)
Definition service_Stop (svc : Service) : list effect :=
  [EvProviderStop (Name svc); EvConnClose (Name svc)].
Definition service_GracefulStop (svc : Service) : list effect :=
  [EvProviderGracefulStop (Name svc); EvConnClose (Name svc)].

(** [for _, x := range s.x { x() }] *)
Definition run_cleanups (xs : list cleanup) : list effect :=
  map EvCleanup xs.

Definition Stop (s : Server) : list effect * ending :=
  let stopped := flat_map service_Stop (Services s) in
  if g s then (stopped ++ [EvGrpcStop] ++ run_cleanups (x s), Returned)
  else (stopped, Panicked).

Definition GracefulStop (s : Server) : list effect * ending :=
  let stopped := flat_map service_GracefulStop (Services s) in
  if g s then
    (stopped ++ [EvGrpcGracefulStop] ++ run_cleanups (x s), Returned)
  else (stopped, Panicked).

(** The ways out of a serving server, and a sequence of them run one
    after the other on the same server. *)
Inductive exit_call := CallStop | CallGracefulStop.

Definition exit_with (c : exit_call) (s : Server) : list effect * ending :=
  match c with CallStop => Stop s | CallGracefulStop => GracefulStop s end.

Fixpoint exits (cs : list exit_call) (s : Server) : list effect * ending :=
  match cs with
  | [] => ([], Returned)
  | c :: cs' =>
      match exit_with c s with
      | (t, Panicked) => (t, Panicked)
      | (t, Returned) => let (t', e) := exits cs' s in (t ++ t', e)
      end
  end.


(** The incoming context of a call: its gRPC metadata, when it has
    some. *)
Definition context : Type := option (gmap string (list string)).

(** The loop of [svcFromCtx]: the index of the first Service whose
    name equals [n0] up to case. *)
Fixpoint find_service (n0 : string) (i : nat) (svcs : list Service)
  : option nat :=
  match svcs with
  | [] => None
  | svc :: rest =>
      if EqualFold n0 (Name svc) then Some i
      else find_service n0 (S i) rest
  end.

(** The routing tag of a context: the first value under the key
    ["csi.service"], when the key is there with at least one value. *)
Definition routing_tag (ctx : context) : option string :=
  match ctx with
  | Some md =>
      match md !! "csi.service" with
      | Some (n0 :: _) => Some n0
      | _ => None
      end
  | None => None
  end.

(** [svcFromCtx]: the index in [s.Services] of the Service the call
    goes to; [None] is the panic of [s.s.Services[0]] on an empty
    list. *)
Definition svcFromCtx (s : Server) (ctx : context) : option nat :=
  match
    match routing_tag ctx with
    | Some n0 => find_service n0 0 (Services s)
    | None => None
    end
  with
  | Some i => Some i
  | None => match Services s with [] => None | _ :: _ => Some 0 end
  end.

(** A method of [server]: the call is served by the Service
    [svcFromCtx] selects, whose state it may change. *)
Definition dispatch (s : Server) (ctx : context) (c : Service.call)
  : option (@Service.outcome R * Server) :=
  match svcFromCtx s ctx with
  | None => None
  | Some i =>
      match Services s !! i with
      | None => None
      | Some svc =>
          let (o, w') := Service.serve_call (sp svc) c (state svc) in
          Some (o, mkServer (Addr s)
                     (<[i := mkServiceEntry (sp svc) w']> (Services s))
                     (g s) (x s))
      end
  end.

Definition CreateVolume (s : Server) (ctx : context)
  (req : CreateVolumeRequest) :=
  dispatch s ctx (Service.CallCreateVolume req).

End Routing.
End Server.

(** ** Regular expressions (package regexp, as far as [addrRX] needs)

    Go strings are byte strings; the matcher works on the list of their
    bytes. A match is searched leftmost-first: the result is the one a
    backtracking search finds first, which is how package regexp
    defines its submatches. *)
Module Regexp.

Definition bytes := list ascii.

Inductive re :=
| Empty                      (* the empty string *)
| Chr (c : ascii)            (* a literal character, under (?i) *)
| Class (cs : list ascii)    (* [...] *)
| AnyCharNotNL               (* .  *)
| Cat (a b : re)
| Alt (a b : re)             (* a|b *)
| Quest (a : re)             (* a? *)
| Plus (a : re)              (* a+ *)
| Group (i : nat) (a : re)   (* (a), the i-th capturing group *)
| BeginText                  (* ^ without the m flag *)
| EndText.                   (* $ without the m flag *)

(** A literal string is the concatenation of its characters. *)
Fixpoint lit (s : bytes) : re :=
  match s with
  | [] => Empty
  | c :: s' => Cat (Chr c) (lit s')
  end.

Definition newline : ascii := ascii_of_nat 10.

Definition is_upper (c : ascii) : bool :=
  let n := nat_of_ascii c in (65 <=? n)%nat && (n <=? 90)%nat.
Definition is_lower (c : ascii) : bool :=
  let n := nat_of_ascii c in (97 <=? n)%nat && (n <=? 122)%nat.
Definition to_lower (c : ascii) : ascii :=
  if is_upper c then ascii_of_nat (nat_of_ascii c + 32) else c.
Definition to_upper (c : ascii) : ascii :=
  if is_lower c then ascii_of_nat (nat_of_ascii c - 32) else c.

(** The UTF-8 encodings of U+212A KELVIN SIGN and U+017F LATIN SMALL
    LETTER LONG S, which [unicode.SimpleFold] puts in the orbits of
    k and s. *)
Definition kelvin_sign : bytes :=
  [ascii_of_nat 226; ascii_of_nat 132; ascii_of_nat 170].
Definition long_s : bytes := [ascii_of_nat 197; ascii_of_nat 191].

(** The encodings of the characters equal to [c] up to case: what a
    literal [c] matches under the flag (?i). *)
Definition fold_variants (c : ascii) : list bytes :=
  if is_upper c || is_lower c then
    [[to_lower c]; [to_upper c]]
      ++ (if Ascii.eqb (to_lower c) "k" then [kelvin_sign]
          else if Ascii.eqb (to_lower c) "s" then [long_s]
          else [])
  else [[c]].

(** [strip p s]: the rest of [s] after its prefix [p]. *)
Fixpoint strip (p s : bytes) : option bytes :=
  match p, s with
  | [], _ => Some s
  | a :: p', b :: s' => if Ascii.eqb a b then strip p' s' else None
  | _ :: _, [] => None
  end.

(** The submatches found so far: group, start and end offset, the
    latest first. *)
Definition captures := list (nat * (nat * nat)).

(** The continuation of a match: the offset reached, the input left
    and the submatches. *)
Definition cont := nat -> bytes -> captures -> option captures.

(** The first alternative that succeeds. *)
Definition orelse (a b : option captures) : option captures :=
  match a with Some c => Some c | None => b end.

Fixpoint first_variant (vs : list bytes) (pos : nat) (s : bytes)
  (c : captures) (k : cont) : option captures :=
  match vs with
  | [] => None
  | v :: vs' =>
      orelse
        (match strip v s with
         | Some s' => k (pos + length v) s' c
         | None => None
         end)
        (first_variant vs' pos s c k)
  end.

(** The loop of a greedy repetition [a+], where [ma] matches [a]: one
    more [a], then as many as possible before the continuation is
    tried. An iteration that goes on consumes input, so there are no
    more iterations than [n], the length of the input. *)
Fixpoint plus_loop
  (ma : nat -> bytes -> captures -> cont -> option captures) (k : cont)
  (n : nat) (pos : nat) (s : bytes) (c : captures) : option captures :=
  ma pos s c
    (fun pos' s' c' =>
       match n with
       | O => k pos' s' c'
       | S n' => orelse (plus_loop ma k n' pos' s' c') (k pos' s' c')
       end).

(** Backtracking match of [r] at offset [pos], where [s] is the
    input from [pos] on. *)
Fixpoint m (r : re) (pos : nat) (s : bytes) (c : captures) (k : cont)
  : option captures :=
  match r with
  | Empty => k pos s c
  | Chr a => first_variant (fold_variants a) pos s c k
  | Class cs =>
      match s with
      | b :: s' => if existsb (Ascii.eqb b) cs then k (S pos) s' c else None
      | [] => None
      end
  | AnyCharNotNL =>
      match s with
      | b :: s' => if Ascii.eqb b newline then None else k (S pos) s' c
      | [] => None
      end
  | Cat a b => m a pos s c (fun pos' s' c' => m b pos' s' c' k)
  | Alt a b => orelse (m a pos s c k) (m b pos s c k)
  | Quest a => orelse (m a pos s c k) (k pos s c)
  | Plus a => plus_loop (m a) k (length s) pos s c
  | Group i a =>
      m a pos s c (fun pos' s' c' => k pos' s' ((i, (pos, pos')) :: c'))
  | BeginText => if Nat.eqb pos 0 then k pos s c else None
  | EndText => match s with [] => k pos s c | _ :: _ => None end
  end.

(** The leftmost match: the start offsets are tried in order. *)
Fixpoint search (r : re) (pos : nat) (s : bytes) : option captures :=
  orelse (m r pos s [] (fun _ _ c => Some c))
         (match s with
          | [] => None
          | _ :: s' => search r (S pos) s'
          end).

Fixpoint group (i : nat) (c : captures) : option (nat * nat) :=
  match c with
  | [] => None
  | (j, se) :: c' => if Nat.eqb i j then Some se else group i c'
  end.

(** The text of a submatch; a group that took no part in the match
    gives the empty string. *)
Definition submatch (text : bytes) (c : captures) (i : nat) : bytes :=
  match group i c with
  | Some (s, e) => firstn (e - s) (skipn s text)
  | None => []
  end.

(** [FindStringSubmatch] for a pattern with two groups: [m[1]] and
    [m[2]], or nil. *)
Definition FindStringSubmatch (r : re) (text : bytes)
  : option (bytes * bytes) :=
  match search r 0 text with
  | Some c => Some (submatch text c 1, submatch text c 2)
  | None => None
  end.

(** *** What a regular expression matches

    A point of a match is an offset, the input from there on and the
    submatches so far. [matches r p q]: [r] matches from [p] to [q]. *)
Definition point : Type := nat * bytes * captures.

Inductive iter1 (step : point -> point -> Prop) : point -> point -> Prop :=
| iter1_once p q : step p q -> iter1 step p q
| iter1_more p q q' : step p q -> iter1 step q q' -> iter1 step p q'.

Fixpoint matches (r : re) (p q : point) : Prop :=
  match r with
  | Empty => q = p
  | Chr a =>
      exists v s', In v (fold_variants a) /\ snd (fst p) = v ++ s' /\
                   q = (fst (fst p) + length v, s', snd p)
  | Class cs =>
      exists b0 s', snd (fst p) = b0 :: s' /\ In b0 cs /\
                    q = (S (fst (fst p)), s', snd p)
  | AnyCharNotNL =>
      exists b0 s', snd (fst p) = b0 :: s' /\ b0 <> newline /\
                    q = (S (fst (fst p)), s', snd p)
  | Cat a b => exists p', matches a p p' /\ matches b p' q
  | Alt a b => matches a p q \/ matches b p q
  | Quest a => matches a p q \/ q = p
  | Plus a => iter1 (matches a) p q
  | Group i a =>
      exists q', matches a p q' /\
                 q = (fst (fst q'), snd (fst q'),
                      (i, (fst (fst p), fst (fst q'))) :: snd q')
  | BeginText => fst (fst p) = 0 /\ q = p
  | EndText => snd (fst p) = [] /\ q = p
  end.

(** Every match of [r] consumes input. *)
Fixpoint consuming (r : re) : bool :=
  match r with
  | Empty | BeginText | EndText | Quest _ => false
  | Chr a => forallb (fun v => negb (Nat.eqb (length v) 0)) (fold_variants a)
  | Class _ | AnyCharNotNL => true
  | Cat a b => consuming a || consuming b
  | Alt a b => consuming a && consuming b
  | Plus a => consuming a
  | Group _ a => consuming a
  end.

(** The repetitions of [r] are over expressions that consume input. *)
Fixpoint well_formed (r : re) : bool :=
  match r with
  | Empty | Chr _ | Class _ | AnyCharNotNL | BeginText | EndText => true
  | Cat a b | Alt a b => well_formed a && well_formed b
  | Quest a | Group _ a => well_formed a
  | Plus a => consuming a && well_formed a
  end.

(** [u] is [tok] up to the case of its characters. *)
Fixpoint eq_fold (tok u : bytes) : bool :=
  match tok with
  | [] => match u with [] => true | _ :: _ => false end
  | c :: tok' =>
      existsb
        (fun v =>
           match strip v u with
           | Some u' => eq_fold tok' u'
           | None => false
           end)
        (fold_variants c)
  end.

(** A character that is matched as itself only. *)
Definition caseless (c : ascii) : bool :=
  match fold_variants c with
  | [[c']] => Ascii.eqb c c'
  | _ => false
  end.

(** The expressions made of literals, caseless classes, concatenation,
    alternation and option, and the finite list of the strings they
    stand for (each matched up to case). *)
Fixpoint finite (r : re) : bool :=
  match r with
  | Empty | Chr _ => true
  | Class cs => forallb caseless cs
  | Cat a b | Alt a b => finite a && finite b
  | Quest a => finite a
  | _ => false
  end.

Fixpoint tokens (r : re) : list bytes :=
  match r with
  | Empty => [[]]
  | Chr a => [[a]]
  | Class cs => map (fun c => [c]) cs
  | Cat a b => flat_map (fun x => map (app x) (tokens b)) (tokens a)
  | Alt a b => tokens a ++ tokens b
  | Quest a => tokens a ++ [[]]
  | _ => []
  end.

End Regexp.

(** ** The endpoint parser of the client (gocsi/main.go) *)
Module Endpoint.
Import Regexp.

Definition b (s : string) : bytes := list_ascii_of_string s.

(** [(?i)^((?:(?:tcp|udp|ip)[46]?)|(?:unix(?:gram|packet)?))://(.+)$] *)
Definition addrRX : re :=
  Cat BeginText
    (Cat (Group 1
            (Alt (Cat (Alt (lit (b "tcp")) (Alt (lit (b "udp")) (lit (b "ip"))))
                      (Quest (Class (b "46"))))
                 (Cat (lit (b "unix"))
                      (Quest (Alt (lit (b "gram")) (lit (b "packet")))))))
       (Cat (lit (b "://"))
          (Cat (Group 2 (Plus AnyCharNotNL)) EndText))).

Definition parseProtoAddr (protoAddr : string)
  : (string * string) + error :=
  match FindStringSubmatch addrRX (b protoAddr) with
  | None => inr ("invalid address: " +:+ protoAddr)
  | Some (m1, m2) =>
      inl (string_of_list_ascii m1, string_of_list_ascii m2)
  end.

(** The start of [main]: the endpoint is read from CSI_ENDPOINT, with
    a default; an endpoint that does not parse is reported on stderr
    and the process exits with status 1, otherwise the address is
    dialled. *)
Inductive startup :=
| Exit (stderr : string) (status : Z)
| DialContext (addr : string).

Definition main (CSI_ENDPOINT : string) : startup :=
  let protoAddr :=
    if String.eqb CSI_ENDPOINT "" then "tcp://127.0.0.1:8080"
    else CSI_ENDPOINT in
  match parseProtoAddr protoAddr with
  | inr _ =>
      Exit ("error: invalid endpoint: " +:+ protoAddr +:+ String newline "") 1
  | inl (_, addr) => DialContext addr
  end.

(** *** The form of an endpoint, in the words of the specification *)

(** The network-protocol tokens: tcp, udp and ip, each optionally
    suffixed 4 or 6; and the local-socket tokens. *)
Definition network_tokens : list string :=
  flat_map (fun t => [t; t +:+ "4"; t +:+ "6"]) ["tcp"; "udp"; "ip"].
Definition local_socket_tokens : list string :=
  ["unix"; "unixgram"; "unixpacket"].
Definition scheme_tokens : list string :=
  network_tokens ++ local_socket_tokens.

(** [p] is one of the scheme tokens, up to case. *)
Definition is_scheme (p : string) : bool :=
  existsb (fun tok => eq_fold (b tok) (b p)) scheme_tokens.

Definition no_newline (a : string) : bool :=
  forallb (fun c => negb (Ascii.eqb c newline)) (b a).

(** The endpoint, as the specification describes it: scheme://address
    with a scheme token and a non-empty address. *)
Definition endpoint_form (s : string) : Prop :=
  exists p a, s = p +:+ "://" +:+ a /\ is_scheme p = true /\ a <> ""%string.

End Endpoint.

(** ** The mock provider (gocsi/csp/moc) *)
Module Moc.
Section Provider.

(** [strings.EqualFold] of the Go standard library. *)
Variable EqualFold : string -> string -> bool.

Definition kib : N := 1024.
Definition mib : N := kib * 1024.
Definition gib : N := mib * 1024.
Definition gib100 : N := gib * 100.

(** The package variables [nextVolID] (a uint64) and [vols]. *)
Record catalog := mkCatalog
  { nextVolID : N;
    vols : list VolumeInfo }.

(** [newVolume]: the counter is incremented first, wrapping at 2^64. *)
Definition newVolume (name : string) (capcity : N) (st : catalog)
  : VolumeInfo * catalog :=
  let id := ((nextVolID st + 1) mod 2 ^ 64)%N in
  (mkVolumeInfo
     (Some (mkVolumeID (<["id" := fmt_d id]> (<["name" := name]> ∅))))
     ∅ capcity,
   mkCatalog id (vols st)).

(** The loop of [findVol]; [None] is the result [(-1, nil)]. *)
Fixpoint findVol_from (x : nat) (field val : string)
  (vs : list VolumeInfo) : option (nat * VolumeInfo) :=
  match vs with
  | [] => None
  | v :: rest =>
      match Id v with
      | None => findVol_from (S x) field val rest
      | Some id =>
          if Nat.eqb (size (Values id)) 0 then
            findVol_from (S x) field val rest
          else
            match Values id !! field with
            | None => findVol_from (S x) field val rest
            | Some fv =>
                if EqualFold fv val then Some (x, v)
                else findVol_from (S x) field val rest
            end
      end
  end.

Definition findVol (field val : string) (st : catalog) :=
  findVol_from 0 field val (vols st).

Definition findVolByName (name : string) (st : catalog) :=
  findVol "name" name st.

(** [sp.CreateVolume], under the provider's lock. *)
Definition CreateVolume (req : CreateVolumeRequest) (st : catalog)
  : @Service.outcome VolumeInfo * catalog :=
  let name := Name req in
  if String.eqb name "" then
    (* INVALID_VOLUME_NAME *)
    ((Some (Service.ErrCreateVolume 3 "missing name"), None), st)
  else
    match findVolByName name st with
    | Some (_, v) => ((Some (Service.Reply v), None), st)
    | None =>
        let capacity :=
          match Capacity req with
          | Some cr =>
              if (RequiredBytes cr =? 0)%N then gib100
              else RequiredBytes cr
          | None => gib100
          end in
        let (v, st') := newVolume name capacity st in
        ((Some (Service.Reply v), None),
         mkCatalog (nextVolID st') (vols st' ++ [v]))
    end.

(** The volume has the field [field], with a value equal to [val] up to
    case. *)
Definition field_matches (field val : string) (v : VolumeInfo) : bool :=
  match Id v with
  | Some id =>
      match Values id !! field with
      | Some fv => EqualFold fv val
      | None => false
      end
  | None => false
  end.

(** The catalog the package starts with. *)
Definition initial_catalog : catalog :=
  let (v1, st1) := newVolume "Mock Volume 1" gib100 (mkCatalog 0 []) in
  let (v2, st2) := newVolume "Mock Volume 2" gib100 st1 in
  let (v3, st3) := newVolume "Mock Volume 3" gib100 st2 in
  mkCatalog (nextVolID st3) [v1; v2; v3].

End Provider.
End Moc.

(** ** Concurrent first calls: [versionsOnce.Do] under interleaving

    Several callers run [initSupportedVersionsOnce] on one [service] and
    then read [s.versions]. [sync.Once] is modelled by what its [Do]
    executes: a load of the done flag; on the slow path the mutex is
    taken, the flag is checked again, the function is run, the flag is
    stored and the mutex released. Each of these is one atomic step of
    one caller, and a schedule picks the caller that moves next. *)
Module Once.
Section Interleaving.

Context {R : Type}.
Variable E : @Service.collaborators R.

(** Where a caller stands. *)
Inductive pc :=
| Start                                  (* Do: load o.done *)
| Locking                                (* doSlow: o.m.Lock() *)
| Locked                                 (* if o.done == 0 *)
| Dialing                                (* f: s.dialIdentity(ctx) *)
| Querying                               (* f: c.GetSupportedVersions *)
| Storing (vs : list Version)            (* f: s.versions = ... *)
| Finishing (err : option error)         (* deferred store of o.done *)
| Unlocking (err : option error)         (* deferred o.m.Unlock() *)
| Returned (err : option error)          (* back in the caller *)
| Observed (err : option error) (vs : list Version).
                                         (* the caller has read s.versions *)

(** What the callers share: the [sync.Once] (flag and mutex holder),
    the cache and the history of interactions with the provider. *)
Record shared := mkShared
  { done : bool;
    mutex : option nat;
    versions : list Version;
    hist : list Service.event }.

Record config := mkConfig { sh : shared; threads : list pc }.

(** One step of caller [i]; [None] when it is blocked or has
    finished. *)
Definition step_thread (i : nat) (p : pc) (s : shared)
  : option (pc * shared) :=
  match p with
  | Start => Some (if done s then Returned None else Locking, s)
  | Locking =>
      match mutex s with
      | None => Some (Locked, mkShared (done s) (Some i) (versions s) (hist s))
      | Some _ => None
      end
  | Locked => Some (if done s then Unlocking None else Dialing, s)
  | Dialing =>
      Some (match Service.grpc_DialContext E (hist s) with
            | Some e => Finishing (Some e)
            | None => Querying
            end,
            mkShared (done s) (mutex s) (versions s)
              (hist s ++ [Service.EvDial]))
  | Querying =>
      Some (match Service.supported_of E
                    (Service.client_GetSupportedVersions E (hist s)) with
            | inr e => Finishing (Some e)
            | inl vs => Storing vs
            end,
            mkShared (done s) (mutex s) (versions s)
              (hist s ++ [Service.EvGetSupportedVersions]))
  | Storing vs =>
      Some (Finishing None, mkShared (done s) (mutex s) vs (hist s))
  | Finishing e =>
      Some (Unlocking e, mkShared true (mutex s) (versions s) (hist s))
  | Unlocking e =>
      Some (Returned e, mkShared (done s) None (versions s) (hist s))
  | Returned e => Some (Observed e (versions s), s)
  | Observed _ _ => None
  end.

(** Caller [i] is scheduled: it moves if it can. *)
Definition step (i : nat) (c : config) : config :=
  match threads c !! i with
  | None => c
  | Some p =>
      match step_thread i p (sh c) with
      | None => c
      | Some (p', s') => mkConfig s' (<[i := p']> (threads c))
      end
  end.

(** A schedule is run from left to right. *)
Fixpoint run (sched : list nat) (c : config) : config :=
  match sched with
  | [] => c
  | i :: sched' => run sched' (step i c)
  end.

(** [n] callers arrive at a [service] whose cache has not been
    initialised. *)
Definition init (h : list Service.event) (n : nat) : config :=
  mkConfig (mkShared false None [] h) (replicate n Start).

Definition finished (p : pc) : bool :=
  match p with Observed _ _ => true | _ => false end.

Definition all_finished (c : config) : bool :=
  forallb finished (threads c).

(** Caller [i] can move. *)
Definition enabled (i : nat) (c : config) : bool :=
  match threads c !! i with
  | None => false
  | Some p =>
      match step_thread i p (sh c) with
      | None => false
      | Some _ => true
      end
  end.

End Interleaving.
End Once.

(** ** Concrete inputs used in the examples *)
Module Examples.

(** Equality up to the case of ASCII letters: what [strings.EqualFold]
    computes on ASCII strings. *)
Fixpoint ascii_EqualFold (s t : string) : bool :=
  match s, t with
  | EmptyString, EmptyString => true
  | String a s', String c t' =>
      Ascii.eqb (Regexp.to_lower a) (Regexp.to_lower c)
      && ascii_EqualFold s' t'
  | _, _ => false
  end.

Definition v010 : Version := mkVersion 0 1 0.
Definition v999 : Version := mkVersion 9 9 9.

Definition print_version (v : Version) : string :=
  fmt_d (Major v) +:+ "." +:+ fmt_d (Minor v) +:+ "." +:+ fmt_d (Patch v).

(** A provider that can always be dialled, supports version 0.1.0 and
    answers every call. *)
Definition provider : @Service.collaborators unit :=
  Service.mkCollaborators
    (fun _ => None)
    (fun _ => inl (GSV_Result [v010]))
    (fun _ _ => (Some (Service.Reply tt), None))
    print_version
    "nil result".

(** A provider that cannot be dialled. *)
Definition unreachable : @Service.collaborators unit :=
  Service.mkCollaborators
    (fun _ => Some "context canceled")
    (fun _ => inl (GSV_Result [v010]))
    (fun _ _ => (Some (Service.Reply tt), None))
    print_version
    "nil result".

(** A service named [name] whose cache holds version 0.1.0, and one
    whose cache has not been initialised. *)
Definition ready (name : string) : Service.world :=
  Service.mkWorld (Service.mkService "mock" name [v010] true) [].
Definition fresh (name : string) : Service.world :=
  Service.mkWorld (Service.mkService "mock" name [] false) [].

Definition id1 : VolumeID := mkVolumeID (<["id" := "1"]> ∅).

(** A server with the Services A and B, served on a unix socket. *)
Definition serverAB : @Server.Server unit :=
  Server.mkServer "unix://csi.sock"
    [Server.mkServiceEntry provider (ready "A");
     Server.mkServiceEntry provider (ready "B")]
    true
    [Server.RemoveAll "csi.sock"].

(** A call tagged for the Service b, and one with a tag no Service
    has. *)
Definition tagged (name : string) : Server.context :=
  Some (<["csi.service" := [name]]> ∅).

(** A platform on which addresses are parsed as the client parses
    them and every listen succeeds. *)
Definition platform : Server.platform :=
  Server.mkPlatform
    "gocsi: empty services"
    Endpoint.parseProtoAddr
    (fun p a => inl (Server.mkListener p a))
    (fun _ => "grpc: the server has been stopped").

(** Three callers taken in turn, fifteen times over. *)
Definition in_turn : list nat :=
  flat_map (fun _ => [0; 1; 2]) (seq 0 15).

End Examples.
From Stdlib Require DecimalPos DecimalN.

(** ** Package strconv, as far as the mock provider uses it *)
Module strconv.

(** The value of a decimal digit. *)
Definition digit (c : ascii) : option N :=
  let n := N_of_ascii c in
  if (48 <=? n)%N && (n <=? 57)%N then Some (n - 48)%N else None.

(** The number a string of decimal digits stands for, after [acc]. *)
Fixpoint digits (s : string) (acc : N) : option N :=
  match s with
  | EmptyString => Some acc
  | String c s' =>
      match digit c with
      | Some d => digits s' (acc * 10 + d)%N
      | None => None
      end
  end.

Definition MaxUint32 : N := 4294967295.

(** [strconv.ParseUint(s, 10, 32)]: the value, or [None] for an error
    (the empty string, a character that is no decimal digit, a value
    above [MaxUint32]). *)
Definition ParseUint32 (s : string) : option N :=
  match s with
  | EmptyString => None
  | _ =>
      match digits s 0 with
      | Some n => if (n <=? MaxUint32)%N then Some n else None
      | None => None
      end
  end.

(** [fmt.Sprintf("%d", z)] for a signed integer. *)
Definition fmt_dZ (z : Z) : string :=
  if (z <? 0)%Z then "-" +:+ fmt_d (Z.to_N (- z)) else fmt_d (Z.to_N z).

End strconv.

(** ** The mock provider: life cycle (Serve, Stop, GracefulStop)

    The fields [server] and [closed] of [sp], and what the three
    methods do to them and to the gRPC server they create. The same
    code guards the EBS provider. *)
Module MocLifecycle.

(** [server] is nil or a gRPC server. *)
Record sp := mkSp { server : bool; closed : bool }.

Inductive effect :=
| EvNewServer
| EvRegisterServers
| EvServe
| EvStop
| EvGracefulStop.

Definition errServerStarted : error := "gocsi: the server has been started".
Definition errServerStopped : error := "gocsi: the server has been stopped".

(** What [s.server.Serve(li)] returns when it stops serving. *)
Inductive grpc_result :=
| ErrServerStopped
| OtherError (e : error).

(** The start of [Serve], up to the call of [s.server.Serve(li)]:
    [Some] error when the call returns at once. *)
Definition Serve_enter (s : sp) : option error * sp * list effect :=
  match
    (if closed s then Some errServerStopped
     else if server s then Some errServerStarted
     else None)
  with
  | Some _ => (Some errServerStarted, s, [])
  | None =>
      (None, mkSp true (closed s), [EvNewServer; EvRegisterServers; EvServe])
  end.

(** What [Serve] returns once [s.server.Serve(li)] has returned. *)
Definition Serve_return (r : grpc_result) : error :=
  match r with
  | OtherError e => e
  | ErrServerStopped => errServerStopped
  end.

Definition Stop (s : sp) : sp * list effect :=
  if closed s || negb (server s) then (s, [])
  else (mkSp false true, [EvStop]).

Definition GracefulStop (s : sp) : sp * list effect :=
  if closed s || negb (server s) then (s, [])
  else (mkSp false true, [EvGracefulStop]).

(** The calls made to a provider, and a sequence of them. *)
Inductive op := OpServe | OpStop | OpGracefulStop.

Definition apply (o : op) (s : sp) : sp * list effect :=
  match o with
  | OpServe => let '(_, s', t) := Serve_enter s in (s', t)
  | OpStop => Stop s
  | OpGracefulStop => GracefulStop s
  end.

Fixpoint run (os : list op) (s : sp) : sp * list effect :=
  match os with
  | [] => (s, [])
  | o :: os' =>
      let (s1, t1) := apply o s in
      let (s2, t2) := run os' s1 in
      (s2, t1 ++ t2)
  end.

(** The gRPC servers created, and the servers stopped, in a trace. *)
Fixpoint created (t : list effect) : nat :=
  match t with
  | [] => 0
  | EvNewServer :: t' => S (created t')
  | _ :: t' => created t'
  end.

Fixpoint stopped (t : list effect) : nat :=
  match t with
  | [] => 0
  | EvStop :: t' | EvGracefulStop :: t' => S (stopped t')
  | _ :: t' => stopped t'
  end.

End MocLifecycle.

(** ** The mock provider: the other operations on the catalog *)
Module MocOps.
Section Provider.

(** [strings.EqualFold] of the Go standard library. *)
Variable EqualFold : string -> string -> bool.

(** *** Messages *)

Record NodeID := mkNodeID { node_Values : gmap string string }.

(** The requests of ControllerPublishVolume and
    ControllerUnpublishVolume: the volume and the node. *)
Record AttachRequest := mkAttachRequest
  { att_VolumeId : option VolumeID;
    att_NodeId : option NodeID }.

Record NodePublishVolumeRequest := mkNodePublishVolumeRequest
  { np_VolumeId : option VolumeID;
    TargetPath : string }.

Record ListVolumesRequest := mkListVolumesRequest
  { MaxEntries : N;
    StartingToken : string }.

(** The results the operations build. *)
Inductive result :=
| PublishVolumeInfo (values : gmap string string)
| Entries (entries : list VolumeInfo) (NextToken : string)
| EmptyResult.

(** A response: a result, or the message built by one of the [Err...]
    helpers. *)
Inductive response :=
| Result (r : result)
| ErrDeleteVolume (code : N) (msg : string)
| ErrControllerPublishVolume (code : N) (msg : string)
| ErrControllerUnpublishVolume (code : N) (msg : string)
| ErrListVolumes (code : N) (msg : string)
| ErrNodePublishVolumeGeneral (code : N) (msg : string)
| ErrNodePublishVolume (code : N) (msg : string)
| ErrNodeUnpublishVolumeGeneral (code : N) (msg : string)
| ErrNodeUnpublishVolume (code : N) (msg : string).

(** A response pointer and an error; both are nil when DeleteVolume
    succeeds. *)
Definition outcome : Type := option response * option error.

Definition nodeIDID : string := "mock".
Definition nodeMntpath : string := nodeIDID +:+ ".mntpath".

(** *** DeleteVolume *)

(** [vols[x] = vols[len(vols)-1]; vols[len(vols)-1] = nil;
    vols = vols[:len(vols)-1]] *)
Definition swap_remove (x : nat) (vs : list VolumeInfo) : list VolumeInfo :=
  match vs !! (length vs - 1) with
  | Some l => take (length vs - 1) (<[x := l]> vs)
  | None => vs
  end.

Definition DeleteVolume (req : VolumeRequest) (st : Moc.catalog)
  : outcome * Moc.catalog :=
  match VolumeId req with
  | None =>
      (* INVALID_VOLUME_ID *)
      ((Some (ErrDeleteVolume 3 "missing id obj"), None), st)
  | Some idObj =>
    if Nat.eqb (size (Values idObj)) 0 then
      (* INVALID_VOLUME_ID *)
      ((Some (ErrDeleteVolume 3 "missing id map"), None), st)
    else
      match Values idObj !! "id" with
      | None =>
          (* INVALID_VOLUME_ID *)
          ((Some (ErrDeleteVolume 3 "missing id val"), None), st)
      | Some id =>
          match Moc.findVol EqualFold "id" id st with
          | Some (x, _) =>
              ((None, None),
               Moc.mkCatalog (Moc.nextVolID st) (swap_remove x (Moc.vols st)))
          | None => ((None, None), st)
          end
      end
  end.

(** *** The metadata of a volume *)

(** [vols[x].Metadata.Values = md] *)
Definition set_metadata (x : nat) (md : gmap string string)
  (st : Moc.catalog) : Moc.catalog :=
  match Moc.vols st !! x with
  | Some v =>
      Moc.mkCatalog (Moc.nextVolID st)
        (<[x := mkVolumeInfo (Id v) md (CapacityBytes v)]> (Moc.vols st))
  | None => st
  end.

(** *** ControllerPublishVolume and ControllerUnpublishVolume *)

(** [now] is [time.Now().UTC().Unix()]. *)
Definition ControllerPublishVolume (now : Z) (req : AttachRequest)
  (st : Moc.catalog) : outcome * Moc.catalog :=
  match att_VolumeId req with
  | None =>
      ((Some (ErrControllerPublishVolume 3 "missing id obj"), None), st)
  | Some idObj =>
    if Nat.eqb (size (Values idObj)) 0 then
      ((Some (ErrControllerPublishVolume 3 "missing id map"), None), st)
    else
      match Values idObj !! "id" with
      | None =>
          ((Some (ErrControllerPublishVolume 3 "missing id val"), None), st)
      | Some id =>
        match att_NodeId req with
        | None =>
            (* INVALID_NODE_ID *)
            ((Some (ErrControllerPublishVolume 7 "missing node id"), None), st)
        | Some nid =>
          if Nat.eqb (size (node_Values nid)) 0 then
            ((Some (ErrControllerPublishVolume 7 "missing node id"), None), st)
          else
            match node_Values nid !! "id" with
            | None =>
                ((Some (ErrControllerPublishVolume 7 "node id required"),
                  None), st)
            | Some nidid =>
              let attk := "devpath." +:+ nidid in
              match Moc.findVol EqualFold "id" id st with
              | None =>
                  (* VOLUME_DOES_NOT_EXIST *)
                  ((Some (ErrControllerPublishVolume 5 "missing volume"),
                    None), st)
              | Some (x, v) =>
                  match Metadata v !! attk with
                  | Some p =>
                      ((Some (Result (PublishVolumeInfo
                                        (<["devpath" := p]> ∅))), None), st)
                  | None =>
                      let devpath := strconv.fmt_dZ now in
                      ((Some (Result (PublishVolumeInfo
                                        (<["devpath" := devpath]> ∅))), None),
                       set_metadata x (<[attk := devpath]> (Metadata v)) st)
                  end
              end
            end
        end
      end
  end.

Definition ControllerUnpublishVolume (req : AttachRequest)
  (st : Moc.catalog) : outcome * Moc.catalog :=
  match att_VolumeId req with
  | None =>
      ((Some (ErrControllerUnpublishVolume 3 "missing id obj"), None), st)
  | Some idObj =>
    if Nat.eqb (size (Values idObj)) 0 then
      ((Some (ErrControllerUnpublishVolume 3 "missing id map"), None), st)
    else
      match Values idObj !! "id" with
      | None =>
          ((Some (ErrControllerUnpublishVolume 3 "missing id val"), None), st)
      | Some id =>
        match att_NodeId req with
        | None =>
            ((Some (ErrControllerUnpublishVolume 7 "missing node id"), None),
             st)
        | Some nid =>
          if Nat.eqb (size (node_Values nid)) 0 then
            ((Some (ErrControllerUnpublishVolume 7 "missing node id"), None),
             st)
          else
            match node_Values nid !! "id" with
            | None =>
                (* NODE_ID_REQUIRED *)
                ((Some (ErrControllerUnpublishVolume 9 "node id required"),
                  None), st)
            | Some nidid =>
              let attk := "devpath." +:+ nidid in
              match Moc.findVol EqualFold "id" id st with
              | None =>
                  ((Some (ErrControllerUnpublishVolume 5 "missing volume"),
                    None), st)
              | Some (x, v) =>
                  match Metadata v !! attk with
                  | None =>
                      (* VOLUME_NOT_ATTACHED_TO_SPECIFIED_NODE *)
                      ((Some (ErrControllerUnpublishVolume 8 "not attached"),
                        None), st)
                  | Some _ =>
                      ((Some (Result EmptyResult), None),
                       set_metadata x (delete attk (Metadata v)) st)
                  end
              end
            end
        end
      end
  end.

(** *** NodePublishVolume and NodeUnpublishVolume *)

Definition NodePublishVolume (req : NodePublishVolumeRequest)
  (st : Moc.catalog) : outcome * Moc.catalog :=
  match np_VolumeId req with
  | None =>
      ((Some (ErrNodePublishVolumeGeneral 3 "missing id obj"), None), st)
  | Some idObj =>
    if Nat.eqb (size (Values idObj)) 0 then
      ((Some (ErrNodePublishVolumeGeneral 3 "missing id map"), None), st)
    else
      match Values idObj !! "id" with
      | None =>
          ((Some (ErrNodePublishVolumeGeneral 3 "missing id val"), None), st)
      | Some id =>
          match Moc.findVol EqualFold "id" id st with
          | None =>
              (* VOLUME_DOES_NOT_EXIST *)
              ((Some (ErrNodePublishVolume 2 "missing volume"), None), st)
          | Some (x, v) =>
              let mntpath := TargetPath req in
              if String.eqb mntpath "" then
                (* UNSUPPORTED_MOUNT_OPTION *)
                ((Some (ErrNodePublishVolume 3 "missing mount path"), None),
                 st)
              else
                ((Some (Result EmptyResult), None),
                 set_metadata x (<[nodeMntpath := mntpath]> (Metadata v)) st)
          end
      end
  end.

Definition NodeUnpublishVolume (req : VolumeRequest)
  (st : Moc.catalog) : outcome * Moc.catalog :=
  match VolumeId req with
  | None =>
      ((Some (ErrNodeUnpublishVolumeGeneral 3 "missing id obj"), None), st)
  | Some idObj =>
    if Nat.eqb (size (Values idObj)) 0 then
      ((Some (ErrNodeUnpublishVolumeGeneral 3 "missing id map"), None), st)
    else
      match Values idObj !! "id" with
      | None =>
          (* VOLUME_DOES_NOT_EXIST *)
          ((Some (ErrNodeUnpublishVolume 2 "missing id val"), None), st)
      | Some id =>
          match Moc.findVol EqualFold "id" id st with
          | None =>
              ((Some (ErrNodeUnpublishVolume 2 "missing volume"), None), st)
          | Some (x, v) =>
              ((Some (Result EmptyResult), None),
               set_metadata x (delete nodeMntpath (Metadata v)) st)
          end
      end
  end.

(** *** ListVolumes *)

(** The loop of [ListVolumes] over [vols[startingToken:ulenVols]],
    with [lena] entries so far; [None] is the panic of [v.Id.Values]
    on a volume without identifier. *)
Fixpoint entries_from (maxEntries lena : N) (rest : list VolumeInfo)
  : option (list VolumeInfo) :=
  match rest with
  | [] => Some []
  | v :: rest' =>
      if (0 <? maxEntries)%N && (maxEntries <=? lena)%N then Some []
      else
        match Id v with
        | None => None
        | Some _ =>
            match entries_from maxEntries (lena + 1) rest' with
            | Some es => Some (v :: es)
            | None => None
            end
        end
  end.

(** [uint32(n)] *)
Definition uint32 (n : N) : N := (n mod 2 ^ 32)%N.

Definition ListVolumes (req : ListVolumesRequest) (st : Moc.catalog)
  : option outcome :=
  let ulenVols := uint32 (N.of_nat (length (Moc.vols st))) in
  let maxEntries := uint32 (MaxEntries req) in
  match
    (if String.eqb (StartingToken req) "" then Some 0%N
     else strconv.ParseUint32 (StartingToken req))
  with
  | None =>
      Some (Some (ErrListVolumes 0
                    ("startingToken=" +:+ fmt_d 0 +:+ " !< uint32="
                       +:+ fmt_d strconv.MaxUint32)), None)
  | Some startingToken =>
      if (ulenVols <? startingToken)%N then
        Some (Some (ErrListVolumes 0
                      ("startingToken=" +:+ fmt_d startingToken
                         +:+ " > len(vols)=" +:+ fmt_d ulenVols)), None)
      else
        match
          entries_from maxEntries 0
            (take (N.to_nat (ulenVols - startingToken))
               (drop (N.to_nat startingToken) (Moc.vols st)))
        with
        | None => None
        | Some entries =>
            let lena := N.of_nat (length entries) in
            let nextToken :=
              if (uint32 (startingToken + lena) <? ulenVols)%N
              then fmt_d (uint32 (startingToken + lena))
              else ""%string in
            Some (Some (Result (Entries entries nextToken)), None)
        end
  end.

(** *** Sequences of requests, and the catalog they keep *)

(** A request to the provider; [now] is the clock read by
    ControllerPublishVolume. *)
Inductive request :=
| ReqCreateVolume (req : CreateVolumeRequest)
| ReqDeleteVolume (req : VolumeRequest)
| ReqControllerPublishVolume (now : Z) (req : AttachRequest)
| ReqControllerUnpublishVolume (req : AttachRequest)
| ReqNodePublishVolume (req : NodePublishVolumeRequest)
| ReqNodeUnpublishVolume (req : VolumeRequest).

(** The catalog a request leaves. *)
Definition serve (r : request) (st : Moc.catalog) : Moc.catalog :=
  match r with
  | ReqCreateVolume req => snd (Moc.CreateVolume EqualFold req st)
  | ReqDeleteVolume req => snd (DeleteVolume req st)
  | ReqControllerPublishVolume now req =>
      snd (ControllerPublishVolume now req st)
  | ReqControllerUnpublishVolume req => snd (ControllerUnpublishVolume req st)
  | ReqNodePublishVolume req => snd (NodePublishVolume req st)
  | ReqNodeUnpublishVolume req => snd (NodeUnpublishVolume req st)
  end.

Fixpoint serve_all (rs : list request) (st : Moc.catalog) : Moc.catalog :=
  match rs with
  | [] => st
  | r :: rs' => serve_all rs' (serve r st)
  end.

(** [v.Id.Values["id"]], when the volume has it. *)
Definition id_of (v : VolumeInfo) : option string :=
  match Id v with
  | Some id => Values id !! "id"
  | None => None
  end.

(** The identifier is the decimal form of a number from 1 to [next]. *)
Definition numbered (next : N) (o : option string) : bool :=
  match o with
  | Some s =>
      match strconv.digits s 0 with
      | Some k => (1 <=? k)%N && (k <=? next)%N && String.eqb s (fmt_d k)
      | None => false
      end
  | None => false
  end.

(** Every volume of the catalog carries the decimal form of a number
    the counter has reached, and no two volumes the same. *)
Definition wf (st : Moc.catalog) : bool :=
  forallb (numbered (Moc.nextVolID st)) (id_of <$> Moc.vols st)
  && bool_decide (NoDup (id_of <$> Moc.vols st)).

(** *** A client of ListVolumes *)

(** A client that asks for pages of at most [maxEntries] volumes,
    starting with the token [token] and going on with the token of
    each answer until an answer carries none; [fuel] bounds the number
    of pages. *)
Fixpoint list_pages (fuel : nat) (maxEntries : N) (token : string)
  (st : Moc.catalog) : option (list VolumeInfo) :=
  match fuel with
  | O => None
  | S fuel' =>
      match ListVolumes (mkListVolumesRequest maxEntries token) st with
      | Some (Some (Result (Entries es next)), None) =>
          if String.eqb next "" then Some es
          else
            match list_pages fuel' maxEntries next st with
            | Some rest => Some (es ++ rest)
            | None => None
            end
      | _ => None
      end
  end.

End Provider.
End MocOps.

(** ** Making a Service ([NewService] of package gocsi) *)
Module Registry.
Section Ctors.

Context {R : Type}.

(** [strings.EqualFold] of the Go standard library. *)
Variable EqualFold : string -> string -> bool.

(** What a registered constructor returns: a value that is a
    [ServiceProvider], or a value of another type, known by the name
    of that type. *)
Definition ctor : Type := (@Service.collaborators R + string)%type.

(** [LoadGoPlugins] and [ErrInvalidProvider] of package gocsi. *)
Record platform := mkPlatform
  { LoadGoPlugins : option error;
    ErrInvalidProvider : error }.

Variable P : platform.

(** The loop of [NewService] over [serviceProviderCtors], in the
    order in which the map is ranged over: the Service made from the
    first key equal to [serviceType] up to case, or the error. *)
Fixpoint NewService_range (entries : list (string * ctor))
  (serviceType serviceName : string) : @Server.Service R + error :=
  match entries with
  | [] => inr (ErrInvalidProvider P)
  | (k, v) :: rest =>
      if EqualFold k serviceType then
        match v with
        | inl sp =>
            inl (Server.mkServiceEntry sp
                   (Service.mkWorld (Service.mkService k serviceName [] false)
                      []))
        | inr T => inr ("invalid service provider type: " +:+ T)
        end
      else NewService_range rest serviceType serviceName
  end.

(** [NewService]; [entries] are the entries of [serviceProviderCtors]
    in the order of this range over the map. *)
Definition NewService (entries : list (string * ctor))
  (serviceType serviceName : string) : @Server.Service R + error :=
  match LoadGoPlugins P with
  | Some err => inr err
  | None => NewService_range entries serviceType serviceName
  end.

End Ctors.
End Registry.

(** ** More concrete inputs *)
Module MoreExamples.
Import Examples.

(** A provider that can be dialled but does not tell its versions. *)
Definition silent : @Service.collaborators unit :=
  Service.mkCollaborators
    (fun _ => None)
    (fun _ => inr "rpc error: unavailable")
    (fun _ _ => (Some (Service.Reply tt), None))
    print_version
    "nil result".

(** A registry with the mock provider and with a constructor whose
    value is no ServiceProvider. *)
Definition registry : gmap string (@Registry.ctor unit) :=
  <["mock" := inl provider]> (<["broken" := inr "*main.notProvider"]> ∅).

Definition plugins_loaded : Registry.platform :=
  Registry.mkPlatform None "gocsi: invalid service provider".

(** Requests about the volumes 2 and 3 of the mock catalog and the
    nodes n1 and n2. *)
Definition id2 : VolumeID := mkVolumeID (<["id" := "2"]> ∅).
Definition id3 : VolumeID := mkVolumeID (<["id" := "3"]> ∅).
Definition node (name : string) : MocOps.NodeID :=
  MocOps.mkNodeID (<["id" := name]> ∅).
Definition attach (id : VolumeID) (n : string) : MocOps.AttachRequest :=
  MocOps.mkAttachRequest (Some id) (Some (node n)).

(** The mock catalog with volume 2 published to node n1. *)
Definition attached : Moc.catalog :=
  snd (MocOps.ControllerPublishVolume ascii_EqualFold 1500000000
         (attach id2 "n1") Moc.initial_catalog).

End MoreExamples.

(** * Properties *)

(** ** The service wrapper *)
Section ServiceProperties.
Import Service.
Context {R : Type}.
Variable E : @collaborators R.

Lemma forwarded_app (h1 h2 : list event) :
  forwarded (h1 ++ h2) = forwarded h1 + forwarded h2.
Proof.
  induction h1 as [|e h1 IH]; simpl; [reflexivity|].
  destruct e; simpl; rewrite IH; reflexivity.
Qed.

Lemma version_queries_app (h1 h2 : list event) :
  version_queries (h1 ++ h2) = version_queries h1 + version_queries h2.
Proof.
  induction h1 as [|e h1 IH]; simpl; [reflexivity|].
  destruct e; simpl; rewrite IH; reflexivity.
Qed.

(** The loop of [chkReqVersion] accepts exactly the versions of the
    cache. *)
Lemma version_supported_In (rv : Version) (vs : list Version) :
  version_supported rv vs = true <-> In rv vs.
Proof.
  induction vs as [|v vs IH]; simpl.
  - split; [discriminate | tauto].
  - destruct (N.eqb_spec (Major rv) (Major v)) as [HM|HM]; simpl.
    + destruct (N.eqb_spec (Minor rv) (Minor v)) as [Hm|Hm]; simpl.
      * destruct (N.eqb_spec (Patch rv) (Patch v)) as [Hp|Hp]; simpl.
        -- split; [intros _; left | reflexivity].
           destruct rv, v; simpl in *; congruence.
        -- rewrite IH. split; [tauto | intros [->|H]; [congruence | exact H]].
      * rewrite IH. split; [tauto | intros [->|H]; [congruence | exact H]].
    + rewrite IH. split; [tauto | intros [->|H]; [congruence | exact H]].
Qed.

(** Initialising the cache forwards no call. *)
Lemma initSupportedVersionsOnce_forwarded (w : world) :
  forwarded (hist (snd (initSupportedVersionsOnce E w))) = forwarded (hist w).
Proof.
  unfold initSupportedVersionsOnce.
  destruct (versionsOnce (svc w)); [reflexivity|].
  unfold bind, initSupportedVersions, bind, dialIdentity, dial, ret.
  destruct (grpc_DialContext E (hist w)); simpl.
  - rewrite forwarded_app. simpl. lia.
  - destruct (supported_of E _); simpl;
      rewrite !forwarded_app; simpl; lia.
Qed.

(** On an initialised cache the version check changes nothing. *)
Lemma chkReqVersion_cached (rv : option Version) (w : world) :
  versionsOnce (svc w) = true ->
  chkReqVersion E rv w =
    (match rv with
     | None => "request version is nil"
     | Some v =>
         if version_supported v (versions (svc w)) then ""
         else "unsupported request version: " +:+ SprintfVersion E v
     end, w).
Proof.
  intros Hdone. unfold chkReqVersion, bind, initSupportedVersionsOnce.
  rewrite Hdone. destruct rv as [v|]; [|reflexivity].
  destruct (version_supported v _); reflexivity.
Qed.

(** The version check forwards no call. *)
Lemma chkReqVersion_forwarded (rv : option Version) (w : world) :
  forwarded (hist (snd (chkReqVersion E rv w))) = forwarded (hist w).
Proof.
  unfold chkReqVersion, bind.
  pose proof (initSupportedVersionsOnce_forwarded w) as H.
  destruct (initSupportedVersionsOnce E w) as [[e|] w']; simpl in *.
  - exact H.
  - destruct rv as [v|]; simpl; [|exact H].
    destruct (version_supported v _); exact H.
Qed.

(** Each wrapper is an instance of the common shape. *)
Lemma serve_call_gate (c : call) (w : world) :
  serve_call E c w = gate E c w.
Proof.
  destruct c as [r|r|r|r|r|r|r|r|r|r|r|r|r|r]; simpl;
    unfold CreateVolume, DeleteVolume, ControllerPublishVolume,
      ControllerUnpublishVolume, ValidateVolumeCapabilities, ListVolumes,
      GetCapacity, ControllerGetCapabilities, GetPluginInfo,
      NodePublishVolume, NodeUnpublishVolume, GetNodeID, ProbeNode,
      NodeGetCapabilities, gate, bind, ret, dialController, dialIdentity,
      dialNode, dial, dialled; simpl;
    try (destruct (VolumeId r) as [idObj|]; [|reflexivity];
         destruct (Nat.eqb (size (Values idObj)) 0); [reflexivity|]);
    destruct (grpc_DialContext E (hist w)); try reflexivity;
    destruct (chkReqVersion E _ _) as [v w'];
    destruct (negb (Nat.eqb (len v) 0)); reflexivity.
Qed.

(** A call is forwarded only when its version check returns the empty
    string. *)
Lemma gate_not_forwarded (c : call) (w : world) :
  fst (chkReqVersion E (GetVersion c) (dialled w)) <> ""%string ->
  forwarded (hist (snd (gate E c w))) = forwarded (hist w).
Proof.
  intros Hchk.
  assert (Hd : forwarded (hist (dialled w)) = forwarded (hist w))
    by (unfold dialled; simpl; rewrite forwarded_app; simpl; lia).
  assert (Hrest :
    forwarded (hist (snd
      (match grpc_DialContext E (hist w) with
       | Some e => ((None, Some e), dialled w)
       | None =>
           let (v, w') := chkReqVersion E (GetVersion c) (dialled w) in
           if negb (Nat.eqb (len v) 0) then
             ((Some (ErrUnsupportedVersion c v), None), w')
           else after_version_check E c w'
       end))) = forwarded (hist w)).
  { destruct (grpc_DialContext E (hist w)); simpl; [exact Hd|].
    pose proof (chkReqVersion_forwarded (GetVersion c) (dialled w)) as Hf.
    destruct (chkReqVersion E (GetVersion c) (dialled w)) as [v w'].
    simpl in *. destruct v as [|a v]; simpl; [contradiction | lia]. }
  unfold gate. destruct (checked_VolumeId c) as [[idObj|]|]; simpl.
  - destruct (Nat.eqb (size (Values idObj)) 0); [reflexivity | exact Hrest].
  - reflexivity.
  - exact Hrest.
Qed.

Lemma gate_id_present (c : call) (w : world) :
  id_present c = true ->
  gate E c w =
    match grpc_DialContext E (hist w) with
    | Some e => ((None, Some e), dialled w)
    | None =>
        let (v, w') := chkReqVersion E (GetVersion c) (dialled w) in
        if negb (Nat.eqb (len v) 0) then
          ((Some (ErrUnsupportedVersion c v), None), w')
        else after_version_check E c w'
    end.
Proof.
  unfold id_present, gate.
  destruct (checked_VolumeId c) as [[idObj|]|]; try discriminate;
    [|reflexivity].
  destruct (Nat.eqb (size (Values idObj)) 0); [discriminate | reflexivity].
Qed.

(** C2, as amended. On a Service whose version cache has been
    initialised, a call whose declared version equals none of the cached
    versions is never forwarded to the provider; and when the call
    passes the identifier check its wrapper makes before the version
    check (DeleteVolume, Controller(Un)PublishVolume and
    Node(Un)PublishVolume have one) and the dial of the provider
    succeeds, the answer is a response, not an error, that carries the
    unsupported-version error (code 2) for that version. *)
Theorem unsupported_version_is_rejected (c : call) (w : world) (rv : Version) :
  versionsOnce (svc w) = true ->
  GetVersion c = Some rv ->
  version_supported rv (versions (svc w)) = false ->
  forwarded (hist (snd (serve_call E c w))) = forwarded (hist w) /\
  (id_present c = true ->
   grpc_DialContext E (hist w) = None ->
   serve_call E c w =
     ((Some (ErrUnsupportedVersion c
               ("unsupported request version: " +:+ SprintfVersion E rv)),
       None),
      dialled w)).
Proof.
  intros Hdone Hrv Hunsup.
  assert (Hchk : chkReqVersion E (GetVersion c) (dialled w) =
                 ("unsupported request version: " +:+ SprintfVersion E rv,
                  dialled w)).
  { rewrite chkReqVersion_cached by exact Hdone.
    rewrite Hrv. simpl. rewrite Hunsup. reflexivity. }
  rewrite serve_call_gate. split.
  - apply gate_not_forwarded. rewrite Hchk. simpl. discriminate.
  - intros Hid Hdial. rewrite gate_id_present by exact Hid.
    rewrite Hdial, Hchk. reflexivity.
Qed.

(** C5. DeleteVolume answers a request whose volume identifier is nil,
    or has an empty value map, with the INVALID_VOLUME_ID error (code 3)
    in a response, whatever the version of the request: nothing is
    dialled, queried or forwarded, the world is as it was. CreateVolume
    checks the version first: a request with an unsupported version gets
    the unsupported-version error whatever its name, the empty name
    included. *)
Theorem DeleteVolume_checks_id_before_version
  (req : VolumeRequest) (cv : CreateVolumeRequest) (rv : Version)
  (w : world) :
  (VolumeId req = None ->
   DeleteVolume E req w =
     ((Some (ErrDeleteVolume 3 "missing id obj"), None), w)) /\
  (forall idObj, VolumeId req = Some idObj -> size (Values idObj) = 0 ->
   DeleteVolume E req w =
     ((Some (ErrDeleteVolume 3 "missing id map"), None), w)) /\
  (grpc_DialContext E (hist w) = None ->
   versionsOnce (svc w) = true ->
   cv_Version cv = Some rv ->
   version_supported rv (versions (svc w)) = false ->
   CreateVolume E cv w =
     ((Some (ErrCreateVolumeGeneral 2
               ("unsupported request version: " +:+ SprintfVersion E rv)),
       None),
      dialled w)).
Proof.
  split; [|split].
  - intros Hnil. unfold DeleteVolume. rewrite Hnil. reflexivity.
  - intros idObj Hid Hsize. unfold DeleteVolume. rewrite Hid, Hsize.
    reflexivity.
  - intros Hdial Hdone Hrv Hunsup.
    unfold CreateVolume, bind, dialController, dial.
    rewrite Hdial. fold (dialled w).
    rewrite chkReqVersion_cached by exact Hdone.
    rewrite Hrv. simpl. rewrite Hunsup. reflexivity.
Qed.

(** The version check passes when the cache holds the version. *)
Lemma chkReqVersion_supported (rv : Version) (w : world) :
  cache_holds E rv w ->
  chkReqVersion E (Some rv) w = (""%string, snd (initSupportedVersionsOnce E w)).
Proof.
  intros [Hinit Hsup]. unfold chkReqVersion, bind.
  destruct (initSupportedVersionsOnce E w) as [err w']. simpl in *.
  subst err. rewrite Hsup. reflexivity.
Qed.

(** On an initialised cache, the cache holds what the loop finds in
    it, and nothing is initialised. *)
Lemma cache_holds_cached (rv : Version) (w : world) :
  versionsOnce (svc w) = true ->
  (cache_holds E rv w <-> version_supported rv (versions (svc w)) = true) /\
  snd (initSupportedVersionsOnce E w) = w.
Proof.
  intros Hdone. unfold cache_holds, initSupportedVersionsOnce.
  rewrite Hdone. simpl. tauto.
Qed.



(** *** One query over any sequence of calls *)

(** The provider has been queried at most once since the history had
    [q0] queries, and not at all while the cache is not initialised. *)
Definition queried_once (q0 : nat) (w : world) : Prop :=
  if versionsOnce (svc w) then version_queries (hist w) <= q0 + 1
  else version_queries (hist w) = q0.

Lemma queried_once_hist (q0 : nat) (w : world) (e : event) :
  e <> EvGetSupportedVersions ->
  queried_once q0 w -> queried_once q0 (mkWorld (svc w) (hist w ++ [e])).
Proof.
  intros He. unfold queried_once. simpl. rewrite version_queries_app.
  destruct e; try contradiction; simpl; rewrite Nat.add_0_r; auto.
Qed.

Lemma initSupportedVersionsOnce_queried_once (q0 : nat) (w : world) :
  queried_once q0 w ->
  queried_once q0 (snd (initSupportedVersionsOnce E w)).
Proof.
  unfold queried_once, initSupportedVersionsOnce.
  destruct (versionsOnce (svc w)) eqn:Hdone.
  - simpl. rewrite Hdone. auto.
  - intros Hq.
    unfold bind, initSupportedVersions, bind, dialIdentity, dial, ret,
      client_GetSupportedVersions_call, set_versions, set_versionsOnce.
    destruct (grpc_DialContext E (hist w)); simpl.
    + rewrite version_queries_app. simpl. lia.
    + destruct (supported_of E _); simpl;
        rewrite !version_queries_app; simpl; lia.
Qed.

Lemma serve_call_queried_once (q0 : nat) (c : call) (w : world) :
  queried_once q0 w -> queried_once q0 (snd (serve_call E c w)).
Proof.
  intros Hq. rewrite serve_call_gate.
  assert (Hrest : queried_once q0 (snd
      (match grpc_DialContext E (hist w) with
       | Some e => ((None, Some e), dialled w)
       | None =>
           let (v, w') := chkReqVersion E (GetVersion c) (dialled w) in
           if negb (Nat.eqb (len v) 0) then
             ((Some (ErrUnsupportedVersion c v), None), w')
           else after_version_check E c w'
       end))).
  { assert (Hd : queried_once q0 (dialled w))
      by (apply queried_once_hist; [discriminate | exact Hq]).
    destruct (grpc_DialContext E (hist w)); [exact Hd|].
    pose proof (initSupportedVersionsOnce_queried_once q0 (dialled w) Hd) as Hi.
    unfold chkReqVersion, bind.
    destruct (initSupportedVersionsOnce E (dialled w)) as [[e|] w'];
      simpl in Hi.
    - simpl. destruct (negb (Nat.eqb (len e) 0)); [exact Hi|].
      unfold after_version_check, forward, ret.
      destruct c; simpl; try (apply queried_once_hist; [discriminate | exact Hi]).
      destruct (Nat.eqb (len (Name req)) 0);
        [exact Hi | apply queried_once_hist; [discriminate | exact Hi]].
    - assert (Hafter : forall v, queried_once q0
                (snd (if negb (Nat.eqb (len v) 0)
                      then ((Some (ErrUnsupportedVersion c v), None), w')
                      else after_version_check E c w'))).
      { intros v. destruct (negb (Nat.eqb (len v) 0)); [exact Hi|].
        unfold after_version_check, forward, ret.
        destruct c; simpl;
          try (apply queried_once_hist; [discriminate | exact Hi]).
        destruct (Nat.eqb (len (Name req)) 0);
          [exact Hi | apply queried_once_hist; [discriminate | exact Hi]]. }
      destruct (GetVersion c) as [rv|];
        [|exact (Hafter "request version is nil"%string)].
      cbv beta iota.
      destruct (version_supported rv (versions (svc w')));
        [exact (Hafter ""%string)
        | exact (Hafter ("unsupported request version: "
                           +:+ SprintfVersion E rv))]. }
  unfold gate. destruct (checked_VolumeId c) as [[idObj|]|]; simpl.
  - destruct (Nat.eqb (size (Values idObj)) 0); [exact Hq | exact Hrest].
  - exact Hq.
  - exact Hrest.
Qed.

Lemma GetSupportedVersions_queried_once (q0 : nat) (w : world) :
  queried_once q0 w -> queried_once q0 (snd (GetSupportedVersions E w)).
Proof.
  intros Hq. unfold GetSupportedVersions, bind.
  pose proof (initSupportedVersionsOnce_queried_once q0 w Hq) as Hi.
  destruct (initSupportedVersionsOnce E w) as [[e|] w']; exact Hi.
Qed.

(** X6. Whatever calls a Service serves, one after the other, its
    provider is asked for its supported versions at most once. *)
Lemma serve_calls_query_once (cs : list (option call)) (w : world) :
  versionsOnce (svc w) = false ->
  version_queries (hist (serve_calls E cs w)) <= version_queries (hist w) + 1.
Proof.
  intros Hfresh.
  assert (Hq : queried_once (version_queries (hist w)) w)
    by (unfold queried_once; rewrite Hfresh; reflexivity).
  assert (Hall : forall cs w', queried_once (version_queries (hist w)) w' ->
            queried_once (version_queries (hist w)) (serve_calls E cs w')).
  { clear. intros cs. induction cs as [|[c|] cs IH]; intros w' Hw'; simpl.
    - exact Hw'.
    - apply IH. apply serve_call_queried_once. exact Hw'.
    - apply IH. apply GetSupportedVersions_queried_once. exact Hw'. }
  specialize (Hall cs w Hq). unfold queried_once in Hall.
  destruct (versionsOnce (svc (serve_calls E cs w))); lia.
Qed.

End ServiceProperties.

(** ** The routing server *)
Section ServerProperties.
Import Server.
Context {R : Type}.
Variable EqualFold : string -> string -> bool.
Variable P : platform.


(** C1. [Serve] on a server without Services returns the
    empty-services error at once: the server is unchanged and there is
    no effect at all, so that the address is not parsed and no listener
    is bound. *)
Theorem Serve_without_services (s : @Server.Server R) (l : option Listener) :
  Services s = [] ->
  Serve P s l = (ErrEmptyServices P, s, []).
Proof.
  intros Hnone. unfold Serve. rewrite Hnone. reflexivity.
Qed.

(** With a Service configured and no listener given, the address is
    parsed and a listener bound before anything else. *)
Lemma Serve_binds_listener (s : @Server.Server R) (p a : string) (lis : Listener) :
  Services s <> [] ->
  ParseProtoAddr P (Addr s) = inl (p, a) ->
  net_Listen P p a = inl lis ->
  exists t, snd (Serve P s None) =
            EvParseProtoAddr (Addr s) :: EvListen p a :: t.
Proof.
  intros Hsome Hparse Hlisten. unfold Serve.
  destruct (Services s) as [|svc rest] eqn:Hs; [congruence|]. simpl.
  rewrite Hparse, Hlisten. simpl. eexists. reflexivity.
Qed.












(** [Serve] on a unix socket registers the removal of the socket file,
    after the actions already registered. *)
Lemma Serve_registers_socket_cleanup (s : @Server.Server R) (l : Listener) :
  Services s <> [] ->
  Network l = "unix"%string ->
  x (snd (fst (Serve P s (Some l)))) = x s ++ [RemoveAll (String_ l)] /\
  g (snd (fst (Serve P s (Some l)))) = true.
Proof.
  intros Hsome Hunix. unfold Serve.
  destruct (Services s) as [|svc rest]; [congruence|]. simpl.
  rewrite Hunix. simpl. split; reflexivity.
Qed.

End ServerProperties.

(** ** The mock provider *)
Section MocProperties.
Import Moc.
Variable EqualFold : string -> string -> bool.

(** One turn of the loop of [findVol]. *)
Lemma findVol_from_step (x : nat) (field val : string)
  (v : VolumeInfo) (rest : list VolumeInfo) :
  findVol_from EqualFold x field val (v :: rest) =
    if field_matches EqualFold field val v then Some (x, v)
    else findVol_from EqualFold (S x) field val rest.
Proof.
  simpl. unfold field_matches. destruct (Id v) as [id|]; [|reflexivity].
  destruct (Nat.eqb_spec (size (Values id)) 0) as [Hsize|Hsize].
  - apply map_size_empty_iff in Hsize. rewrite Hsize, lookup_empty.
    reflexivity.
  - destruct (Values id !! field); reflexivity.
Qed.

Lemma findVol_from_Some (x y : nat) (field val : string)
  (vs : list VolumeInfo) (v : VolumeInfo) :
  findVol_from EqualFold x field val vs = Some (y, v) ->
  exists k,
    y = x + k /\ vs !! k = Some v /\
    field_matches EqualFold field val v = true /\
    (forall k' v', k' < k -> vs !! k' = Some v' ->
                   field_matches EqualFold field val v' = false).
Proof.
  revert x. induction vs as [|v0 rest IH]; intros x.
  - discriminate.
  - rewrite findVol_from_step.
    destruct (field_matches EqualFold field val v0) eqn:Hm.
    + intros [= <- <-]. exists 0. repeat split; [lia | exact Hm |].
      intros k' v' Hlt. lia.
    + intros Hfind. destruct (IH _ Hfind) as (k & -> & Hk & Hv & Hmin).
      exists (S k). repeat split; [lia | exact Hk | exact Hv |].
      intros [|k'] v' Hlt Hk'; simpl in Hk'.
      * injection Hk' as <-. exact Hm.
      * apply (Hmin k' v'); [lia | exact Hk'].
Qed.

Lemma findVol_from_None (x : nat) (field val : string)
  (vs : list VolumeInfo) :
  findVol_from EqualFold x field val vs = None <->
  (forall v, In v vs -> field_matches EqualFold field val v = false).
Proof.
  revert x. induction vs as [|v0 rest IH]; intros x.
  - simpl. split; [intros _ v [] | reflexivity].
  - rewrite findVol_from_step.
    destruct (field_matches EqualFold field val v0) eqn:Hm.
    + split; [discriminate|]. intros H.
      rewrite (H v0 (or_introl eq_refl)) in Hm. discriminate.
    + rewrite IH. split.
      * intros H v [<-|Hin]; [exact Hm | exact (H _ Hin)].
      * intros H v Hin. apply H. right. exact Hin.
Qed.

(** The search goes on in the appended part when the first part has no
    match. *)
Lemma findVol_from_app (x : nat) (field val : string)
  (vs ws : list VolumeInfo) :
  findVol_from EqualFold x field val vs = None ->
  findVol_from EqualFold x field val (vs ++ ws) =
    findVol_from EqualFold (x + length vs) field val ws.
Proof.
  revert x. induction vs as [|v0 rest IH]; intros x.
  - intros _. simpl. f_equal. lia.
  - rewrite <- app_comm_cons, !findVol_from_step.
    destruct (field_matches EqualFold field val v0); [discriminate|].
    intros Hnone. rewrite (IH _ Hnone). f_equal. simpl. lia.
Qed.

(** A volume made by [newVolume] carries its name. *)
Lemma newVolume_named (name : string) (capacity : N) (st : catalog) :
  EqualFold name name = true ->
  field_matches EqualFold "name" name (fst (newVolume name capacity st)) = true.
Proof.
  intros Hrefl. unfold newVolume, field_matches. simpl.
  rewrite lookup_insert_ne by discriminate.
  rewrite lookup_insert_eq. exact Hrefl.
Qed.

(** [CreateVolume] on a catalog where the name is found. *)
Lemma CreateVolume_found (req : CreateVolumeRequest) (st : catalog)
  (x : nat) (v : VolumeInfo) :
  csi.Name req <> ""%string ->
  findVolByName EqualFold (csi.Name req) st = Some (x, v) ->
  CreateVolume EqualFold req st = ((Some (Service.Reply v), None), st).
Proof.
  intros Hname Hfind. unfold CreateVolume.
  destruct (String.eqb_spec (csi.Name req) "") as [Heq|_]; [contradiction|].
  rewrite Hfind. reflexivity.
Qed.

(** C10. In the mock provider, for a request with a non-empty name:
    when a volume of the catalog has a name equal to the requested one
    up to case, the first such volume is returned and the catalog is
    unchanged; when none has, one new volume with the requested name is
    appended and returned. A second call with the same name, in the
    catalog the first call leaves, returns the same volume and leaves
    the catalog as it is, so that the catalog grows by at most one.
    [strings.EqualFold] is taken to relate every string to itself. *)
Theorem CreateVolume_idempotent
  (req req' : CreateVolumeRequest) (st : catalog) :
  (forall s, EqualFold s s = true) ->
  csi.Name req <> ""%string ->
  csi.Name req' = csi.Name req ->
  ((exists v, In v (vols st) /\
              field_matches EqualFold "name" (csi.Name req) v = true) ->
   exists x v,
     vols st !! x = Some v /\
     field_matches EqualFold "name" (csi.Name req) v = true /\
     (forall x' v', x' < x -> vols st !! x' = Some v' ->
                    field_matches EqualFold "name" (csi.Name req) v' = false) /\
     CreateVolume EqualFold req st = ((Some (Service.Reply v), None), st)) /\
  ((forall v, In v (vols st) ->
              field_matches EqualFold "name" (csi.Name req) v = false) ->
   exists v st',
     CreateVolume EqualFold req st = ((Some (Service.Reply v), None), st') /\
     vols st' = vols st ++ [v] /\
     field_matches EqualFold "name" (csi.Name req) v = true) /\
  (exists v st1,
     CreateVolume EqualFold req st = ((Some (Service.Reply v), None), st1) /\
     CreateVolume EqualFold req' st1 = ((Some (Service.Reply v), None), st1) /\
     length (vols st) <= length (vols st1) <= S (length (vols st))).
Proof.
  intros Hrefl Hname Hsame.
  assert (Hname' : csi.Name req' <> ""%string) by congruence.
  assert (Hnew : findVolByName EqualFold (csi.Name req) st = None ->
    exists v st',
      CreateVolume EqualFold req st = ((Some (Service.Reply v), None), st') /\
      vols st' = vols st ++ [v] /\
      field_matches EqualFold "name" (csi.Name req) v = true /\
      findVolByName EqualFold (csi.Name req) st' = Some (length (vols st), v)).
  { intros Hnone. unfold CreateVolume.
    destruct (String.eqb_spec (csi.Name req) "") as [Heq|_]; [contradiction|].
    rewrite Hnone.
    set (capacity := match Capacity req with
                     | Some cr => if (RequiredBytes cr =? 0)%N then gib100
                                  else RequiredBytes cr
                     | None => gib100 end).
    pose proof (newVolume_named (csi.Name req) capacity st (Hrefl _)) as Hv.
    destruct (newVolume (csi.Name req) capacity st) as [v st'] eqn:Hnv.
    simpl in Hv. exists v, (mkCatalog (nextVolID st') (vols st' ++ [v])).
    assert (Hvols : vols st' = vols st)
      by (unfold newVolume in Hnv; injection Hnv as _ <-; reflexivity).
    rewrite Hvols. repeat split; [exact Hv|].
    unfold findVolByName, findVol in *. simpl.
    rewrite findVol_from_app by exact Hnone.
    rewrite findVol_from_step, Hv. reflexivity. }
  split; [|split].
  - intros (v & Hin & Hv).
    destruct (findVolByName EqualFold (csi.Name req) st) as [[x v0]|] eqn:Hfind.
    + unfold findVolByName, findVol in Hfind.
      destruct (findVol_from_Some _ _ _ _ _ _ Hfind) as (k & -> & Hk & Hv0 & Hmin).
      exists k, v0. repeat split; try assumption.
      apply (CreateVolume_found req st (0 + k) v0 Hname). exact Hfind.
    + unfold findVolByName, findVol in Hfind.
      rewrite findVol_from_None in Hfind.
      rewrite (Hfind v Hin) in Hv. discriminate.
  - intros Hnone.
    apply (findVol_from_None 0) in Hnone.
    destruct (Hnew Hnone) as (v & st' & Hc & Hvols & Hv & _).
    exists v, st'. repeat split; assumption.
  - destruct (findVolByName EqualFold (csi.Name req) st) as [[x v]|] eqn:Hfind.
    + exists v, st. split; [|split].
      * exact (CreateVolume_found req st x v Hname Hfind).
      * apply (CreateVolume_found req' st x v Hname'). rewrite Hsame.
        exact Hfind.
      * lia.
    + destruct (Hnew eq_refl) as (v & st' & Hc & Hvols & Hv & Hfind').
      exists v, st'. split; [|split].
      * exact Hc.
      * apply (CreateVolume_found req' st' (length (vols st)) v Hname').
        rewrite Hsame. exact Hfind'.
      * rewrite Hvols, length_app. simpl. lia.
Qed.

End MocProperties.

(** ** The matcher and what a regular expression matches *)
Section RegexpProperties.
Import Regexp.

(** The continuation at a point. *)
Definition at_point (k : cont) (q : point) : option captures :=
  k (fst (fst q)) (snd (fst q)) (snd q).

Lemma strip_spec (v s s' : bytes) :
  strip v s = Some s' <-> s = v ++ s'.
Proof.
  revert s. induction v as [|a v IH]; intros s; simpl.
  - split; [intros [= ->] | intros ->]; reflexivity.
  - destruct s as [|c s]; [split; discriminate|].
    destruct (Ascii.eqb_spec a c) as [->|Hne].
    + rewrite IH. split; [intros ->; reflexivity | intros [= ->]; reflexivity].
    + split; [discriminate | intros [= -> _]; contradiction].
Qed.

Lemma strip_app (v s : bytes) : strip v (v ++ s) = Some s.
Proof. apply strip_spec. reflexivity. Qed.

Lemma orelse_Some (a c : option captures) (x : captures) :
  orelse a c = Some x -> a = Some x \/ (a = None /\ c = Some x).
Proof. destruct a; simpl; [intros [= ->]; left | right]; auto. Qed.

Lemma first_variant_sound (vs : list bytes) (pos : nat) (s : bytes)
  (c : captures) (k : cont) (x : captures) :
  first_variant vs pos s c k = Some x ->
  exists v s', In v vs /\ s = v ++ s' /\ k (pos + length v) s' c = Some x.
Proof.
  induction vs as [|v vs IH]; simpl; [discriminate|].
  intros H. apply orelse_Some in H. destruct H as [H | [_ H]].
  - destruct (strip v s) as [s'|] eqn:Hs; [|discriminate].
    apply strip_spec in Hs. exists v, s'. auto.
  - destruct (IH H) as (v' & s' & Hin & Hs & Hk). exists v', s'. auto.
Qed.

Lemma first_variant_complete (vs : list bytes) (pos : nat) (s' : bytes)
  (c : captures) (k : cont) (v : bytes) (x : captures) :
  In v vs -> k (pos + length v) s' c = Some x ->
  exists y, first_variant vs pos (v ++ s') c k = Some y.
Proof.
  induction vs as [|v0 vs IH]; simpl; [intros []|].
  intros [->|Hin] Hk.
  - rewrite strip_app, Hk. simpl. eauto.
  - destruct (IH Hin Hk) as [y Hy]. rewrite Hy.
    destruct (match strip v0 (v ++ s') with Some _ => _ | None => _ end);
      simpl; eauto.
Qed.

Lemma plus_loop_sound
  (ma : nat -> bytes -> captures -> cont -> option captures)
  (step : point -> point -> Prop) (k : cont) :
  (forall pos s c k' x, ma pos s c k' = Some x ->
     exists q, step (pos, s, c) q /\ at_point k' q = Some x) ->
  forall n pos s c x,
    plus_loop ma k n pos s c = Some x ->
    exists q, iter1 step (pos, s, c) q /\ at_point k q = Some x.
Proof.
  intros Hma. induction n as [|n IH]; intros pos s c x H; simpl in H;
    apply Hma in H; destruct H as ([[pos' s'] c'] & Hstep & Hk);
    unfold at_point in Hk; simpl in Hk.
  - exists (pos', s', c'). split; [apply iter1_once; exact Hstep | exact Hk].
  - apply orelse_Some in Hk. destruct Hk as [Hk | [_ Hk]].
    + destruct (IH _ _ _ _ Hk) as (q & Hiter & Hq).
      exists q. split; [eapply iter1_more; eassumption | exact Hq].
    + exists (pos', s', c').
      split; [apply iter1_once; exact Hstep | exact Hk].
Qed.

(** The matcher is sound: a result comes from a match of the
    expression followed by a success of the continuation. *)
Lemma m_sound (r : re) :
  forall pos s c k x,
    m r pos s c k = Some x ->
    exists q, matches r (pos, s, c) q /\ at_point k q = Some x.
Proof.
  induction r as [|a|cs| |a IHa b0 IHb|a IHa b0 IHb|a IHa|a IHa|i a IHa| |];
    intros pos s c k x H; simpl in H.
  - exists (pos, s, c). split; [reflexivity | exact H].
  - apply first_variant_sound in H. destruct H as (v & s' & Hin & -> & Hk).
    exists (pos + length v, s', c). split; [|exact Hk].
    simpl. exists v, s'. auto.
  - destruct s as [|b0 s']; [discriminate|].
    destruct (existsb (Ascii.eqb b0) cs) eqn:Hcs; [|discriminate].
    exists (S pos, s', c). split; [|exact H].
    simpl. exists b0, s'. repeat split.
    apply existsb_exists in Hcs. destruct Hcs as (y & Hin & Hy).
    apply Ascii.eqb_eq in Hy. subst y. exact Hin.
  - destruct s as [|b0 s']; [discriminate|].
    destruct (Ascii.eqb_spec b0 newline) as [|Hne]; [discriminate|].
    exists (S pos, s', c). split; [|exact H].
    simpl. exists b0, s'. auto.
  - apply IHa in H. destruct H as ([[pos1 s1] c1] & Ha & H).
    unfold at_point in H. simpl in H.
    apply IHb in H. destruct H as (q & Hb & Hk).
    exists q. split; [|exact Hk]. simpl. eauto.
  - apply orelse_Some in H. destruct H as [H | [_ H]].
    + apply IHa in H. destruct H as (q & Ha & Hk). exists q. simpl. auto.
    + apply IHb in H. destruct H as (q & Hb & Hk). exists q. simpl. auto.
  - apply orelse_Some in H. destruct H as [H | [_ H]].
    + apply IHa in H. destruct H as (q & Ha & Hk). exists q. simpl. auto.
    + exists (pos, s, c). simpl. auto.
  - apply (plus_loop_sound (m a) (matches a) k IHa) in H. exact H.
  - apply IHa in H. destruct H as ([[pos1 s1] c1] & Ha & H).
    unfold at_point in H. simpl in H.
    exists (pos1, s1, (i, (pos, pos1)) :: c1). split; [|exact H].
    simpl. exists (pos1, s1, c1). auto.
  - destruct (Nat.eqb_spec pos 0) as [->|]; [|discriminate].
    exists (0, s, c). simpl. auto.
  - destruct s; [|discriminate]. exists (pos, [], c). simpl. auto.
Qed.

(** A match consumes a prefix of the input and advances the offset by
    its length. *)
Lemma matches_consumes (r : re) :
  forall pos s c pos' s' c',
    matches r (pos, s, c) (pos', s', c') ->
    exists u, s = u ++ s' /\ pos' = pos + length u.
Proof.
  induction r as [|a|cs| |a IHa b0 IHb|a IHa b0 IHb|a IHa|a IHa|i a IHa| |];
    intros pos s c pos' s' c' H; simpl in H.
  - injection H as -> -> ->. exists []. split; [reflexivity | simpl; lia].
  - destruct H as (v & s1 & _ & -> & [= -> -> ->]). exists v. auto.
  - destruct H as (b0 & s1 & -> & _ & [= -> -> ->]). exists [b0].
    split; [reflexivity | simpl; lia].
  - destruct H as (b0 & s1 & -> & _ & [= -> -> ->]). exists [b0].
    split; [reflexivity | simpl; lia].
  - destruct H as ([[pos1 s1] c1] & Ha & Hb).
    apply IHa in Ha. apply IHb in Hb.
    destruct Ha as (u1 & -> & ->). destruct Hb as (u2 & -> & ->).
    exists (u1 ++ u2). rewrite <- app_assoc, length_app.
    split; [reflexivity | lia].
  - destruct H as [H|H]; [apply IHa in H | apply IHb in H]; exact H.
  - destruct H as [H|H]; [apply IHa in H; exact H|].
    injection H as -> -> ->. exists []. split; [reflexivity | simpl; lia].
  - remember (pos, s, c) as p eqn:Hp. remember (pos', s', c') as q eqn:Hq.
    revert pos s c Hp pos' s' c' Hq.
    induction H as [p q Hstep | p q q' Hstep Hiter IH];
      intros pos s c -> pos' s' c' ->.
    + apply IHa in Hstep. exact Hstep.
    + destruct q as [[pos1 s1] c1].
      apply IHa in Hstep. destruct Hstep as (u1 & -> & ->).
      destruct (IH _ _ _ eq_refl _ _ _ eq_refl) as (u2 & -> & ->).
      exists (u1 ++ u2). rewrite <- app_assoc, length_app.
      split; [reflexivity | lia].
  - destruct H as ([[pos1 s1] c1] & Ha & [= -> -> ->]).
    apply IHa in Ha. exact Ha.
  - destruct H as (_ & [= -> -> ->]). exists []. split; [reflexivity | simpl; lia].
  - destruct H as (_ & [= -> -> ->]). exists []. split; [reflexivity | simpl; lia].
Qed.

(** An expression that consumes input leaves less input. *)
Lemma matches_shrinks (r : re) :
  consuming r = true ->
  forall pos s c pos' s' c',
    matches r (pos, s, c) (pos', s', c') -> length s' < length s.
Proof.
  induction r as [|a|cs| |a IHa b0 IHb|a IHa b0 IHb|a IHa|a IHa|i a IHa| |];
    simpl; intros Hc pos s c pos' s' c' H; try discriminate.
  - destruct H as (v & s1 & Hin & -> & [= -> -> ->]).
    rewrite forallb_forall in Hc. specialize (Hc v Hin).
    rewrite length_app. destruct v; [discriminate | simpl; lia].
  - destruct H as (b0 & s1 & -> & _ & [= -> -> ->]). simpl. lia.
  - destruct H as (b0 & s1 & -> & _ & [= -> -> ->]). simpl. lia.
  - destruct H as ([[pos1 s1] c1] & Ha & Hb).
    pose proof (matches_consumes _ _ _ _ _ _ _ Ha) as (u1 & -> & _).
    pose proof (matches_consumes _ _ _ _ _ _ _ Hb) as (u2 & Hs1 & _).
    apply orb_true_iff in Hc. destruct Hc as [Hc|Hc].
    + specialize (IHa Hc _ _ _ _ _ _ Ha). subst s1.
      rewrite !length_app in *. lia.
    + specialize (IHb Hc _ _ _ _ _ _ Hb). subst s1.
      rewrite !length_app in *. lia.
  - apply andb_true_iff in Hc. destruct Hc as [Hca Hcb].
    destruct H as [H|H]; [exact (IHa Hca _ _ _ _ _ _ H)
                         | exact (IHb Hcb _ _ _ _ _ _ H)].
  - remember (pos, s, c) as p eqn:Hp. remember (pos', s', c') as q eqn:Hq.
    revert pos s c Hp pos' s' c' Hq.
    induction H as [p q Hstep | p q q' Hstep Hiter IH];
      intros pos s c -> pos' s' c' ->.
    + exact (IHa Hc _ _ _ _ _ _ Hstep).
    + destruct q as [[pos1 s1] c1].
      specialize (IHa Hc _ _ _ _ _ _ Hstep).
      specialize (IH _ _ _ eq_refl _ _ _ eq_refl). lia.
  - destruct H as ([[pos1 s1] c1] & Ha & [= -> -> ->]).
    exact (IHa Hc _ _ _ _ _ _ Ha).
Qed.

Lemma plus_loop_complete
  (ma : nat -> bytes -> captures -> cont -> option captures)
  (step : point -> point -> Prop) (k : cont) :
  (forall pos s c q k' x, step (pos, s, c) q -> at_point k' q = Some x ->
     exists y, ma pos s c k' = Some y) ->
  (forall pos s c pos' s' c', step (pos, s, c) (pos', s', c') ->
     length s' < length s) ->
  forall p q x,
    iter1 step p q -> at_point k q = Some x ->
    forall n, length (snd (fst p)) <= n ->
    exists y, plus_loop ma k n (fst (fst p)) (snd (fst p)) (snd p) = Some y.
Proof.
  intros Hma Hshrink p q x Hiter.
  induction Hiter as [p q Hstep | p q q' Hstep Hiter IH]; intros Hk n Hn;
    destruct p as [[pos s] c]; simpl in *.
  - destruct n as [|n]; simpl.
    + exact (Hma _ _ _ _ _ _ Hstep Hk).
    + apply (Hma pos s c q
               (fun pos' s' c' =>
                  orelse (plus_loop ma k n pos' s' c') (k pos' s' c'))
               (match plus_loop ma k n (fst (fst q)) (snd (fst q)) (snd q) with
                | Some y => y | None => x end) Hstep).
      unfold at_point in *. rewrite Hk.
      destruct (plus_loop ma k n _ _ _); reflexivity.
  - destruct q as [[pos1 s1] c1].
    pose proof (Hshrink _ _ _ _ _ _ Hstep) as Hlt.
    destruct n as [|n]; [lia|]. simpl.
    destruct (IH Hk n) as [y Hy]; [simpl; lia|]. simpl in Hy.
    apply (Hma pos s c (pos1, s1, c1)
             (fun pos' s' c' =>
                orelse (plus_loop ma k n pos' s' c') (k pos' s' c')) y Hstep).
    unfold at_point. simpl. rewrite Hy. reflexivity.
Qed.

(** The matcher is complete: when the expression matches and the
    continuation succeeds after the match, the matcher finds a result
    (that of the first match in its order of search). *)
Lemma m_complete (r : re) :
  well_formed r = true ->
  forall pos s c q k x,
    matches r (pos, s, c) q -> at_point k q = Some x ->
    exists y, m r pos s c k = Some y.
Proof.
  induction r as [|a|cs| |a IHa b0 IHb|a IHa b0 IHb|a IHa|a IHa|i a IHa| |];
    simpl; intros Hwf pos s c q k x H Hk.
  - subst q. eauto.
  - destruct H as (v & s' & Hin & Hs & ->). simpl in Hs. subst s.
    exact (first_variant_complete _ _ _ _ _ _ _ Hin Hk).
  - destruct H as (b0 & s' & Hs & Hin & ->). simpl in Hs. subst s.
    assert (Hcs : existsb (Ascii.eqb b0) cs = true)
      by (apply existsb_exists; exists b0; split;
          [exact Hin | apply Ascii.eqb_refl]).
    rewrite Hcs. eauto.
  - destruct H as (b0 & s' & Hs & Hne & ->). simpl in Hs. subst s.
    destruct (Ascii.eqb_spec b0 newline) as [|_]; [contradiction|]. eauto.
  - apply andb_true_iff in Hwf. destruct Hwf as [Hwa Hwb].
    destruct H as ([[pos1 s1] c1] & Ha & Hb).
    destruct (IHb Hwb _ _ _ _ _ _ Hb Hk) as [y Hy].
    exact (IHa Hwa pos s c (pos1, s1, c1)
             (fun pos' s' c' => m b0 pos' s' c' k) y Ha Hy).
  - apply andb_true_iff in Hwf. destruct Hwf as [Hwa Hwb].
    destruct H as [H|H].
    + destruct (IHa Hwa _ _ _ _ _ _ H Hk) as [y Hy]. rewrite Hy. simpl. eauto.
    + destruct (IHb Hwb _ _ _ _ _ _ H Hk) as [y Hy]. rewrite Hy.
      destruct (m a pos s c k); simpl; eauto.
  - destruct H as [H|H].
    + destruct (IHa Hwf _ _ _ _ _ _ H Hk) as [y Hy]. rewrite Hy. simpl. eauto.
    + subst q. unfold at_point in Hk. simpl in Hk. rewrite Hk.
      destruct (m a pos s c k); simpl; eauto.
  - apply andb_true_iff in Hwf. destruct Hwf as [Hca Hwa].
    exact (plus_loop_complete (m a) (matches a) k
             (fun pos s c q k' x Hs Hq => IHa Hwa pos s c q k' x Hs Hq)
             (matches_shrinks a Hca)
             (pos, s, c) q x H Hk (length s) (le_n _)).
  - destruct H as ([[pos1 s1] c1] & Ha & ->).
    exact (IHa Hwf pos s c (pos1, s1, c1)
             (fun pos' s' c' => k pos' s' ((i, (pos, pos')) :: c')) x Ha Hk).
  - destruct H as (Hpos & ->). simpl in Hpos. subst pos. simpl. eauto.
  - destruct H as (Hs & ->). simpl in Hs. subst s. eauto.
Qed.

(** *** Literals up to case *)

Lemma eq_fold_nil (u : bytes) : eq_fold [] u = true <-> u = [].
Proof. destruct u; simpl; split; congruence. Qed.

Lemma eq_fold_cons (c : ascii) (tok u : bytes) :
  eq_fold (c :: tok) u = true <->
  exists v u', In v (fold_variants c) /\ u = v ++ u' /\ eq_fold tok u' = true.
Proof.
  simpl. rewrite existsb_exists. split.
  - intros (v & Hin & H). destruct (strip v u) as [u'|] eqn:Hs; [|discriminate].
    apply strip_spec in Hs. exists v, u'. auto.
  - intros (v & u' & Hin & -> & H). exists v. split; [exact Hin|].
    rewrite strip_app. exact H.
Qed.

Lemma eq_fold_app (t1 t2 u : bytes) :
  eq_fold (t1 ++ t2) u = true <->
  exists u1 u2, u = u1 ++ u2 /\ eq_fold t1 u1 = true /\ eq_fold t2 u2 = true.
Proof.
  revert u. induction t1 as [|c t1 IH]; intros u.
  - simpl app. split.
    + intros H. exists [], u. repeat split. exact H.
    + intros (u1 & u2 & -> & H1 & H2). apply eq_fold_nil in H1. subst u1.
      exact H2.
  - rewrite <- app_comm_cons, eq_fold_cons. split.
    + intros (v & u' & Hin & -> & H). apply IH in H.
      destruct H as (u1 & u2 & -> & H1 & H2).
      exists (v ++ u1), u2. rewrite <- app_assoc. repeat split; [|exact H2].
      apply eq_fold_cons. exists v, u1. auto.
    + intros (u1 & u2 & -> & H1 & H2). apply eq_fold_cons in H1.
      destruct H1 as (v & u1' & Hin & -> & H1).
      exists v, (u1' ++ u2). rewrite <- app_assoc. repeat split; [exact Hin|].
      apply IH. exists u1', u2. auto.
Qed.

Lemma eq_fold_caseless (c : ascii) (u : bytes) :
  caseless c = true -> (eq_fold [c] u = true <-> u = [c]).
Proof.
  unfold caseless. intros Hc. rewrite eq_fold_cons.
  destruct (fold_variants c) as [|[|c' [|? ?]] [|? ?]]; try discriminate.
  apply Ascii.eqb_eq in Hc. subst c'. split.
  - intros (v & u' & [<-|[]] & -> & H). apply eq_fold_nil in H. subst u'.
    reflexivity.
  - intros ->. exists [c], []. repeat split. left. reflexivity.
Qed.

(** A finite expression matches the strings equal, up to case, to one
    of its tokens; the submatches are left as they are. *)
Lemma matches_tokens (r : re) :
  finite r = true ->
  forall pos s c q,
    matches r (pos, s, c) q <->
    exists tok u s',
      In tok (tokens r) /\ eq_fold tok u = true /\ s = u ++ s' /\
      q = (pos + length u, s', c).
Proof.
  induction r as [|a|cs| |a IHa b0 IHb|a IHa b0 IHb|a IHa|a IHa|i a IHa| |];
    simpl; intros Hfin pos s c q; try discriminate.
  - split.
    + intros ->. exists [], [], s. repeat split; [left; reflexivity|].
      simpl. f_equal. f_equal. lia.
    + intros (tok & u & s' & [<-|[]] & Hu & -> & ->).
      apply eq_fold_nil in Hu. subst u. simpl. f_equal. f_equal. lia.
  - split.
    + intros (v & s' & Hin & -> & ->). exists [a], v, s'.
      repeat split; [left; reflexivity|].
      apply eq_fold_cons. exists v, []. rewrite app_nil_r. auto.
    + intros (tok & u & s' & [<-|[]] & Hu & -> & ->).
      apply eq_fold_cons in Hu. destruct Hu as (v & u' & Hin & -> & Hu').
      apply eq_fold_nil in Hu'. subst u'. rewrite app_nil_r.
      exists v, s'. auto.
  - rewrite forallb_forall in Hfin. split.
    + intros (b0 & s' & -> & Hin & ->). exists [b0], [b0], s'.
      repeat split.
      * apply in_map_iff. exists b0. auto.
      * apply eq_fold_caseless; [apply Hfin; exact Hin | reflexivity].
      * simpl. f_equal. f_equal. lia.
    + intros (tok & u & s' & Hin & Hu & -> & ->).
      apply in_map_iff in Hin. destruct Hin as (b0 & <- & Hin).
      apply eq_fold_caseless in Hu; [|apply Hfin; exact Hin]. subst u.
      exists b0, s'. repeat split; [exact Hin|].
      simpl. f_equal. f_equal. lia.
  - apply andb_true_iff in Hfin. destruct Hfin as [Hfa Hfb]. split.
    + intros ([[pos1 s1] c1] & Ha & Hb).
      apply (IHa Hfa) in Ha. destruct Ha as (t1 & u1 & s1' & Hin1 & Hu1 & -> & [= -> -> ->]).
      apply (IHb Hfb) in Hb. destruct Hb as (t2 & u2 & s2' & Hin2 & Hu2 & -> & ->).
      exists (t1 ++ t2), (u1 ++ u2), s2'. repeat split.
      * apply in_flat_map. exists t1. split; [exact Hin1|].
        apply in_map_iff. exists t2. auto.
      * apply eq_fold_app. exists u1, u2. auto.
      * rewrite <- app_assoc. reflexivity.
      * rewrite length_app. f_equal. f_equal. lia.
    + intros (tok & u & s' & Hin & Hu & -> & ->).
      apply in_flat_map in Hin. destruct Hin as (t1 & Hin1 & Hin).
      apply in_map_iff in Hin. destruct Hin as (t2 & <- & Hin2).
      apply eq_fold_app in Hu. destruct Hu as (u1 & u2 & -> & Hu1 & Hu2).
      exists (pos + length u1, u2 ++ s', c). split.
      * apply (IHa Hfa). exists t1, u1, (u2 ++ s').
        rewrite <- app_assoc. auto.
      * apply (IHb Hfb). exists t2, u2, s'. repeat split; try assumption.
        rewrite length_app. f_equal. f_equal. lia.
  - apply andb_true_iff in Hfin. destruct Hfin as [Hfa Hfb].
    rewrite (IHa Hfa), (IHb Hfb). split.
    + intros [(tok & u & s' & Hin & H)|(tok & u & s' & Hin & H)];
        exists tok, u, s'; (split; [apply in_or_app; auto | exact H]).
    + intros (tok & u & s' & Hin & H). apply in_app_or in Hin.
      destruct Hin as [Hin|Hin]; [left | right]; exists tok, u, s'; auto.
  - rewrite (IHa Hfin). split.
    + intros [(tok & u & s' & Hin & H) | ->].
      * exists tok, u, s'. split; [apply in_or_app; auto | exact H].
      * exists [], [], s. repeat split; [apply in_or_app; right; left; reflexivity|].
        simpl. f_equal. f_equal. lia.
    + intros (tok & u & s' & Hin & Hu & -> & ->). apply in_app_or in Hin.
      destruct Hin as [Hin | [<-|[]]].
      * left. exists tok, u, s'. auto.
      * right. apply eq_fold_nil in Hu. subst u. simpl. f_equal. f_equal. lia.
Qed.

(** [.+] matches the non-empty strings without a newline. *)
Lemma matches_plus_any (pos : nat) (s : bytes) (c : captures) (q : point) :
  matches (Plus AnyCharNotNL) (pos, s, c) q <->
  exists u s',
    u <> [] /\ forallb (fun a => negb (Ascii.eqb a newline)) u = true /\
    s = u ++ s' /\ q = (pos + length u, s', c).
Proof.
  simpl. split.
  - intros H. remember (pos, s, c) as p eqn:Hp. revert pos s c Hp.
    induction H as [p q (b0 & s' & Hs & Hne & ->)
                   | p q q' (b0 & s' & Hs & Hne & ->) Hiter IH];
      intros pos s c ->; simpl in *; subst s.
    + exists [b0], s'. repeat split; [discriminate | |simpl; f_equal; f_equal; lia].
      simpl. destruct (Ascii.eqb_spec b0 newline); [contradiction | reflexivity].
    + destruct (IH _ _ _ eq_refl) as (u & s'' & _ & Hu & -> & ->).
      exists (b0 :: u), s''. repeat split; [discriminate | |simpl; f_equal; f_equal; lia].
      simpl. rewrite Hu.
      destruct (Ascii.eqb_spec b0 newline); [contradiction | reflexivity].
  - intros (u & s' & Hne & Hu & -> & ->).
    revert pos Hne Hu. induction u as [|b0 u IH]; intros pos Hne Hu;
      [contradiction|].
    simpl in Hu. apply andb_true_iff in Hu. destruct Hu as [Hb Hu].
    assert (Hb0 : b0 <> newline)
      by (intros ->; rewrite Ascii.eqb_refl in Hb; discriminate).
    destruct u as [|b1 u].
    + apply iter1_once. exists b0, s'. repeat split; [exact Hb0|].
      simpl. f_equal. f_equal. lia.
    + apply iter1_more with (q := (S pos, (b1 :: u) ++ s', c)).
      * exists b0, ((b1 :: u) ++ s'). auto.
      * replace (pos + length (b0 :: b1 :: u)) with (S pos + length (b1 :: u))
          by (simpl; lia).
        apply IH; [discriminate | exact Hu].
Qed.

End RegexpProperties.

(** ** The endpoint parser *)
Section EndpointProperties.
Import Regexp Endpoint.

(** The scheme of [addrRX], its first group. *)
Definition scheme_re : re :=
  Alt (Cat (Alt (lit (b "tcp")) (Alt (lit (b "udp")) (lit (b "ip"))))
           (Quest (Class (b "46"))))
      (Cat (lit (b "unix"))
           (Quest (Alt (lit (b "gram")) (lit (b "packet"))))).

Lemma addrRX_shape :
  addrRX =
    Cat BeginText
      (Cat (Group 1 scheme_re)
         (Cat (lit (b "://")) (Cat (Group 2 (Plus AnyCharNotNL)) EndText))).
Proof. reflexivity. Qed.

Definition not_newline (a : ascii) : bool := negb (Ascii.eqb a newline).
Definition not_colon (a : ascii) : bool := negb (Ascii.eqb a ":").

(** [u] is a scheme token up to case. *)
Definition scheme_bytes (u : bytes) : Prop :=
  exists tok, In tok (tokens scheme_re) /\ eq_fold tok u = true.

(** The submatches of a match of [addrRX] on scheme [u1] and address
    [u3]. *)
Definition addr_captures (u1 u3 : bytes) : captures :=
  [(2, (length u1 + 3, length u1 + 3 + length u3)); (1, (0, length u1))].

Lemma eq_fold_exact (tok u : bytes) :
  forallb caseless tok = true -> (eq_fold tok u = true <-> u = tok).
Proof.
  revert u. induction tok as [|a tok IH]; intros u Hc.
  - apply eq_fold_nil.
  - simpl in Hc. apply andb_true_iff in Hc. destruct Hc as [Ha Htok].
    change (a :: tok) with ([a] ++ tok). rewrite eq_fold_app. split.
    + intros (u1 & u2 & -> & H1 & H2).
      apply (eq_fold_caseless a u1 Ha) in H1. apply (IH u2 Htok) in H2.
      subst. reflexivity.
    + intros ->. exists [a], tok. repeat split.
      * apply eq_fold_caseless; [exact Ha | reflexivity].
      * apply IH; [exact Htok | reflexivity].
Qed.

(** What [addrRX] matches from the start of a text. *)
Lemma matches_addrRX (s : bytes) (q : point) :
  matches addrRX (0, s, []) q <->
  exists u1 u3,
    scheme_bytes u1 /\ u3 <> [] /\ forallb not_newline u3 = true /\
    s = u1 ++ b "://" ++ u3 /\
    q = (length u1 + 3 + length u3, [], addr_captures u1 u3).
Proof.
  rewrite addrRX_shape. split.
  - intros (p1 & [_ ->] & p2 & (q1 & Hscheme & ->) & p3 & Hsep & p4
            & (q2 & Hany & ->) & Hend & ->).
    apply (matches_tokens scheme_re eq_refl) in Hscheme.
    destruct Hscheme as (tok & u1 & s1 & Hin & Hu1 & -> & ->).
    simpl in Hsep.
    apply (matches_tokens (lit (b "://")) eq_refl) in Hsep.
    destruct Hsep as (tok2 & u2 & s2 & [<-|[]] & Hu2 & -> & ->).
    apply (eq_fold_exact (b "://") u2 eq_refl) in Hu2. subst u2.
    simpl in Hany. apply matches_plus_any in Hany.
    destruct Hany as (u3 & s3 & Hne & Hnl & -> & ->).
    simpl in Hend. subst s3.
    exists u1, u3. repeat split; try assumption.
    + exists tok. auto.
    + rewrite app_nil_r. reflexivity.
  - intros (u1 & u3 & (tok & Hin & Hu1) & Hne & Hnl & -> & ->).
    exists (0, u1 ++ b "://" ++ u3, []). split; [split; reflexivity|].
    exists (length u1, b "://" ++ u3, [(1, (0, length u1))]). split.
    { exists (length u1, b "://" ++ u3, []). split; [|reflexivity].
      apply (matches_tokens scheme_re eq_refl).
      exists tok, u1, (b "://" ++ u3). auto. }
    exists (length u1 + 3, u3, [(1, (0, length u1))]). split.
    { apply (matches_tokens (lit (b "://")) eq_refl).
      exists (b "://"), (b "://"), u3. repeat split. left. reflexivity. }
    exists (length u1 + 3 + length u3, [],
            (2, (length u1 + 3, length u1 + 3 + length u3))
              :: [(1, (0, length u1))]).
    split; [|split; reflexivity].
    exists (length u1 + 3 + length u3, [], [(1, (0, length u1))]).
    split; [|reflexivity].
    apply matches_plus_any. exists u3, []. rewrite app_nil_r. auto.
Qed.

(** The pattern is anchored: no match starts after the first offset. *)
Lemma search_addrRX_later (s : bytes) (pos : nat) :
  search addrRX (S pos) s = None.
Proof.
  revert pos. induction s as [|a s IH]; intros pos.
  - reflexivity.
  - change (search addrRX (S pos) (a :: s))
      with (orelse (m addrRX (S pos) (a :: s) [] (fun _ _ c => Some c))
                   (search addrRX (S (S pos)) s)).
    rewrite IH. reflexivity.
Qed.

Lemma search_addrRX (s : bytes) :
  search addrRX 0 s = m addrRX 0 s [] (fun _ _ c => Some c).
Proof.
  destruct s as [|a s].
  - change (search addrRX 0 [])
      with (orelse (m addrRX 0 [] [] (fun _ _ c => Some c)) None).
    destruct (m addrRX 0 [] [] _); reflexivity.
  - change (search addrRX 0 (a :: s))
      with (orelse (m addrRX 0 (a :: s) [] (fun _ _ c => Some c))
                   (search addrRX 1 s)).
    rewrite search_addrRX_later.
    destruct (m addrRX 0 (a :: s) [] _); reflexivity.
Qed.

(** The characters of a string equal to a token up to case, when no
    variant of a character of the token has a colon. *)
Lemma eq_fold_not_colon (tok u : bytes) :
  forallb (fun c => forallb (forallb not_colon) (fold_variants c)) tok = true ->
  eq_fold tok u = true -> forallb not_colon u = true.
Proof.
  revert u. induction tok as [|c tok IH]; intros u Hc Hu.
  - apply eq_fold_nil in Hu. subst u. reflexivity.
  - simpl in Hc. apply andb_true_iff in Hc. destruct Hc as [Hv Htok].
    apply eq_fold_cons in Hu. destruct Hu as (v & u' & Hin & -> & Hu').
    rewrite forallb_app. rewrite forallb_forall in Hv.
    rewrite (Hv v Hin). exact (IH u' Htok Hu').
Qed.

Lemma scheme_bytes_not_colon (u : bytes) :
  scheme_bytes u -> forallb not_colon u = true.
Proof.
  intros (tok & Hin & Hu).
  assert (Hall : forallb
            (fun t => forallb (fun c => forallb (forallb not_colon)
                                          (fold_variants c)) t)
            (tokens scheme_re) = true) by reflexivity.
  rewrite forallb_forall in Hall.
  exact (eq_fold_not_colon tok u (Hall tok Hin) Hu).
Qed.

(** A text has one scheme only: the part before its first colon. *)
Lemma split_at_colon (u u' r r' : bytes) :
  forallb not_colon u = true -> forallb not_colon u' = true ->
  u ++ ":"%char :: r = u' ++ ":"%char :: r' -> u = u' /\ r = r'.
Proof.
  revert u'. induction u as [|a u IH]; intros [|a' u'] Hu Hu' Heq;
    simpl in *.
  - injection Heq as ->. auto.
  - injection Heq as <- _. discriminate.
  - injection Heq as -> _. discriminate.
  - injection Heq as -> Heq.
    apply andb_true_iff in Hu. apply andb_true_iff in Hu'.
    destruct (IH u' (proj2 Hu) (proj2 Hu') Heq) as [-> ->]. auto.
Qed.

Lemma submatches_addr (u1 u3 : bytes) :
  submatch (u1 ++ b "://" ++ u3) (addr_captures u1 u3) 1 = u1 /\
  submatch (u1 ++ b "://" ++ u3) (addr_captures u1 u3) 2 = u3.
Proof.
  unfold submatch, addr_captures. split.
  - change (group 1 _) with (Some (0, length u1)). cbv beta iota.
    rewrite Nat.sub_0_r, drop_0. apply take_app_length.
  - change (group 2 _)
      with (Some (length u1 + 3, length u1 + 3 + length u3)).
    cbv beta iota.
    replace (length u1 + 3) with (length (u1 ++ b "://"))
      by (rewrite length_app; reflexivity).
    rewrite (app_assoc u1 (b "://") u3), drop_app_length.
    replace (length (u1 ++ b "://") + length u3 - length (u1 ++ b "://"))
      with (length u3) by lia.
    apply firstn_all.
Qed.

(** [FindStringSubmatch] with [addrRX]: the scheme and the address of
    the text, when it has the form; nil otherwise. *)
Lemma FindStringSubmatch_addrRX (s m1 m2 : bytes) :
  FindStringSubmatch addrRX s = Some (m1, m2) <->
  scheme_bytes m1 /\ m2 <> [] /\ forallb not_newline m2 = true /\
  s = m1 ++ b "://" ++ m2.
Proof.
  unfold FindStringSubmatch. rewrite search_addrRX.
  assert (Hsound : forall caps,
    m addrRX 0 s [] (fun _ _ c => Some c) = Some caps ->
    exists u1 u3,
      scheme_bytes u1 /\ u3 <> [] /\ forallb not_newline u3 = true /\
      s = u1 ++ b "://" ++ u3 /\ caps = addr_captures u1 u3).
  { intros caps H. apply m_sound in H. destruct H as (q & Hq & Hk).
    apply matches_addrRX in Hq.
    destruct Hq as (u1 & u3 & H1 & H2 & H3 & H4 & ->).
    unfold at_point in Hk. simpl in Hk. injection Hk as <-.
    exists u1, u3. auto. }
  split.
  - destruct (m addrRX 0 s [] _) as [caps|] eqn:Hm; [|discriminate].
    destruct (Hsound caps eq_refl) as (u1 & u3 & H1 & H2 & H3 & -> & ->).
    destruct (submatches_addr u1 u3) as [-> ->].
    intros [= <- <-]. auto.
  - intros (H1 & H2 & H3 & ->).
    assert (Hmatch : matches addrRX (0, m1 ++ b "://" ++ m2, [])
                       (length m1 + 3 + length m2, [], addr_captures m1 m2))
      by (apply matches_addrRX; exists m1, m2; auto).
    destruct (m_complete addrRX eq_refl _ _ _ _ (fun _ _ c => Some c)
                (addr_captures m1 m2) Hmatch eq_refl) as [caps Hcaps].
    rewrite Hcaps.
    destruct (Hsound caps Hcaps) as (u1 & u3 & H1' & _ & _ & Heq & ->).
    destruct (split_at_colon m1 u1 (b "//" ++ m2) (b "//" ++ u3)
                (scheme_bytes_not_colon _ H1) (scheme_bytes_not_colon _ H1')
                Heq) as [<- Hrest].
    injection Hrest as <-.
    destruct (submatches_addr m1 m2) as [-> ->]. reflexivity.
Qed.

(** *** From bytes to strings *)

Lemma b_app (p q : string) : b (p +:+ q) = b p ++ b q.
Proof.
  unfold b. induction p as [|a p IH]; simpl; [reflexivity|].
  rewrite IH. reflexivity.
Qed.

Lemma b_inj (p q : string) : b p = b q -> p = q.
Proof.
  unfold b. intros H.
  rewrite <- (string_of_list_ascii_of_string p),
          <- (string_of_list_ascii_of_string q), H.
  reflexivity.
Qed.

(** The tokens of the scheme of [addrRX] are the scheme tokens of the
    specification. *)
Lemma tokens_scheme_re (t : bytes) :
  In t (tokens scheme_re) <-> In t (map b scheme_tokens).
Proof.
  cbv [tokens scheme_re lit b list_ascii_of_string flat_map map app
       scheme_tokens network_tokens local_socket_tokens String.append In].
  tauto.
Qed.

Lemma is_scheme_bytes (p : string) :
  is_scheme p = true <-> scheme_bytes (b p).
Proof.
  unfold is_scheme, scheme_bytes. rewrite existsb_exists. split.
  - intros (tok & Hin & H). exists (b tok). split; [|exact H].
    apply tokens_scheme_re. apply in_map. exact Hin.
  - intros (t & Hin & H). apply tokens_scheme_re in Hin.
    apply in_map_iff in Hin. destruct Hin as (tok & <- & Hin).
    exists tok. auto.
Qed.

(** C8, as amended. [parseProtoAddr] returns a pair (scheme, address)
    exactly when its input is scheme://address with a scheme that is,
    up to case, one of tcp, udp, ip (each optionally followed by 4 or
    6), unix, unixgram, unixpacket, and an address that is not empty
    and holds no newline; the pair is then that scheme and that
    address. On every other input it returns the error
    "invalid address: " followed by the input, and [main] given such an
    endpoint reports it and exits with status 1. *)
Theorem parseProtoAddr_spec (s : string) :
  (forall p a,
     parseProtoAddr s = inl (p, a) <->
     s = p +:+ "://" +:+ a /\ is_scheme p = true /\
     a <> ""%string /\ no_newline a = true) /\
  (forall e, parseProtoAddr s = inr e ->
     e = "invalid address: " +:+ s /\
     (s <> ""%string ->
      main s = Exit ("error: invalid endpoint: " +:+ s +:+ String newline "") 1)).
Proof.
  split.
  - intros p a. unfold parseProtoAddr. split.
    + destruct (FindStringSubmatch addrRX (b s)) as [[m1 m2]|] eqn:Hfind;
        [|discriminate].
      intros [= <- <-].
      apply FindStringSubmatch_addrRX in Hfind.
      destruct Hfind as (Hscheme & Hne & Hnl & Hs).
      repeat split.
      * apply b_inj. rewrite !b_app. unfold b at 2 4.
        rewrite !list_ascii_of_string_of_list_ascii. exact Hs.
      * apply is_scheme_bytes. unfold b.
        rewrite list_ascii_of_string_of_list_ascii. exact Hscheme.
      * intros Hempty. apply Hne.
        rewrite <- (list_ascii_of_string_of_list_ascii m2), Hempty.
        reflexivity.
      * unfold no_newline, b.
        rewrite list_ascii_of_string_of_list_ascii. exact Hnl.
    + intros (-> & Hscheme & Hne & Hnl).
      assert (Hfind : FindStringSubmatch addrRX (b (p +:+ "://" +:+ a))
                      = Some (b p, b a)).
      { apply FindStringSubmatch_addrRX. repeat split.
        - apply is_scheme_bytes. exact Hscheme.
        - intros Hempty. apply Hne. apply b_inj. exact Hempty.
        - exact Hnl.
        - rewrite !b_app. reflexivity. }
      rewrite Hfind. unfold b. rewrite !string_of_list_ascii_of_string.
      reflexivity.
  - intros e He. assert (Herr : e = "invalid address: " +:+ s).
    { unfold parseProtoAddr in He.
      destruct (FindStringSubmatch addrRX (b s)) as [[m1 m2]|];
        [discriminate | injection He as <-; reflexivity]. }
    split; [exact Herr|].
    intros Hne. unfold main.
    destruct (String.eqb_spec s "") as [|_]; [contradiction|].
    rewrite He. reflexivity.
Qed.

End EndpointProperties.

(** ** Concurrent first calls *)
Section OnceProperties.
Import Once.
Context {R : Type}.
Variable E : @Service.collaborators R.

(** The history the callers start from. *)
Variable h0 : list Service.event.

Definition queries (s : shared) : nat :=
  Service.version_queries (hist s).

(** The caller is inside [doSlow], between Lock and Unlock. *)
Definition critical (p : pc) : bool :=
  match p with
  | Locked | Dialing | Querying | Storing _ | Finishing _ | Unlocking _ => true
  | _ => false
  end.

(** [Do] has returned to the caller. *)
Definition returned (p : pc) : bool :=
  match p with Returned _ | Observed _ _ => true | _ => false end.

(** Every dial succeeds. *)
Definition dial_ok : Prop :=
  forall h, Service.grpc_DialContext E h = None.

(** The function of [Do] has run: at most one query was made, exactly
    one when dials succeed. *)
Definition ran (s : shared) : Prop :=
  queries s <= Service.version_queries h0 + 1 /\
  (dial_ok -> queries s = Service.version_queries h0 + 1).

(** The state of the flag and of the count of queries. *)
Definition settled (s : shared) : Prop :=
  if done s then ran s else queries s = Service.version_queries h0.

(** What holds of a caller. *)
Definition thread_inv (s : shared) (i : nat) (p : pc) : Prop :=
  (critical p = true -> mutex s = Some i) /\
  (returned p = true -> done s = true) /\
  (forall e vs, p = Observed e vs -> vs = versions s).

(** What holds of the holder of the mutex, by where it stands. *)
Definition holder_inv (s : shared) (p : pc) : Prop :=
  match p with
  | Locked => settled s
  | Dialing | Querying =>
      done s = false /\ queries s = Service.version_queries h0
  | Storing _ =>
      done s = false /\ queries s = Service.version_queries h0 + 1
  | Finishing _ => done s = false /\ ran s
  | Unlocking _ => done s = true /\ ran s
  | _ => False
  end.

Definition phase_inv (c : config) : Prop :=
  match mutex (sh c) with
  | None => settled (sh c)
  | Some h => exists p, threads c !! h = Some p /\ holder_inv (sh c) p
  end.

Definition Inv (c : config) : Prop :=
  (forall i p, threads c !! i = Some p -> thread_inv (sh c) i p) /\
  phase_inv c.

Lemma Inv_init (n : nat) : Inv (init h0 n).
Proof.
  split.
  - intros i p Hi. apply lookup_replicate in Hi. destruct Hi as [-> _].
    repeat split; try discriminate.
  - reflexivity.
Qed.

Lemma queries_dial (s : shared) :
  Service.version_queries (hist s ++ [Service.EvDial]) = queries s.
Proof. unfold queries. rewrite version_queries_app. simpl. lia. Qed.

Lemma queries_query (s : shared) :
  Service.version_queries (hist s ++ [Service.EvGetSupportedVersions])
  = queries s + 1.
Proof. unfold queries. rewrite version_queries_app. reflexivity. Qed.

(** The holder of the mutex is the only caller inside [doSlow]. *)
Lemma holder_unique (c : config) (i j : nat) (p pj : pc) :
  Inv c -> threads c !! i = Some p -> threads c !! j = Some pj ->
  critical p = true -> critical pj = true -> i = j.
Proof.
  intros [Hth _] Hi Hj Hp Hpj.
  destruct (Hth i p Hi) as [Hmi _]. destruct (Hth j pj Hj) as [Hmj _].
  specialize (Hmi Hp). specialize (Hmj Hpj). congruence.
Qed.

Lemma holder_state (c : config) (i : nat) (p : pc) :
  Inv c -> threads c !! i = Some p -> critical p = true ->
  holder_inv (sh c) p.
Proof.
  intros [Hth Hph] Hi Hp. destruct (Hth i p Hi) as [Hm _].
  specialize (Hm Hp). unfold phase_inv in Hph. rewrite Hm in Hph.
  destruct Hph as (p' & Hi' & Hh). congruence.
Qed.

(** The invariant after caller [i] has moved from [p] to [p'], the
    shared state becoming [s']. *)
Lemma Inv_move (c : config) (i : nat) (p p' : pc) (s' : shared) :
  Inv c -> threads c !! i = Some p ->
  thread_inv s' i p' ->
  (forall j pj, j <> i -> threads c !! j = Some pj ->
                thread_inv (sh c) j pj -> thread_inv s' j pj) ->
  match mutex s' with
  | None => settled s'
  | Some h =>
      (h = i /\ holder_inv s' p') \/
      (h <> i /\ exists pj, threads c !! h = Some pj /\ holder_inv s' pj)
  end ->
  Inv (mkConfig s' (<[i := p']> (threads c))).
Proof.
  intros [Hth Hph] Hi Hnew Hothers Hphase. split; simpl.
  - intros j pj Hj. destruct (decide (j = i)) as [->|Hne].
    + rewrite list_lookup_insert_eq in Hj by (eapply lookup_lt_Some; eauto).
      injection Hj as <-. exact Hnew.
    + rewrite list_lookup_insert_ne in Hj by auto.
      exact (Hothers j pj Hne Hj (Hth j pj Hj)).
  - unfold phase_inv. simpl. destruct (mutex s') as [h|]; [|exact Hphase].
    destruct Hphase as [[-> Hh] | [Hne (pj & Hj & Hh)]].
    + exists p'. split; [|exact Hh].
      apply list_lookup_insert_eq. eapply lookup_lt_Some; eauto.
    + exists pj. split; [|exact Hh].
      rewrite list_lookup_insert_ne by auto. exact Hj.
Qed.

(** A caller outside [doSlow] does not hold the mutex. *)
Lemma holder_other (c : config) (i h : nat) (p : pc) :
  Inv c -> threads c !! i = Some p -> critical p = false ->
  mutex (sh c) = Some h ->
  h <> i /\ exists pj, threads c !! h = Some pj /\ holder_inv (sh c) pj.
Proof.
  intros [Hth Hph] Hi Hp Hm. unfold phase_inv in Hph. rewrite Hm in Hph.
  destruct Hph as (pj & Hj & Hh). split; [|eauto].
  intros ->. rewrite Hi in Hj. injection Hj as <-.
  destruct p; simpl in *; try discriminate; contradiction.
Qed.

(** Every step keeps the invariant. *)
Lemma Inv_step (c : config) (i : nat) : Inv c -> Inv (step E i c).
Proof.
  intros HI. unfold step.
  destruct (threads c !! i) as [p|] eqn:Hi; [|exact HI].
  destruct (step_thread E i p (sh c)) as [[p' s']|] eqn:Hstep; [|exact HI].
  pose proof HI as [Hth Hph].
  pose proof (Hth i p Hi) as (Hcrit & Hret & Hobs).
  destruct p as [| | | | |vs|e|e|e|e vs]; simpl in Hstep.
  - (* Start *)
    injection Hstep as <- <-.
    apply (Inv_move c i Start _ _ HI Hi).
    + destruct (done (sh c)) eqn:Hd; repeat split; try discriminate; auto.
    + intros j pj _ _ H. exact H.
    + destruct (mutex (sh c)) as [h|] eqn:Hm.
      * right. exact (holder_other c i h Start HI Hi eq_refl Hm).
      * unfold phase_inv in Hph. rewrite Hm in Hph. exact Hph.
  - (* Locking *)
    destruct (mutex (sh c)) as [h|] eqn:Hm; [discriminate|].
    injection Hstep as <- <-.
    apply (Inv_move c i Locking _ _ HI Hi).
    + repeat split; simpl; try discriminate.
    + intros j pj Hne Hj (Hc & Hr & Ho). repeat split; simpl; auto.
      intros Hcj. specialize (Hc Hcj). congruence.
    + simpl. left. split; [reflexivity|]. simpl.
      unfold phase_inv in Hph. rewrite Hm in Hph. exact Hph.
  - (* Locked *)
    specialize (Hcrit eq_refl).
    pose proof (holder_state c i Locked HI Hi eq_refl) as Hh. simpl in Hh.
    injection Hstep as <- <-.
    apply (Inv_move c i Locked _ _ HI Hi).
    + unfold settled in Hh.
      destruct (done (sh c)) eqn:Hd; repeat split; try discriminate; auto.
    + intros j pj _ _ H. exact H.
    + rewrite Hcrit. left. split; [reflexivity|].
      unfold settled in Hh. destruct (done (sh c)) eqn:Hd; simpl; auto.
  - (* Dialing *)
    specialize (Hcrit eq_refl).
    pose proof (holder_state c i Dialing HI Hi eq_refl) as [Hd Hq].
    injection Hstep as <- <-.
    apply (Inv_move c i Dialing _ _ HI Hi).
    + destruct (Service.grpc_DialContext E (hist (sh c)));
        repeat split; simpl; try discriminate; auto.
    + intros j pj _ _ H. exact H.
    + simpl. rewrite Hcrit. left. split; [reflexivity|].
      destruct (Service.grpc_DialContext E (hist (sh c))) as [e|] eqn:Hdial;
        simpl; unfold ran, queries; simpl; rewrite queries_dial.
      * split; [exact Hd|]. split; [lia|].
        intros Hok. rewrite (Hok (hist (sh c))) in Hdial. discriminate.
      * auto.
  - (* Querying *)
    specialize (Hcrit eq_refl).
    pose proof (holder_state c i Querying HI Hi eq_refl) as [Hd Hq].
    injection Hstep as <- <-.
    apply (Inv_move c i Querying _ _ HI Hi).
    + destruct (Service.supported_of E _);
        repeat split; simpl; try discriminate; auto.
    + intros j pj _ _ H. exact H.
    + simpl. rewrite Hcrit. left. split; [reflexivity|].
      destruct (Service.supported_of E _); simpl;
        unfold ran, queries; simpl; rewrite queries_query;
        repeat split; auto; lia.
  - (* Storing *)
    specialize (Hcrit eq_refl).
    pose proof (holder_state c i (Storing vs) HI Hi eq_refl) as [Hd Hq].
    injection Hstep as <- <-.
    apply (Inv_move c i (Storing vs) _ _ HI Hi).
    + repeat split; simpl; try discriminate; auto.
    + intros j pj _ _ (Hc & Hr & Ho). repeat split; simpl; auto.
      intros e vs' ->. specialize (Hr eq_refl). congruence.
    + simpl. rewrite Hcrit. left. split; [reflexivity|]. simpl.
      unfold ran, queries in *. simpl. split; [exact Hd|]. split; lia.
  - (* Finishing *)
    specialize (Hcrit eq_refl).
    pose proof (holder_state c i (Finishing e) HI Hi eq_refl) as [Hd Hran].
    injection Hstep as <- <-.
    apply (Inv_move c i (Finishing e) _ _ HI Hi).
    + repeat split; simpl; try discriminate; auto.
    + intros j pj _ _ (Hc & Hr & Ho). repeat split; simpl; auto.
    + simpl. rewrite Hcrit. left. split; [reflexivity|]. simpl.
      split; [reflexivity | exact Hran].
  - (* Unlocking *)
    specialize (Hcrit eq_refl).
    pose proof (holder_state c i (Unlocking e) HI Hi eq_refl) as [Hd Hran].
    injection Hstep as <- <-.
    apply (Inv_move c i (Unlocking e) _ _ HI Hi).
    + repeat split; simpl; try discriminate; auto.
    + intros j pj Hne Hj (Hc & Hr & Ho). repeat split; simpl; auto.
      intros Hcj. specialize (Hc Hcj). congruence.
    + simpl. unfold settled. simpl. rewrite Hd. exact Hran.
  - (* Returned *)
    specialize (Hret eq_refl).
    injection Hstep as <- <-.
    apply (Inv_move c i (Returned e) _ _ HI Hi).
    + repeat split; simpl; try discriminate; auto.
      intros e' vs [= _ <-]. reflexivity.
    + intros j pj _ _ H. exact H.
    + destruct (mutex (sh c)) as [h|] eqn:Hm.
      * right. exact (holder_other c i h (Returned e) HI Hi eq_refl Hm).
      * unfold phase_inv in Hph. rewrite Hm in Hph. exact Hph.
  - (* Observed *)
    discriminate.
Qed.






(** No deadlock: while a caller has not finished, some caller can
    move. *)
Lemma progress (c : config) :
  Inv c -> all_finished c = false -> exists i, enabled E i c = true.
Proof.
  intros [Hth Hph] Hfin. unfold phase_inv in Hph.
  destruct (mutex (sh c)) as [h|] eqn:Hm.
  - destruct Hph as (p & Hp & Hh). exists h. unfold enabled. rewrite Hp.
    destruct p; simpl in Hh; try contradiction; reflexivity.
  - unfold all_finished in Hfin.
    assert (Hex : exists p, In p (threads c) /\ finished p = false).
    { clear - Hfin. induction (threads c) as [|p ts IH]; [discriminate|].
      simpl in Hfin. destruct (finished p) eqn:Hp.
      - destruct (IH Hfin) as (q & Hin & Hq). exists q. split; [right|]; auto.
      - exists p. split; [left; reflexivity | exact Hp]. }
    destruct Hex as (p & Hin & Hp).
    apply list_elem_of_In in Hin. apply list_elem_of_lookup_1 in Hin.
    destruct Hin as [i Hi]. exists i. unfold enabled. rewrite Hi.
    destruct (Hth i p Hi) as (Hc & _ & _).
    destruct p; simpl in *; try reflexivity; try discriminate;
      try (specialize (Hc eq_refl); congruence).
    rewrite Hm. reflexivity.
Qed.

(** The number of steps a caller has left, at most. *)
Definition rank (p : pc) : nat :=
  match p with
  | Start => 9 | Locking => 8 | Locked => 7 | Dialing => 6 | Querying => 5
  | Storing _ => 4 | Finishing _ => 3 | Unlocking _ => 2 | Returned _ => 1
  | Observed _ _ => 0
  end.

Definition measure (c : config) : nat :=
  list_sum (map rank (threads c)).

Lemma list_sum_insert (ts : list pc) (i : nat) (p p' : pc) :
  ts !! i = Some p -> rank p' < rank p ->
  list_sum (map rank (<[i := p']> ts)) < list_sum (map rank ts).
Proof.
  revert i. induction ts as [|q ts IH]; intros [|i] Hi Hlt; simpl in *;
    try discriminate.
  - injection Hi as ->. lia.
  - specialize (IH i Hi Hlt). lia.
Qed.

Lemma step_thread_rank (i : nat) (p p' : pc) (s s' : shared) :
  step_thread E i p s = Some (p', s') -> rank p' < rank p.
Proof.
  destruct p; simpl; try discriminate.
  - intros [= <- _]. destruct (done s); simpl; lia.
  - destruct (mutex s); [discriminate|]. intros [= <- _]. simpl. lia.
  - intros [= <- _]. destruct (done s); simpl; lia.
  - intros [= <- _]. destruct (Service.grpc_DialContext E (hist s)); simpl; lia.
  - intros [= <- _]. destruct (Service.supported_of E _); simpl; lia.
  - intros [= <- _]. simpl. lia.
  - intros [= <- _]. simpl. lia.
  - intros [= <- _]. simpl. lia.
  - intros [= <- _]. simpl. lia.
Qed.

Lemma step_measure (c : config) (i : nat) :
  enabled E i c = true -> measure (step E i c) < measure c.
Proof.
  unfold enabled, step, measure.
  destruct (threads c !! i) as [p|] eqn:Hi; [|discriminate].
  destruct (step_thread E i p (sh c)) as [[p' s']|] eqn:Hstep;
    [|discriminate].
  intros _. simpl. apply (list_sum_insert _ _ p p' Hi).
  exact (step_thread_rank _ _ _ _ _ Hstep).
Qed.

(** Every state the callers can be in has a schedule that lets all of
    them finish. *)
Lemma completes (c : config) :
  Inv c -> exists sched, all_finished (run E sched c) = true.
Proof.
  remember (measure c) as k eqn:Hk. revert c Hk.
  induction k as [k IH] using lt_wf_ind. intros c -> HI.
  destruct (all_finished c) eqn:Hfin.
  - exists []. exact Hfin.
  - destruct (progress c HI Hfin) as [i Hen].
    destruct (IH (measure (step E i c)) (step_measure c i Hen)
                 (step E i c) eq_refl (Inv_step c i HI)) as [sched Hs].
    exists (i :: sched). exact Hs.
Qed.

(** Any number of callers can all finish. *)
Lemma callers_complete (n : nat) :
  exists sched, all_finished (run E sched (init h0 n)) = true.
Proof. apply completes. apply Inv_init. Qed.

Lemma step_solo (p p' : pc) (s s' : shared) :
  step_thread E 0 p s = Some (p', s') ->
  step E 0 (mkConfig s [p]) = mkConfig s' [p'].
Proof. unfold step. simpl. intros ->. reflexivity. Qed.

Ltac solo_step :=
  match goal with
  | |- context [step ?E0 0 (mkConfig ?s [?p])] =>
      let r := eval cbn in (step_thread E0 0 p s) in
      lazymatch r with
      | Some (?p', ?s') => rewrite (step_solo p p' s s' eq_refl)
      end
  end.

(** X9. One caller alone leaves the cache, the flag and the history as
    [initSupportedVersionsOnce] does, and returns its error. *)
Lemma single_caller (t name : string) :
  let w := Service.mkWorld (Service.mkService t name [] false) h0 in
  let c := run E [0; 0; 0; 0; 0; 0; 0; 0; 0] (init h0 1) in
  threads c =
    [Observed (fst (Service.initSupportedVersionsOnce E w))
       (Service.versions (Service.svc (snd (Service.initSupportedVersionsOnce E w))))]
  /\ versions (sh c)
     = Service.versions (Service.svc (snd (Service.initSupportedVersionsOnce E w)))
  /\ done (sh c)
     = Service.versionsOnce (Service.svc (snd (Service.initSupportedVersionsOnce E w)))
  /\ hist (sh c) = Service.hist (snd (Service.initSupportedVersionsOnce E w)).
Proof.
  cbv zeta.
  unfold Service.initSupportedVersionsOnce, Service.initSupportedVersions,
    Service.bind, Service.ret, Service.dialIdentity, Service.dial,
    Service.client_GetSupportedVersions_call, Service.set_versions,
    Service.set_versionsOnce.
  cbn [Service.svc Service.hist Service.versionsOnce Service.versions
       Service.serviceType Service.serviceName run].
  change (init h0 1) with (mkConfig (mkShared false None [] h0) [Start]).
  do 4 solo_step.
  destruct (Service.grpc_DialContext E h0) as [e|].
  - do 3 solo_step. unfold step. simpl. repeat split.
  - solo_step.
    cbn [Service.svc Service.hist Service.versionsOnce Service.versions
         Service.serviceType Service.serviceName].
    destruct (Service.supported_of E
                (Service.client_GetSupportedVersions E (h0 ++ [Service.EvDial])))
      as [vs|e].
    + do 4 solo_step. repeat split.
    + do 3 solo_step. unfold step. simpl. repeat split.
Qed.

End OnceProperties.

(** ** The service wrapper: delegation and the life of the cache *)
Section ServiceDelegation.
Import Service.
Context {R : Type}.
Variable E : @collaborators R.

(** Initialising the cache leaves the names of the Service alone, and
    the flag is set afterwards. *)
Lemma initSupportedVersionsOnce_svc (w : world) :
  serviceName (svc (snd (initSupportedVersionsOnce E w)))
    = serviceName (svc w) /\
  serviceType (svc (snd (initSupportedVersionsOnce E w)))
    = serviceType (svc w) /\
  versionsOnce (svc (snd (initSupportedVersionsOnce E w))) = true.
Proof.
  unfold initSupportedVersionsOnce.
  destruct (versionsOnce (svc w)) eqn:Hdone; [simpl; auto|].
  unfold bind, initSupportedVersions, bind, dialIdentity, dial, ret,
    client_GetSupportedVersions_call, set_versions, set_versionsOnce.
  destruct (grpc_DialContext E (hist w)); simpl; [auto|].
  destruct (supported_of E _); simpl; auto.
Qed.

(** On an initialised cache, initialising again does nothing. *)
Lemma initSupportedVersionsOnce_done (w : world) :
  versionsOnce (svc w) = true ->
  initSupportedVersionsOnce E w = (None, w).
Proof.
  intros Hdone. unfold initSupportedVersionsOnce. rewrite Hdone. reflexivity.
Qed.

(** What is left of a wrapper after the version check changes the
    history only. *)
Lemma after_version_check_svc (c : call) (w : world) :
  svc (snd (after_version_check E c w)) = svc w /\
  version_queries (hist (snd (after_version_check E c w)))
    = version_queries (hist w).
Proof.
  assert (Hf : svc (snd (forward E c w)) = svc w /\
               version_queries (hist (snd (forward E c w)))
                 = version_queries (hist w)).
  { unfold forward. simpl. rewrite version_queries_app. simpl.
    split; [reflexivity | lia]. }
  destruct c; simpl; try exact Hf.
  destruct (Nat.eqb (len (Name req)) 0); [split; reflexivity | exact Hf].
Qed.

(** A call served on an initialised cache leaves the Service as it is
    and asks the provider for no version. *)
Lemma serve_call_initialised (c : call) (w : world) :
  versionsOnce (svc w) = true ->
  svc (snd (serve_call E c w)) = svc w /\
  version_queries (hist (snd (serve_call E c w))) = version_queries (hist w).
Proof.
  intros Hdone. rewrite serve_call_gate.
  assert (Hd : version_queries (hist (dialled w)) = version_queries (hist w))
    by (unfold dialled; simpl; rewrite version_queries_app; simpl; lia).
  assert (Hrest :
    let r := match grpc_DialContext E (hist w) with
             | Some e => ((None, Some e), dialled w)
             | None =>
                 let (v, w') := chkReqVersion E (GetVersion c) (dialled w) in
                 if negb (Nat.eqb (len v) 0) then
                   ((Some (ErrUnsupportedVersion c v), None), w')
                 else after_version_check E c w'
             end in
    svc (snd r) = svc w /\
    version_queries (hist (snd r)) = version_queries (hist w)).
  { cbv zeta. destruct (grpc_DialContext E (hist w));
      [split; [reflexivity | exact Hd]|].
    rewrite chkReqVersion_cached by exact Hdone.
    destruct (negb (Nat.eqb (len _) 0)); [split; [reflexivity | exact Hd]|].
    destruct (after_version_check_svc c (dialled w)) as [H1 H2].
    split; [exact H1 | rewrite <- Hd; exact H2]. }
  cbv zeta in Hrest. unfold gate.
  destruct (checked_VolumeId c) as [[idObj|]|]; simpl.
  - destruct (Nat.eqb (size (Values idObj)) 0);
      [split; reflexivity | exact Hrest].
  - split; reflexivity.
  - exact Hrest.
Qed.

(** On an initialised cache the wrapper answers [GetSupportedVersions]
    from the cache, without any interaction. *)
Lemma GetSupportedVersions_initialised (w : world) :
  versionsOnce (svc w) = true ->
  GetSupportedVersions E w = ((Some (GSV_Result (versions (svc w))), None), w).
Proof.
  intros Hdone. unfold GetSupportedVersions, bind.
  rewrite initSupportedVersionsOnce_done by exact Hdone. reflexivity.
Qed.

(** The version check leaves the world as the initialisation of the
    cache leaves it. *)
Lemma chkReqVersion_world (rv : option Version) (w : world) :
  snd (chkReqVersion E rv w) = snd (initSupportedVersionsOnce E w).
Proof.
  unfold chkReqVersion, bind.
  destruct (initSupportedVersionsOnce E w) as [[e|] w']; simpl;
    [reflexivity|].
  destruct rv as [v|]; [|reflexivity].
  destruct (version_supported v _); reflexivity.
Qed.

(** No call changes the name or the type of the Service that serves
    it. *)
Lemma serve_call_names (c : call) (w : world) :
  serviceName (svc (snd (serve_call E c w))) = serviceName (svc w) /\
  serviceType (svc (snd (serve_call E c w))) = serviceType (svc w).
Proof.
  rewrite serve_call_gate.
  assert (Hrest :
    let r := match grpc_DialContext E (hist w) with
             | Some e => ((None, Some e), dialled w)
             | None =>
                 let (v, w') := chkReqVersion E (GetVersion c) (dialled w) in
                 if negb (Nat.eqb (len v) 0) then
                   ((Some (ErrUnsupportedVersion c v), None), w')
                 else after_version_check E c w'
             end in
    serviceName (svc (snd r)) = serviceName (svc w) /\
    serviceType (svc (snd r)) = serviceType (svc w)).
  { cbv zeta. destruct (grpc_DialContext E (hist w)); [split; reflexivity|].
    pose proof (chkReqVersion_world (GetVersion c) (dialled w)) as Hw.
    pose proof (initSupportedVersionsOnce_svc (dialled w)) as (Hn & Ht & _).
    destruct (chkReqVersion E (GetVersion c) (dialled w)) as [v w'].
    simpl in Hw. subst w'.
    destruct (negb (Nat.eqb (len v) 0)); [split; assumption|].
    destruct (after_version_check_svc c
                (snd (initSupportedVersionsOnce E (dialled w)))) as [Hs _].
    split; [etransitivity; [exact (f_equal serviceName Hs) | exact Hn]
           | etransitivity; [exact (f_equal serviceType Hs) | exact Ht]]. }
  cbv zeta in Hrest. unfold gate.
  destruct (checked_VolumeId c) as [[idObj|]|]; simpl.
  - destruct (Nat.eqb (size (Values idObj)) 0);
      [split; reflexivity | exact Hrest].
  - split; reflexivity.
  - exact Hrest.
Qed.

(** X1. A call that passes the checks of its wrapper is handed to the
    provider as it is, once, and the provider's answer (response and
    error) is returned unchanged: the identifier check passes, the dial
    succeeds, the cache holds the version of the request and, for
    CreateVolume, the name is not empty. *)
Theorem serve_call_delegates (c : call) (w : world) (rv : Version) :
  id_present c = true ->
  grpc_DialContext E (hist w) = None ->
  GetVersion c = Some rv ->
  cache_holds E rv (dialled w) ->
  (forall req, c = CallCreateVolume req -> Name req <> ""%string) ->
  let w' := snd (initSupportedVersionsOnce E (dialled w)) in
  serve_call E c w =
    (client_call E (hist w') c, mkWorld (svc w') (hist w' ++ [EvForward c])) /\
  forwarded (hist (snd (serve_call E c w))) = forwarded (hist w) + 1.
Proof.
  intros Hid Hdial Hrv Hsup Hname w'.
  assert (Heq : serve_call E c w =
    (client_call E (hist w') c, mkWorld (svc w') (hist w' ++ [EvForward c]))).
  { rewrite serve_call_gate, gate_id_present by exact Hid.
    rewrite Hdial, Hrv, (chkReqVersion_supported E rv (dialled w) Hsup).
    simpl. fold w'.
    destruct c; try reflexivity. simpl.
    specialize (Hname req eq_refl).
    destruct (Name req); [contradiction | reflexivity]. }
  split; [exact Heq|]. rewrite Heq. simpl.
  rewrite forwarded_app. unfold w'.
  rewrite initSupportedVersionsOnce_forwarded.
  unfold dialled. simpl. rewrite forwarded_app. simpl. lia.
Qed.

(** X5. Once the cache has been initialised, no sequence of calls
    changes it or asks the provider for its versions again: the Service
    (names, cache and flag) stays as it is and the history gains no
    version query. *)
Theorem initialised_cache_is_frozen (cs : list (option call)) (w : world) :
  versionsOnce (svc w) = true ->
  svc (serve_calls E cs w) = svc w /\
  version_queries (hist (serve_calls E cs w)) = version_queries (hist w).
Proof.
  revert w. induction cs as [|[c|] cs IH]; intros w Hdone; simpl.
  - split; reflexivity.
  - destruct (serve_call_initialised c w Hdone) as [Hs Hq].
    destruct (IH (snd (serve_call E c w))) as [Hs' Hq'].
    + rewrite Hs. exact Hdone.
    + rewrite Hs', Hq', Hs, Hq. split; reflexivity.
  - rewrite GetSupportedVersions_initialised by exact Hdone. simpl.
    apply IH. exact Hdone.
Qed.

(** X4. A failed initialisation is reported once and never tried again:
    when the first initialisation of the cache returns an error, the
    flag is set all the same and the cache keeps what it held (nothing,
    on a new Service); from then on the initialisation returns no error
    and touches nothing, and [GetSupportedVersions] answers with the
    versions of that cache and no error. *)
Theorem failed_initialisation_is_not_retried (w : world) (e : error) :
  versionsOnce (svc w) = false ->
  fst (initSupportedVersionsOnce E w) = Some e ->
  let w' := snd (initSupportedVersionsOnce E w) in
  versionsOnce (svc w') = true /\
  versions (svc w') = versions (svc w) /\
  initSupportedVersionsOnce E w' = (None, w') /\
  GetSupportedVersions E w' =
    ((Some (GSV_Result (versions (svc w))), None), w').
Proof.
  intros Hfresh Herr w'.
  assert (Hdone : versionsOnce (svc w') = true)
    by exact (proj2 (proj2 (initSupportedVersionsOnce_svc w))).
  assert (Hvs : versions (svc w') = versions (svc w)).
  { unfold w'. revert Herr. unfold initSupportedVersionsOnce.
    rewrite Hfresh.
    unfold bind, initSupportedVersions, bind, dialIdentity, dial, ret,
      client_GetSupportedVersions_call, set_versions, set_versionsOnce.
    destruct (grpc_DialContext E (hist w)); simpl; [reflexivity|].
    destruct (supported_of E _); simpl; [discriminate | reflexivity]. }
  split; [exact Hdone|]. split; [exact Hvs|]. split.
  - apply initSupportedVersionsOnce_done. exact Hdone.
  - rewrite GetSupportedVersions_initialised by exact Hdone.
    rewrite Hvs. reflexivity.
Qed.

(** X7. The versions the wrapper lists are the versions it accepts: when
    [GetSupportedVersions] answers with a list, the version check of
    every later request passes exactly for the versions of that list;
    and the call itself is not forwarded to the provider. *)
Theorem listed_versions_are_accepted (w : world) (vs : list Version) :
  fst (GetSupportedVersions E w) = (Some (GSV_Result vs), None) ->
  let w' := snd (GetSupportedVersions E w) in
  (forall rv, fst (chkReqVersion E (Some rv) w') = ""%string <-> In rv vs) /\
  (forall rv, snd (chkReqVersion E (Some rv) w') = w') /\
  forwarded (hist w') = forwarded (hist w).
Proof.
  intros Hans w'.
  pose proof (initSupportedVersionsOnce_svc w) as (_ & _ & Hdone).
  pose proof (initSupportedVersionsOnce_forwarded E w) as Hfwd.
  assert (Hw' : versionsOnce (svc w') = true /\ versions (svc w') = vs /\
                forwarded (hist w') = forwarded (hist w)).
  { unfold w'. revert Hans. unfold GetSupportedVersions, bind.
    destruct (initSupportedVersionsOnce E w) as [[e|] w1]; simpl in *;
      [discriminate|].
    intros [= <-]. auto. }
  destruct Hw' as (Hd & Hv & Hf).
  split; [|split; [|exact Hf]].
  - intros rv. rewrite chkReqVersion_cached by exact Hd. simpl.
    rewrite <- version_supported_In, Hv.
    destruct (version_supported rv vs); split; try reflexivity;
      discriminate.
  - intros rv. rewrite chkReqVersion_cached by exact Hd. reflexivity.
Qed.

(** X2. The ways out of a wrapper before the version check. A call whose
    volume identifier is missing, or has an empty value map, is answered
    with code 3 in a response and leaves the Service untouched: the
    provider is not even dialled. A call that passes this check and
    whose dial fails returns the error of the dial with a nil response;
    the dial is all that has happened, the cache is not initialised and
    nothing is forwarded. *)
Theorem serve_call_early_exits (c : call) (w : world) :
  (id_present c = false ->
   exists msg,
     serve_call E c w = ((Some (ErrMissingId c msg), None), w) /\
     (msg = "missing id obj"%string \/ msg = "missing id map"%string)) /\
  (forall e, id_present c = true ->
     grpc_DialContext E (hist w) = Some e ->
     serve_call E c w = ((None, Some e), dialled w)).
Proof.
  split.
  - intros Hid. rewrite serve_call_gate. unfold id_present in Hid.
    unfold gate. destruct (checked_VolumeId c) as [[idObj|]|];
      [| |discriminate].
    + destruct (Nat.eqb (size (Values idObj)) 0); [|discriminate].
      eexists. split; [reflexivity | right; reflexivity].
    + eexists. split; [reflexivity | left; reflexivity].
  - intros e Hid Hdial.
    rewrite serve_call_gate, gate_id_present by exact Hid.
    rewrite Hdial. reflexivity.
Qed.

(** X3. An error of the initialisation is answered as an unsupported
    version. When the cache is initialised in the course of a call and
    the initialisation fails (the second dial fails, or the provider
    does not tell its versions), the text of the error becomes the
    message of an unsupported-version error, code 2, returned in a
    response with a nil error; the call is not forwarded; and the cache
    counts as initialised from then on. *)
Theorem initialisation_error_is_answered_as_unsupported
  (c : call) (w : world) (e : error) :
  id_present c = true ->
  grpc_DialContext E (hist w) = None ->
  fst (initSupportedVersionsOnce E (dialled w)) = Some e ->
  e <> ""%string ->
  let w' := snd (initSupportedVersionsOnce E (dialled w)) in
  serve_call E c w = ((Some (ErrUnsupportedVersion c e), None), w') /\
  forwarded (hist w') = forwarded (hist w) /\
  versionsOnce (svc w') = true.
Proof.
  intros Hid Hdial Hinit He w'.
  split; [|split].
  - rewrite serve_call_gate, gate_id_present by exact Hid.
    rewrite Hdial. unfold chkReqVersion, bind. fold w'.
    destruct (initSupportedVersionsOnce E (dialled w)) as [err w1] eqn:Hi.
    simpl in Hinit. subst err. simpl.
    destruct e as [|a e]; [contradiction | reflexivity].
  - unfold w'. rewrite initSupportedVersionsOnce_forwarded.
    unfold dialled. simpl. rewrite forwarded_app. simpl. lia.
  - exact (proj2 (proj2 (initSupportedVersionsOnce_svc (dialled w)))).
Qed.

End ServiceDelegation.

(** ** The routing server: what a call and what [Serve] leave behind *)
Section ServerIsolation.
Import Server.
Context {R : Type}.
Variable EqualFold : string -> string -> bool.
Variable P : platform.

(** The loop of [svcFromCtx] reads the names of the Services only. *)
Lemma find_service_names (tag : string) (i : nat)
  (l1 l2 : list (@Server.Service R)) :
  map Name l1 = map Name l2 ->
  find_service EqualFold tag i l1 = find_service EqualFold tag i l2.
Proof.
  revert i l2. induction l1 as [|a l1 IH]; intros i [|a' l2] Hmap;
    simpl in *; try discriminate; [reflexivity|].
  injection Hmap as Ha Hrest. rewrite Ha.
  destruct (EqualFold tag (Name a')); [reflexivity | apply IH; exact Hrest].
Qed.

Lemma map_Name_insert (l : list (@Server.Service R)) (i : nat)
  (svc svc' : @Server.Service R) :
  l !! i = Some svc -> Name svc' = Name svc ->
  map Name (<[i := svc']> l) = map Name l.
Proof.
  revert i. induction l as [|a l IH]; intros [|i] Hi Hn; simpl in *;
    try discriminate.
  - injection Hi as ->. rewrite Hn. reflexivity.
  - f_equal. apply IH; assumption.
Qed.

(** X11. A call changes nothing of the server but the state of the one
    Service it is routed to: the address, the gRPC server and the
    cleanup actions are as before, every other Service is untouched, the
    Services keep their names, and every later call is routed as it
    would have been before. *)
Theorem dispatch_changes_one_service
  (s s' : @Server.Server R) (ctx : context) (c : Service.call)
  (o : @Service.outcome R) :
  dispatch EqualFold s ctx c = Some (o, s') ->
  Addr s' = Addr s /\ g s' = g s /\ x s' = x s /\
  (exists i, svcFromCtx EqualFold s ctx = Some i /\
             forall j, j <> i -> Services s' !! j = Services s !! j) /\
  map Name (Services s') = map Name (Services s) /\
  (forall ctx', svcFromCtx EqualFold s' ctx' = svcFromCtx EqualFold s ctx').
Proof.
  unfold dispatch.
  destruct (svcFromCtx EqualFold s ctx) as [i|] eqn:Hroute; [|discriminate].
  destruct (Services s !! i) as [svc|] eqn:Hsvc; [|discriminate].
  pose proof (serve_call_names (sp svc) c (state svc)) as [Hname _].
  destruct (Service.serve_call (sp svc) c (state svc)) as [o' w'].
  simpl in Hname. intros [= <- <-]. simpl.
  assert (Hnames : map Name (<[i := mkServiceEntry (sp svc) w']> (Services s))
                   = map Name (Services s))
    by (apply (map_Name_insert _ _ svc); [exact Hsvc | exact Hname]).
  split; [reflexivity|]. split; [reflexivity|]. split; [reflexivity|].
  split; [|split; [exact Hnames|]].
  - exists i. split; [reflexivity|]. intros j Hj.
    apply list_lookup_insert_ne. congruence.
  - intros ctx'. unfold svcFromCtx. simpl.
    destruct (routing_tag ctx') as [n0|];
      [rewrite (find_service_names n0 0 _ (Services s) Hnames);
       destruct (find_service EqualFold n0 0 (Services s)); [reflexivity|]|];
      (destruct (Services s) as [|a l];
         [rewrite lookup_nil in Hsvc; discriminate | destruct i; reflexivity]).
Qed.

(** X13. [Serve] on a listener goes through: the gRPC server is created,
    the address becomes the network and the address of the listener
    joined by ":/", and a later [Stop] runs the cleanup actions
    registered before and then, exactly when the network of the listener
    is "unix", the removal of the socket file. *)
Theorem Stop_after_Serve_removes_unix_socket
  (s : @Server.Server R) (l : Listener) :
  Services s <> [] ->
  let s' := snd (fst (Serve P s (Some l))) in
  Addr s' = Network l +:+ ":/" +:+ String_ l /\
  Stop s' =
    (flat_map service_Stop (Services s) ++ [EvGrpcStop]
       ++ map EvCleanup (x s)
       ++ (if String.eqb (Network l) "unix"
           then [EvCleanup (RemoveAll (String_ l))] else []),
     Returned).
Proof.
  intros Hsome. unfold Serve.
  destruct (Services s) as [|svc rest] eqn:Hs; [congruence|].
  simpl. unfold Stop, Serve_on. simpl. rewrite Hs.
  split; [reflexivity|]. unfold run_cleanups.
  destruct (String.eqb (Network l) "unix"); simpl.
  - rewrite map_app. reflexivity.
  - rewrite app_nil_r. reflexivity.
Qed.

(** The gRPC server is created in the trace [t]. *)
Definition creates_server (t : list effect) : bool :=
  existsb (fun e => match e with EvNewServer => true | _ => false end) t.

(** The Services are started in the trace [t]. *)
Definition starts_services (t : list effect) : bool :=
  existsb (fun e => match e with EvGoServeServices _ => true | _ => false end)
    t.

(** A listener is parsed or bound in the trace [t]. *)
Definition binds_listener (t : list effect) : bool :=
  existsb (fun e => match e with
                    | EvParseProtoAddr _ | EvListen _ _ => true
                    | _ => false
                    end) t.

(** X12. [Serve] fails whole or goes through whole. Either it returns
    before anything is set up: the server is as it was, no gRPC server
    is created and no Service is started. Or it serves on a listener:
    the gRPC server is created, all the Services are started under their
    names, the Services are kept, and the error is the one the gRPC
    server returns when it stops serving. A listener passed in is used
    as it is: no address is parsed and no listener bound. *)
Theorem Serve_all_or_nothing (s : @Server.Server R) (l : option Listener) :
  let '(e, s', t) := Serve P s l in
  ((s' = s /\ creates_server t = false /\ starts_services t = false) \/
   (exists lis,
      g s' = true /\ Services s' = Services s /\
      e = grpc_Serve P lis /\
      In (EvGoServeServices (map Name (Services s))) t /\
      last t = Some (EvGrpcServe lis) /\
      (forall l0, l = Some l0 -> lis = l0))) /\
  (l <> None -> binds_listener t = false).
Proof.
  unfold Serve.
  destruct (Nat.eqb (length (Services s)) 0).
  { split; [left; auto | reflexivity]. }
  destruct l as [l0|].
  - unfold Serve_on. split; [|reflexivity]. right. exists l0.
    simpl. repeat split; auto 10.
    intros l1 [= ->]. reflexivity.
  - destruct (ParseProtoAddr P (Addr s)) as [[p a]|err];
      [|split; [left; auto | congruence]].
    destruct (net_Listen P p a) as [lis|err];
      [|split; [left; auto | congruence]].
    unfold Serve_on. split; [|congruence]. right. exists lis.
    simpl. repeat split; auto 10.
    intros l1 [=].
Qed.

End ServerIsolation.

(** ** Making a Service *)
Section RegistryProperties.
Import Registry.
Context {R : Type}.
Variable EqualFold : string -> string -> bool.
Variable P : platform.

(** The loop of [NewService] on a list of entries with distinct keys,
    of which only [k] equals the requested type up to case. *)
Lemma NewService_range_unique (entries : list (string * @ctor R))
  (k serviceType serviceName : string) (v : @ctor R) :
  NoDup (map fst entries) ->
  In (k, v) entries ->
  EqualFold k serviceType = true ->
  (forall k' v', In (k', v') entries ->
                 EqualFold k' serviceType = true -> k' = k) ->
  NewService_range EqualFold P entries serviceType serviceName =
    match v with
    | inl sp =>
        inl (Server.mkServiceEntry sp
               (Service.mkWorld
                  (Service.mkService k serviceName [] false) []))
    | inr T => inr ("invalid service provider type: " +:+ T)
    end.
Proof.
  induction entries as [|[k0 v0] rest IH]; intros Hnd Hin Hk Huniq.
  - destruct Hin.
  - simpl. simpl in Hnd. apply NoDup_cons in Hnd. destruct Hnd as [Hk0 Hnd].
    destruct (EqualFold k0 serviceType) eqn:Hm.
    + assert (k0 = k) by (apply (Huniq k0 v0); [left; reflexivity | exact Hm]).
      subst k0. destruct Hin as [Heq|Hin].
      * injection Heq as ->. reflexivity.
      * exfalso. apply Hk0. apply list_elem_of_In.
        apply (in_map fst) in Hin. exact Hin.
    + destruct Hin as [Heq|Hin]; [injection Heq as -> ->; congruence|].
      apply IH; try assumption.
      intros k' v' Hin'. apply (Huniq k' v'). right. exact Hin'.
Qed.

(** X10. [NewService] looks the provider type up without regard to case,
    and the Service it makes carries the registered spelling of the
    type, the requested name and an empty version cache. When the
    plug-ins load and exactly one registered type equals the requested
    one up to case, the answer is the same in whatever order the
    registry is ranged over: the Service made from that type's
    constructor, or the invalid-type error when what it constructs is no
    ServiceProvider. When no registered type matches, the answer is
    [ErrInvalidProvider]; when the plug-ins fail to load, their error. *)
Theorem NewService_by_type
  (registry : gmap string (@ctor R)) (entries : list (string * @ctor R))
  (serviceType serviceName : string) :
  entries ≡ₚ map_to_list registry ->
  (forall err, LoadGoPlugins P = Some err ->
     NewService EqualFold P entries serviceType serviceName = inr err) /\
  (LoadGoPlugins P = None ->
   (forall k, is_Some (registry !! k) ->
              EqualFold k serviceType = false) ->
   NewService EqualFold P entries serviceType serviceName
     = inr (ErrInvalidProvider P)) /\
  (forall k v,
     LoadGoPlugins P = None ->
     registry !! k = Some v ->
     EqualFold k serviceType = true ->
     (forall k', is_Some (registry !! k') ->
                 EqualFold k' serviceType = true -> k' = k) ->
     NewService EqualFold P entries serviceType serviceName =
       match v with
       | inl sp =>
           inl (Server.mkServiceEntry sp
                  (Service.mkWorld
                     (Service.mkService k serviceName [] false) []))
       | inr T => inr ("invalid service provider type: " +:+ T)
       end).
Proof.
  intros Hperm.
  assert (Hin : forall k v, In (k, v) entries <-> registry !! k = Some v).
  { intros k v. rewrite <- list_elem_of_In, Hperm.
    apply elem_of_map_to_list. }
  split; [|split].
  - intros err Hload. unfold NewService. rewrite Hload. reflexivity.
  - intros Hload Hnone. unfold NewService. rewrite Hload.
    assert (Hall : forall k v, In (k, v) entries ->
                               EqualFold k serviceType = false).
    { intros k v Hkv. apply Hnone. exists v. apply Hin. exact Hkv. }
    clear - Hall. induction entries as [|[k v] rest IH]; [reflexivity|].
    simpl. rewrite (Hall k v (or_introl eq_refl)).
    apply IH. intros k' v' Hin'. apply (Hall k' v'). right. exact Hin'.
  - intros k v Hload Hk Hm Huniq. unfold NewService. rewrite Hload.
    apply NewService_range_unique.
    + rewrite Hperm. apply NoDup_fst_map_to_list.
    + apply Hin. exact Hk.
    + exact Hm.
    + intros k' v' Hin' Hm'. apply Huniq; [|exact Hm'].
      exists v'. apply Hin. exact Hin'.
Qed.

End RegistryProperties.

(** ** The client's start *)
Section MainProperties.
Import Regexp Endpoint.

(** X14. [main] dials the address part of its endpoint and nothing else:
    for every scheme the parser accepts (tcp, udp, ip, each optionally
    followed by 4 or 6, unix, unixgram, unixpacket, in any case) the
    scheme is dropped, so that the endpoint of a local socket and the
    endpoint of a network address with the same text after "://" are
    dialled alike. Without CSI_ENDPOINT the address is 127.0.0.1:8080. *)
Theorem main_dials_the_address (p a : string) :
  is_scheme p = true ->
  a <> ""%string ->
  no_newline a = true ->
  main (p +:+ "://" +:+ a) = DialContext a /\
  main "" = DialContext "127.0.0.1:8080".
Proof.
  intros Hscheme Hne Hnl. split; [|reflexivity].
  assert (Hfind : FindStringSubmatch addrRX (b (p +:+ "://" +:+ a))
                  = Some (b p, b a)).
  { apply FindStringSubmatch_addrRX. repeat split.
    - apply is_scheme_bytes. exact Hscheme.
    - intros Hempty. apply Hne. apply b_inj. exact Hempty.
    - exact Hnl.
    - rewrite !b_app. reflexivity. }
  unfold main.
  destruct (String.eqb_spec (p +:+ "://" +:+ a) "") as [Hempty|_].
  - exfalso. apply (f_equal b) in Hempty. rewrite !b_app in Hempty.
    apply (f_equal (@length ascii)) in Hempty.
    rewrite !length_app in Hempty. simpl in Hempty. lia.
  - unfold parseProtoAddr. rewrite Hfind. unfold b.
    rewrite !string_of_list_ascii_of_string. reflexivity.
Qed.

End MainProperties.

(** ** Callers of [initSupportedVersionsOnce]: no caller is left
       waiting *)
Section OnceLiveness.
Import Once.
Context {R : Type}.
Variable E : @Service.collaborators R.
Variable h0 : list Service.event.







End OnceLiveness.

(** ** The mock provider: life cycle *)
Section LifecycleProperties.
Import MocLifecycle.

Lemma created_app (t1 t2 : list effect) :
  created (t1 ++ t2) = created t1 + created t2.
Proof.
  induction t1 as [|e t1 IH]; simpl; [reflexivity|].
  destruct e; simpl; rewrite IH; reflexivity.
Qed.

Lemma stopped_app (t1 t2 : list effect) :
  stopped (t1 ++ t2) = stopped t1 + stopped t2.
Proof.
  induction t1 as [|e t1 IH]; simpl; [reflexivity|].
  destruct e; simpl; rewrite IH; reflexivity.
Qed.

(** A provider that has been stopped does nothing any more. *)
Lemma run_closed (os : list op) (srv : bool) :
  run os (mkSp srv true) = (mkSp srv true, []).
Proof.
  induction os as [|o os IH]; simpl; [reflexivity|].
  destruct o; simpl; rewrite IH; reflexivity.
Qed.

(** A provider that serves creates no other server and is stopped at
    most once. *)
Lemma run_serving (os : list op) :
  created (snd (run os (mkSp true false))) = 0 /\
  stopped (snd (run os (mkSp true false))) <= 1 /\
  (stopped (snd (run os (mkSp true false))) = 1 ->
   fst (run os (mkSp true false)) = mkSp false true).
Proof.
  induction os as [|o os IH]; simpl; [repeat split; lia|].
  destruct o; simpl.
  - destruct (run os (mkSp true false)) as [s t]. exact IH.
  - rewrite run_closed. simpl. repeat split; lia.
  - rewrite run_closed. simpl. repeat split; lia.
Qed.

(** X15. Whatever is called on a new provider, in whatever order, it
    creates at most one gRPC server and stops it at most once, and only
    a server it has created. Once it has been stopped it stays closed
    without a server, and [Serve] is refused from then on, with the
    error "the server has been started". *)
Theorem provider_serves_once (os : list op) :
  let '(s, t) := run os (mkSp false false) in
  created t <= 1 /\ stopped t <= created t /\
  (stopped t = 1 ->
   s = mkSp false true /\
   Serve_enter s = (Some errServerStarted, s, [])).
Proof.
  induction os as [|o os IH]; simpl; [repeat split; lia|].
  destruct o; simpl.
  - pose proof (run_serving os) as (Hc & Hs & Hst).
    destruct (run os (mkSp true false)) as [s t]. simpl in *.
    rewrite Hc. repeat split; try lia.
    + rewrite (Hst H). reflexivity.
    + rewrite (Hst H). reflexivity.
  - destruct (run os (mkSp false false)) as [s t]. exact IH.
  - destruct (run os (mkSp false false)) as [s t]. exact IH.
Qed.

End LifecycleProperties.

(** ** Decimal numbers: printing and parsing *)
Section DecimalProperties.
Import strconv.

(** The number a decimal stands for, read from the left after
    [acc]. *)
Fixpoint uint_value (d : Decimal.uint) (acc : N) : N :=
  match d with
  | Decimal.Nil => acc
  | Decimal.D0 d => uint_value d (acc * 10)
  | Decimal.D1 d => uint_value d (acc * 10 + 1)
  | Decimal.D2 d => uint_value d (acc * 10 + 2)
  | Decimal.D3 d => uint_value d (acc * 10 + 3)
  | Decimal.D4 d => uint_value d (acc * 10 + 4)
  | Decimal.D5 d => uint_value d (acc * 10 + 5)
  | Decimal.D6 d => uint_value d (acc * 10 + 6)
  | Decimal.D7 d => uint_value d (acc * 10 + 7)
  | Decimal.D8 d => uint_value d (acc * 10 + 8)
  | Decimal.D9 d => uint_value d (acc * 10 + 9)
  end%N.

Lemma digits_string_of_uint (d : Decimal.uint) (acc : N) :
  digits (NilEmpty.string_of_uint d) acc = Some (uint_value d acc).
Proof.
  revert acc. induction d; intros acc; simpl; try apply IHd;
    try reflexivity.
  rewrite <- IHd. f_equal. lia.
Qed.

Lemma uint_value_of_lu (d : Decimal.uint) (acc : N) :
  uint_value d acc =
    (DecimalPos.Unsigned.of_lu (Decimal.rev d)
     + acc * 10 ^ DecimalPos.Unsigned.usize d)%N.
Proof.
  revert acc. unfold Decimal.rev.
  induction d; intros acc; simpl uint_value;
    [simpl; lia | ..];
    rewrite IHd; simpl Decimal.revapp;
    rewrite (DecimalPos.Unsigned.of_lu_revapp d (_ Decimal.Nil));
    unfold Decimal.rev; simpl DecimalPos.Unsigned.of_lu;
    simpl DecimalPos.Unsigned.usize; rewrite N.pow_succ_r'; lia.
Qed.

(** Parsing what [%d] prints gives the number back. *)
Lemma digits_fmt_d (n : N) : digits (fmt_d n) 0 = Some n.
Proof.
  unfold fmt_d, NilZero.string_of_uint.
  assert (H : digits (NilEmpty.string_of_uint (N.to_uint n)) 0 = Some n).
  { rewrite digits_string_of_uint, uint_value_of_lu.
    rewrite <- DecimalPos.Unsigned.of_uint_alt.
    change (Pos.of_uint (N.to_uint n)) with (N.of_uint (N.to_uint n)).
    rewrite DecimalN.Unsigned.of_to. f_equal. lia. }
  destruct (N.to_uint n) eqn:Hd; exact H.
Qed.

Lemma fmt_d_inj (m n : N) : fmt_d m = fmt_d n -> m = n.
Proof.
  intros H. pose proof (digits_fmt_d m) as Hm. rewrite H, digits_fmt_d in Hm.
  congruence.
Qed.

Lemma fmt_d_not_empty (n : N) : fmt_d n <> ""%string.
Proof.
  unfold fmt_d, NilZero.string_of_uint.
  destruct (N.to_uint n); simpl; discriminate.
Qed.

Lemma ParseUint32_fmt_d (n : N) :
  (n <= MaxUint32)%N -> ParseUint32 (fmt_d n) = Some n.
Proof.
  intros Hn. unfold ParseUint32. rewrite digits_fmt_d.
  destruct (fmt_d n) eqn:Hs; [exfalso; exact (fmt_d_not_empty n Hs)|].
  destruct (N.leb_spec n MaxUint32); [reflexivity | lia].
Qed.

End DecimalProperties.

(** ** The mock provider: the catalog under the other operations *)
Section MocOpsProperties.
Import Moc MocOps.
Variable EqualFold : string -> string -> bool.

(** *** Looking volumes up *)

(** Whether a volume matches depends on its identifier only. *)
Lemma field_matches_Id (field val : string) (v w : VolumeInfo) :
  Id v = Id w ->
  field_matches EqualFold field val v = field_matches EqualFold field val w.
Proof. unfold field_matches. intros ->. reflexivity. Qed.

(** The search finds the same place in two lists of volumes with the
    same identifiers. *)
Lemma findVol_from_Ids (x : nat) (field val : string)
  (vs ws : list VolumeInfo) :
  Id <$> vs = Id <$> ws ->
  findVol_from EqualFold x field val ws =
    match findVol_from EqualFold x field val vs with
    | Some (y, _) =>
        match ws !! (y - x) with
        | Some w => Some (y, w)
        | None => None
        end
    | None => None
    end.
Proof.
  revert x ws. induction vs as [|v vs IH]; intros x [|w ws] Hids;
    try discriminate; [reflexivity|].
  injection Hids as Hv Hrest.
  rewrite !findVol_from_step, (field_matches_Id field val w v)
    by (symmetry; exact Hv).
  destruct (field_matches EqualFold field val v).
  - rewrite Nat.sub_diag. reflexivity.
  - rewrite (IH (S x) ws Hrest).
    destruct (findVol_from EqualFold (S x) field val vs) as [[y v']|] eqn:Hf;
      [|reflexivity].
    apply findVol_from_Some in Hf. destruct Hf as (k & -> & _).
    replace (S x + k - S x) with k by lia.
    replace (S x + k - x) with (S k) by lia. reflexivity.
Qed.

(** What the search returns is in the catalog, at the place
    returned. *)
Lemma findVol_lookup (field val : string) (st : catalog)
  (x : nat) (v : VolumeInfo) :
  findVol EqualFold field val st = Some (x, v) ->
  vols st !! x = Some v /\ field_matches EqualFold field val v = true.
Proof.
  unfold findVol. intros Hf. apply findVol_from_Some in Hf.
  destruct Hf as (k & -> & Hk & Hm & _). auto.
Qed.

(** *** Changing the metadata of a volume *)

Lemma set_metadata_found (x : nat) (md : gmap string string)
  (st : catalog) (v : VolumeInfo) :
  vols st !! x = Some v ->
  set_metadata x md st =
    mkCatalog (nextVolID st)
      (<[x := mkVolumeInfo (Id v) md (CapacityBytes v)]> (vols st)).
Proof. unfold set_metadata. intros ->. reflexivity. Qed.

Lemma set_metadata_Ids (x : nat) (md : gmap string string) (st : catalog) :
  Id <$> vols (set_metadata x md st) = Id <$> vols st /\
  nextVolID (set_metadata x md st) = nextVolID st.
Proof.
  unfold set_metadata. destruct (vols st !! x) as [v|] eqn:Hx;
    [|split; reflexivity].
  simpl. split; [|reflexivity].
  rewrite list_fmap_insert. simpl. apply list_insert_id.
  rewrite list_lookup_fmap, Hx. reflexivity.
Qed.

(** Writing back the metadata a volume has changes nothing. *)
Lemma set_metadata_same (x : nat) (st : catalog) (v : VolumeInfo) :
  vols st !! x = Some v -> set_metadata x (Metadata v) st = st.
Proof.
  intros Hx. rewrite (set_metadata_found x _ st v Hx).
  destruct st as [n vs]. simpl in *. f_equal.
  apply list_insert_id. rewrite Hx. destruct v; reflexivity.
Qed.

(** The metadata written last is the metadata kept. *)
Lemma set_metadata_twice (x : nat) (md md' : gmap string string)
  (st : catalog) :
  set_metadata x md' (set_metadata x md st) = set_metadata x md' st.
Proof.
  unfold set_metadata at 2 3.
  destruct (vols st !! x) as [v|] eqn:Hx.
  - unfold set_metadata. simpl.
    rewrite list_lookup_insert_eq by (apply lookup_lt_Some in Hx; exact Hx).
    simpl. rewrite list_insert_insert_eq. reflexivity.
  - unfold set_metadata. rewrite Hx. reflexivity.
Qed.

(** The search after a change of metadata: the same place, with the
    volume as it is now. *)
Lemma findVol_set_metadata (field val : string) (x : nat)
  (md : gmap string string) (st : catalog) (v : VolumeInfo) :
  findVol EqualFold field val st = Some (x, v) ->
  findVol EqualFold field val (set_metadata x md st) =
    Some (x, mkVolumeInfo (Id v) md (CapacityBytes v)).
Proof.
  intros Hf. destruct (findVol_lookup _ _ _ _ _ Hf) as [Hx _].
  unfold findVol in *.
  rewrite (findVol_from_Ids 0 field val (vols st))
    by (symmetry; apply set_metadata_Ids).
  rewrite Hf, Nat.sub_0_r, (set_metadata_found x md st v Hx). simpl.
  rewrite list_lookup_insert_eq by (apply lookup_lt_Some in Hx; exact Hx).
  reflexivity.
Qed.

(** *** Attaching and detaching *)

(** X22. Publishing a volume to a node twice gives the same answer
    twice, whatever the clock shows the second time, and the second call
    leaves the catalog as the first left it: a volume that is attached
    keeps its device path, and a refused request is refused again. *)
Theorem ControllerPublishVolume_idempotent
  (now1 now2 : Z) (req : AttachRequest) (st : catalog) :
  ControllerPublishVolume EqualFold now2 req
    (snd (ControllerPublishVolume EqualFold now1 req st))
  = ControllerPublishVolume EqualFold now1 req st.
Proof.
  unfold ControllerPublishVolume.
  destruct (att_VolumeId req) as [idObj|]; [|reflexivity].
  destruct (Nat.eqb (size (Values idObj)) 0); [reflexivity|].
  destruct (Values idObj !! "id") as [id|]; [|reflexivity].
  destruct (att_NodeId req) as [nid|]; [|reflexivity].
  destruct (Nat.eqb (size (node_Values nid)) 0); [reflexivity|].
  destruct (node_Values nid !! "id") as [nidid|]; [|reflexivity].
  cbv zeta.
  destruct (findVol EqualFold "id" id st) as [[x v]|] eqn:Hf.
  - destruct (Metadata v !! ("devpath." +:+ nidid)) as [p|] eqn:Hp.
    + simpl. rewrite Hf, Hp. reflexivity.
    + simpl. rewrite (findVol_set_metadata _ _ _ _ _ _ Hf). simpl.
      rewrite lookup_insert_eq. reflexivity.
  - simpl. rewrite Hf. reflexivity.
Qed.

(** X23. Unpublishing undoes publishing. After a volume has been
    published to a node, unpublishing it from that node leaves the
    catalog as unpublishing alone would have left it, and succeeds
    whenever the publishing did; so a volume that was not attached to
    the node before (unpublishing would have been refused with code 8)
    is back in the catalog exactly as it was. *)
Theorem ControllerUnpublishVolume_undoes_publish
  (now : Z) (req : AttachRequest) (st : catalog) :
  let st1 := snd (ControllerPublishVolume EqualFold now req st) in
  snd (ControllerUnpublishVolume EqualFold req st1)
    = snd (ControllerUnpublishVolume EqualFold req st) /\
  (forall r,
     fst (ControllerPublishVolume EqualFold now req st)
       = (Some (Result r), None) ->
     fst (ControllerUnpublishVolume EqualFold req st1)
       = (Some (Result EmptyResult), None)) /\
  (fst (ControllerUnpublishVolume EqualFold req st)
     = (Some (ErrControllerUnpublishVolume 8 "not attached"), None) ->
   snd (ControllerUnpublishVolume EqualFold req st1) = st).
Proof.
  unfold ControllerPublishVolume, ControllerUnpublishVolume.
  destruct (att_VolumeId req) as [idObj|];
    [|repeat split; try reflexivity; discriminate].
  destruct (Nat.eqb (size (Values idObj)) 0);
    [repeat split; try reflexivity; discriminate|].
  destruct (Values idObj !! "id") as [id|];
    [|repeat split; try reflexivity; discriminate].
  destruct (att_NodeId req) as [nid|];
    [|repeat split; try reflexivity; discriminate].
  destruct (Nat.eqb (size (node_Values nid)) 0);
    [repeat split; try reflexivity; discriminate|].
  destruct (node_Values nid !! "id") as [nidid|];
    [|repeat split; try reflexivity; discriminate].
  cbv zeta.
  destruct (findVol EqualFold "id" id st) as [[x v]|] eqn:Hf.
  - destruct (findVol_lookup _ _ _ _ _ Hf) as [Hx _].
    destruct (Metadata v !! ("devpath." +:+ nidid)) as [p|] eqn:Hp.
    + simpl. rewrite Hf, Hp. simpl.
      repeat split; try reflexivity; discriminate.
    + simpl. rewrite (findVol_set_metadata _ _ _ _ _ _ Hf). simpl.
      rewrite lookup_insert_eq. simpl.
      rewrite set_metadata_twice, delete_insert_id by exact Hp.
      rewrite (set_metadata_same _ _ _ Hx). repeat split; reflexivity.
  - simpl. rewrite Hf. simpl. repeat split; try reflexivity; discriminate.
Qed.

(** X24. Unpublishing is refused the second time: once a volume has been
    unpublished from a node, unpublishing it again from that node is
    answered with code 8, "not attached", and changes nothing. *)
Theorem ControllerUnpublishVolume_twice
  (req : AttachRequest) (st : catalog) :
  fst (ControllerUnpublishVolume EqualFold req st)
    = (Some (Result EmptyResult), None) ->
  ControllerUnpublishVolume EqualFold req
    (snd (ControllerUnpublishVolume EqualFold req st))
  = ((Some (ErrControllerUnpublishVolume 8 "not attached"), None),
     snd (ControllerUnpublishVolume EqualFold req st)).
Proof.
  unfold ControllerUnpublishVolume.
  destruct (att_VolumeId req) as [idObj|]; [|discriminate].
  destruct (Nat.eqb (size (Values idObj)) 0); [discriminate|].
  destruct (Values idObj !! "id") as [id|]; [|discriminate].
  destruct (att_NodeId req) as [nid|]; [|discriminate].
  destruct (Nat.eqb (size (node_Values nid)) 0); [discriminate|].
  destruct (node_Values nid !! "id") as [nidid|]; [|discriminate].
  cbv zeta.
  destruct (findVol EqualFold "id" id st) as [[x v]|] eqn:Hf; [|discriminate].
  destruct (Metadata v !! ("devpath." +:+ nidid)) as [p|] eqn:Hp;
    [|discriminate].
  intros _. simpl. rewrite (findVol_set_metadata _ _ _ _ _ _ Hf). simpl.
  rewrite lookup_delete_eq. reflexivity.
Qed.

(** The search after a change of metadata at any place. *)
Lemma findVol_set_metadata_any (field val : string) (x : nat)
  (md : gmap string string) (st : catalog) :
  findVol EqualFold field val (set_metadata x md st) =
    match findVol EqualFold field val st with
    | Some (y, v) =>
        Some (y, if decide (y = x)
                 then mkVolumeInfo (Id v) md (CapacityBytes v) else v)
    | None => None
    end.
Proof.
  destruct (findVol EqualFold field val st) as [[y v]|] eqn:Hf.
  - destruct (findVol_lookup _ _ _ _ _ Hf) as [Hy _].
    destruct (decide (y = x)) as [->|Hne].
    + apply findVol_set_metadata. exact Hf.
    + unfold findVol in *.
      rewrite (findVol_from_Ids 0 field val (vols st))
        by (symmetry; apply set_metadata_Ids).
      rewrite Hf, Nat.sub_0_r. unfold set_metadata.
      destruct (vols st !! x) as [w|]; simpl.
      * rewrite list_lookup_insert_ne by congruence. rewrite Hy.
        reflexivity.
      * rewrite Hy. reflexivity.
  - unfold findVol in *.
    rewrite (findVol_from_Ids 0 field val (vols st))
      by (symmetry; apply set_metadata_Ids).
    rewrite Hf. reflexivity.
Qed.

Lemma devpath_key_inj (a b : string) :
  "devpath." +:+ a = "devpath." +:+ b -> a = b.
Proof. simpl. intros [= H]. exact H. Qed.

(** X25. Attachments to different nodes do not touch one another: what
    ControllerPublishVolume answers for one node is the same before and
    after any volume has been published to, or unpublished from, another
    node. *)
Theorem ControllerPublishVolume_nodes_independent
  (now now' : Z) (reqA reqB : AttachRequest) (nidA nidB : NodeID)
  (a b : string) (st : catalog) :
  att_NodeId reqA = Some nidA -> node_Values nidA !! "id" = Some a ->
  att_NodeId reqB = Some nidB -> node_Values nidB !! "id" = Some b ->
  a <> b ->
  fst (ControllerPublishVolume EqualFold now' reqA
         (snd (ControllerPublishVolume EqualFold now reqB st)))
    = fst (ControllerPublishVolume EqualFold now' reqA st) /\
  fst (ControllerPublishVolume EqualFold now' reqA
         (snd (ControllerUnpublishVolume EqualFold reqB st)))
    = fst (ControllerPublishVolume EqualFold now' reqA st).
Proof.
  intros HA Ha HB Hb Hab.
  assert (Hkey : "devpath." +:+ b <> "devpath." +:+ a)
    by (intros H; apply devpath_key_inj in H; congruence).
  assert (Hstep : forall x md w,
            vols st !! x = Some w ->
            md !! ("devpath." +:+ a) = Metadata w !! ("devpath." +:+ a) ->
            fst (ControllerPublishVolume EqualFold now' reqA
                   (set_metadata x md st))
            = fst (ControllerPublishVolume EqualFold now' reqA st)).
  { intros x md w Hx Hmd. unfold ControllerPublishVolume.
    destruct (att_VolumeId reqA) as [idObj|]; [|reflexivity].
    destruct (Nat.eqb (size (Values idObj)) 0); [reflexivity|].
    destruct (Values idObj !! "id") as [id|]; [|reflexivity].
    rewrite HA. destruct (Nat.eqb (size (node_Values nidA)) 0);
      [reflexivity|].
    rewrite Ha. cbv zeta. rewrite findVol_set_metadata_any.
    destruct (findVol EqualFold "id" id st) as [[y v]|] eqn:Hf;
      [|reflexivity].
    destruct (findVol_lookup _ _ _ _ _ Hf) as [Hy _].
    destruct (decide (y = x)) as [->|_]; simpl.
    - assert (v = w) by congruence. subst w. rewrite Hmd.
      destruct (Metadata v !! ("devpath." +:+ a)); reflexivity.
    - destruct (Metadata v !! ("devpath." +:+ a)); reflexivity. }
  split.
  - unfold ControllerPublishVolume at 2.
    destruct (att_VolumeId reqB) as [idObj|]; [|reflexivity].
    destruct (Nat.eqb (size (Values idObj)) 0); [reflexivity|].
    destruct (Values idObj !! "id") as [id|]; [|reflexivity].
    rewrite HB. destruct (Nat.eqb (size (node_Values nidB)) 0);
      [reflexivity|].
    rewrite Hb. cbv zeta.
    destruct (findVol EqualFold "id" id st) as [[x v]|] eqn:Hf;
      [|reflexivity].
    destruct (findVol_lookup _ _ _ _ _ Hf) as [Hx _].
    destruct (Metadata v !! ("devpath." +:+ b)); [reflexivity|].
    simpl. apply (Hstep x _ v Hx). apply lookup_insert_ne. exact Hkey.
  - unfold ControllerUnpublishVolume.
    destruct (att_VolumeId reqB) as [idObj|]; [|reflexivity].
    destruct (Nat.eqb (size (Values idObj)) 0); [reflexivity|].
    destruct (Values idObj !! "id") as [id|]; [|reflexivity].
    rewrite HB. destruct (Nat.eqb (size (node_Values nidB)) 0);
      [reflexivity|].
    rewrite Hb. cbv zeta.
    destruct (findVol EqualFold "id" id st) as [[x v]|] eqn:Hf;
      [|reflexivity].
    destruct (findVol_lookup _ _ _ _ _ Hf) as [Hx _].
    destruct (Metadata v !! ("devpath." +:+ b)); [|reflexivity].
    simpl. apply (Hstep x _ v Hx). apply lookup_delete_ne. exact Hkey.
Qed.

(** The request only writes metadata. *)
Definition writes_metadata (r : request) : bool :=
  match r with
  | ReqCreateVolume _ | ReqDeleteVolume _ => false
  | _ => true
  end.

(** X27. Publishing and unpublishing never make, remove, rename or
    resize a volume: whatever the request, the catalog has afterwards
    the same volumes in the same places with the same identifiers and
    capacities, the counter is as it was, and the metadata of at most
    one volume has changed. *)
Theorem publishing_keeps_the_volumes (r : request) (st : catalog) :
  writes_metadata r = true ->
  let st' := serve EqualFold r st in
  nextVolID st' = nextVolID st /\
  Id <$> vols st' = Id <$> vols st /\
  CapacityBytes <$> vols st' = CapacityBytes <$> vols st /\
  exists x, forall i, i <> x -> vols st' !! i = vols st !! i.
Proof.
  intros Hr. cbv zeta.
  assert (Hmd : forall x md,
            nextVolID (set_metadata x md st) = nextVolID st /\
            Id <$> vols (set_metadata x md st) = Id <$> vols st /\
            CapacityBytes <$> vols (set_metadata x md st)
              = CapacityBytes <$> vols st /\
            exists x', forall i, i <> x' ->
              vols (set_metadata x md st) !! i = vols st !! i).
  { intros x md. destruct (set_metadata_Ids x md st) as [Hids Hn].
    split; [exact Hn|]. split; [exact Hids|]. split.
    - unfold set_metadata. destruct (vols st !! x) as [v|] eqn:Hx;
        [|reflexivity].
      simpl. rewrite list_fmap_insert. simpl. apply list_insert_id.
      rewrite list_lookup_fmap, Hx. reflexivity.
    - exists x. intros i Hi. unfold set_metadata.
      destruct (vols st !! x) as [v|]; [|reflexivity].
      simpl. apply list_lookup_insert_ne. congruence. }
  assert (Hsame : nextVolID st = nextVolID st /\
                  Id <$> vols st = Id <$> vols st /\
                  CapacityBytes <$> vols st = CapacityBytes <$> vols st /\
                  exists x : nat, forall i, i <> x ->
                    vols st !! i = vols st !! i)
    by (repeat split; exists 0; reflexivity).
  destruct r as [req|req|now req|req|req|req]; try discriminate; simpl.
  - unfold ControllerPublishVolume.
    destruct (att_VolumeId req) as [idObj|]; [|exact Hsame].
    destruct (Nat.eqb (size (Values idObj)) 0); [exact Hsame|].
    destruct (Values idObj !! "id") as [id|]; [|exact Hsame].
    destruct (att_NodeId req) as [nid|]; [|exact Hsame].
    destruct (Nat.eqb (size (node_Values nid)) 0); [exact Hsame|].
    destruct (node_Values nid !! "id") as [nidid|]; [|exact Hsame].
    cbv zeta.
    destruct (findVol EqualFold "id" id st) as [[x v]|]; [|exact Hsame].
    destruct (Metadata v !! ("devpath." +:+ nidid));
      [exact Hsame | apply Hmd].
  - unfold ControllerUnpublishVolume.
    destruct (att_VolumeId req) as [idObj|]; [|exact Hsame].
    destruct (Nat.eqb (size (Values idObj)) 0); [exact Hsame|].
    destruct (Values idObj !! "id") as [id|]; [|exact Hsame].
    destruct (att_NodeId req) as [nid|]; [|exact Hsame].
    destruct (Nat.eqb (size (node_Values nid)) 0); [exact Hsame|].
    destruct (node_Values nid !! "id") as [nidid|]; [|exact Hsame].
    cbv zeta.
    destruct (findVol EqualFold "id" id st) as [[x v]|]; [|exact Hsame].
    destruct (Metadata v !! ("devpath." +:+ nidid));
      [apply Hmd | exact Hsame].
  - unfold NodePublishVolume.
    destruct (np_VolumeId req) as [idObj|]; [|exact Hsame].
    destruct (Nat.eqb (size (Values idObj)) 0); [exact Hsame|].
    destruct (Values idObj !! "id") as [id|]; [|exact Hsame].
    destruct (findVol EqualFold "id" id st) as [[x v]|]; [|exact Hsame].
    cbv zeta.
    destruct (String.eqb (TargetPath req) ""); [exact Hsame | apply Hmd].
  - unfold NodeUnpublishVolume.
    destruct (VolumeId req) as [idObj|]; [|exact Hsame].
    destruct (Nat.eqb (size (Values idObj)) 0); [exact Hsame|].
    destruct (Values idObj !! "id") as [id|]; [|exact Hsame].
    destruct (findVol EqualFold "id" id st) as [[x v]|]; [|exact Hsame].
    apply Hmd.
Qed.

(** *** Mounting and unmounting *)

(** X26. NodeUnpublishVolume undoes NodePublishVolume and may be
    repeated: unpublishing a volume after publishing it leaves the
    catalog as unpublishing alone would have left it, and answers alike;
    and unpublishing a second time answers as the first time and changes
    nothing more (unlike ControllerUnpublishVolume, it does not ask
    whether the volume is published). *)
Theorem NodeUnpublishVolume_undoes_publish
  (req : NodePublishVolumeRequest) (ver : option Version) (st : catalog) :
  let unpublish := mkVolumeRequest ver (np_VolumeId req) in
  NodeUnpublishVolume EqualFold unpublish
    (snd (NodePublishVolume EqualFold req st))
  = NodeUnpublishVolume EqualFold unpublish st /\
  NodeUnpublishVolume EqualFold unpublish
    (snd (NodeUnpublishVolume EqualFold unpublish st))
  = NodeUnpublishVolume EqualFold unpublish st.
Proof.
  unfold NodePublishVolume, NodeUnpublishVolume. simpl.
  destruct (np_VolumeId req) as [idObj|]; [|split; reflexivity].
  destruct (Nat.eqb (size (Values idObj)) 0); [split; reflexivity|].
  destruct (Values idObj !! "id") as [id|]; [|split; reflexivity].
  destruct (findVol EqualFold "id" id st) as [[x v]|] eqn:Hf.
  - split.
    + destruct (String.eqb (TargetPath req) ""); simpl.
      * rewrite Hf. reflexivity.
      * rewrite (findVol_set_metadata _ _ _ _ _ _ Hf). simpl.
        rewrite set_metadata_twice, delete_insert_eq. reflexivity.
    + simpl. rewrite (findVol_set_metadata _ _ _ _ _ _ Hf). simpl.
      rewrite set_metadata_twice, delete_delete_eq. reflexivity.
  - simpl. rewrite Hf. split; reflexivity.
Qed.

(** *** Removing a volume *)

(** [swap_remove] on a list with a last element. *)
Lemma swap_remove_snoc (x : nat) (xs : list VolumeInfo) (l : VolumeInfo) :
  x <= length xs ->
  swap_remove x (xs ++ [l]) =
    if decide (x < length xs) then <[x := l]> xs else xs.
Proof.
  intros Hx. unfold swap_remove.
  rewrite length_app. simpl.
  replace (length xs + 1 - 1) with (length xs) by lia.
  rewrite (list_lookup_middle xs [] l (length xs) eq_refl).
  destruct (decide (x < length xs)) as [Hlt|Hge].
  - rewrite insert_app_l by exact Hlt.
    rewrite take_app_length'; [reflexivity|]. rewrite length_insert.
    reflexivity.
  - rewrite take_insert_ge by lia. apply take_app_length.
Qed.

(** The volumes left are the volumes there were, without the one
    removed. *)
Lemma swap_remove_perm (x : nat) (vs : list VolumeInfo) (v : VolumeInfo) :
  vs !! x = Some v -> vs ≡ₚ v :: swap_remove x vs.
Proof.
  intros Hx. pose proof (lookup_lt_Some _ _ _ Hx) as Hlt.
  destruct (exists_last (l := vs)) as (xs & l & ->).
  { intros ->. simpl in Hlt. lia. }
  rewrite length_app in Hlt. simpl in Hlt.
  rewrite swap_remove_snoc by lia.
  destruct (decide (x < length xs)) as [Hin|Hlast].
  - rewrite lookup_app_l in Hx by exact Hin.
    rewrite insert_take_drop by exact Hin.
    rewrite <- (take_drop_middle xs x v Hx) at 1.
    rewrite <- app_assoc. simpl.
    etransitivity; [symmetry; apply Permutation_middle|].
    apply perm_skip. apply Permutation_app_head.
    symmetry. apply Permutation_cons_append.
  - assert (x = length xs) by lia. subst x.
    rewrite (list_lookup_middle xs [] l (length xs) eq_refl) in Hx.
    injection Hx as ->. symmetry. apply Permutation_cons_append.
Qed.

(** *** The identifiers of the catalog *)

Lemma size_lookup_Some (m : gmap string string) (k v : string) :
  m !! k = Some v -> Nat.eqb (size m) 0 = false.
Proof.
  intros Hk. apply Nat.eqb_neq. intros Hsize.
  apply map_size_empty_iff in Hsize. rewrite Hsize, lookup_empty in Hk.
  discriminate.
Qed.

Lemma numbered_spec (next : N) (o : option string) :
  numbered next o = true <->
  exists k, o = Some (fmt_d k) /\ (1 <= k <= next)%N.
Proof.
  unfold numbered. split.
  - destruct o as [s|]; [|discriminate].
    destruct (strconv.digits s 0) as [k|]; [|discriminate].
    intros H. apply andb_true_iff in H. destruct H as [H Heq].
    apply andb_true_iff in H. destruct H as [H1 H2].
    apply String.eqb_eq in Heq. apply N.leb_le in H1, H2.
    exists k. split; [congruence | lia].
  - intros (k & -> & H1 & H2). rewrite digits_fmt_d.
    apply N.leb_le in H1, H2. rewrite H1, H2, String.eqb_refl. reflexivity.
Qed.

Lemma wf_spec (st : catalog) :
  wf st = true <->
  (forall o, o ∈ id_of <$> vols st ->
             exists k, o = Some (fmt_d k) /\ (1 <= k <= nextVolID st)%N) /\
  NoDup (id_of <$> vols st).
Proof.
  unfold wf. rewrite andb_true_iff, bool_decide_eq_true, forallb_forall.
  split; intros [Hall Hnd]; (split; [|exact Hnd]); intros o Ho.
  - apply numbered_spec. apply Hall. apply list_elem_of_In. exact Ho.
  - apply numbered_spec. apply Hall. apply list_elem_of_In. exact Ho.
Qed.

Lemma field_matches_id_of (val : string) (v : VolumeInfo) :
  field_matches EqualFold "id" val v =
    match id_of v with
    | Some fv => EqualFold fv val
    | None => false
    end.
Proof. unfold field_matches, id_of. destruct (Id v); reflexivity. Qed.

Lemma id_of_Ids (vs ws : list VolumeInfo) :
  Id <$> vs = Id <$> ws -> id_of <$> vs = id_of <$> ws.
Proof.
  revert ws. induction vs as [|v vs IH]; intros [|w ws] H;
    try discriminate; [reflexivity|].
  injection H as Hv Hrest. rewrite !fmap_cons.
  f_equal; [unfold id_of; rewrite Hv; reflexivity | exact (IH ws Hrest)].
Qed.

(** Well-formedness looks at the counter and at the identifiers
    only. *)
Lemma wf_Ids (st st' : catalog) :
  Id <$> vols st' = Id <$> vols st -> nextVolID st' = nextVolID st ->
  wf st' = wf st.
Proof.
  intros Hids Hnext. unfold wf. rewrite (id_of_Ids _ _ Hids), Hnext.
  reflexivity.
Qed.

(** Taking a volume out keeps the catalog well formed. *)
Lemma wf_perm (st st' : catalog) (v : VolumeInfo) :
  vols st ≡ₚ v :: vols st' -> nextVolID st' = nextVolID st ->
  wf st = true -> wf st' = true.
Proof.
  intros Hperm Hnext Hwf. apply wf_spec in Hwf. destruct Hwf as [Hall Hnd].
  apply wf_spec. rewrite Hnext.
  assert (Hids : id_of <$> vols st ≡ₚ id_of v :: (id_of <$> vols st'))
    by (rewrite Hperm; reflexivity).
  split.
  - intros o Ho. apply Hall. rewrite Hids. right. exact Ho.
  - rewrite Hids in Hnd. apply NoDup_cons in Hnd. tauto.
Qed.

(** A new volume gets the next number, and the catalog stays well
    formed. *)
Lemma CreateVolume_new (req : CreateVolumeRequest) (st : catalog) :
  csi.Name req <> ""%string ->
  findVolByName EqualFold (csi.Name req) st = None ->
  (nextVolID st + 1 < 2 ^ 64)%N ->
  exists v,
    CreateVolume EqualFold req st =
      ((Some (Service.Reply v), None),
       mkCatalog (nextVolID st + 1) (vols st ++ [v])) /\
    Id v = Some (mkVolumeID (<["id" := fmt_d (nextVolID st + 1)]>
                               (<["name" := csi.Name req]> ∅))) /\
    id_of v = Some (fmt_d (nextVolID st + 1)).
Proof.
  intros Hname Hnone Hnext. unfold CreateVolume.
  destruct (String.eqb_spec (csi.Name req) "") as [Heq|_]; [contradiction|].
  rewrite Hnone. unfold newVolume. rewrite N.mod_small by exact Hnext.
  eexists. split; [reflexivity|]. split; [reflexivity|].
  unfold id_of. simpl. apply lookup_insert_eq.
Qed.

Lemma wf_snoc (st : catalog) (v : VolumeInfo) :
  wf st = true ->
  id_of v = Some (fmt_d (nextVolID st + 1)) ->
  wf (mkCatalog (nextVolID st + 1) (vols st ++ [v])) = true.
Proof.
  intros Hwf Hid. apply wf_spec in Hwf. destruct Hwf as [Hall Hnd].
  apply wf_spec. simpl. rewrite fmap_app. simpl. split.
  - intros o Ho. apply elem_of_app in Ho. destruct Ho as [Ho|Ho].
    + destruct (Hall o Ho) as (k & -> & Hk). exists k.
      split; [reflexivity | lia].
    + apply list_elem_of_singleton in Ho. subst o. rewrite Hid.
      exists (nextVolID st + 1)%N. split; [reflexivity | lia].
  - apply NoDup_app. split; [exact Hnd|]. split; [|apply NoDup_singleton].
    intros o Ho Hin. apply list_elem_of_singleton in Hin. subst o.
    destruct (Hall _ Ho) as (k & Hk & Hle). rewrite Hid in Hk.
    injection Hk as Hk. apply fmt_d_inj in Hk. lia.
Qed.

(** Every request keeps the catalog well formed and moves the counter
    by one at most, as long as the counter does not wrap. *)
Lemma serve_wf (r : request) (st : catalog) :
  wf st = true -> (nextVolID st + 1 < 2 ^ 64)%N ->
  wf (serve EqualFold r st) = true /\
  (nextVolID st <= nextVolID (serve EqualFold r st) <= nextVolID st + 1)%N.
Proof.
  intros Hwf Hnext.
  assert (Hmd : forall x md,
            wf (set_metadata x md st) = true /\
            (nextVolID st <= nextVolID (set_metadata x md st)
             <= nextVolID st + 1)%N).
  { intros x md. destruct (set_metadata_Ids x md st) as [Hids Hn].
    rewrite (wf_Ids _ _ Hids Hn), Hn. split; [exact Hwf | lia]. }
  assert (Hsame : wf st = true /\
                  (nextVolID st <= nextVolID st <= nextVolID st + 1)%N)
    by (split; [exact Hwf | lia]).
  destruct r as [req|req|now req|req|req|req]; simpl.
  - unfold CreateVolume.
    destruct (String.eqb_spec (csi.Name req) "") as [Heq|Hname];
      [exact Hsame|].
    destruct (findVolByName EqualFold (csi.Name req) st) as [[x v]|] eqn:Hf;
      [exact Hsame|].
    destruct (CreateVolume_new req st Hname Hf Hnext) as (v & Hc & _ & Hid).
    unfold CreateVolume in Hc.
    destruct (String.eqb_spec (csi.Name req) "") as [Heq|_];
      [contradiction|].
    rewrite Hf in Hc. rewrite Hc. simpl.
    split; [apply wf_snoc; assumption | lia].
  - unfold DeleteVolume.
    destruct (VolumeId req) as [idObj|]; [|exact Hsame].
    destruct (Nat.eqb (size (Values idObj)) 0); [exact Hsame|].
    destruct (Values idObj !! "id") as [id|]; [|exact Hsame].
    destruct (findVol EqualFold "id" id st) as [[x v]|] eqn:Hf;
      [|exact Hsame].
    simpl. split; [|lia].
    destruct (findVol_lookup _ _ _ _ _ Hf) as [Hx _].
    apply (wf_perm st _ v); [|reflexivity | exact Hwf].
    simpl. apply swap_remove_perm. exact Hx.
  - unfold ControllerPublishVolume.
    destruct (att_VolumeId req) as [idObj|]; [|exact Hsame].
    destruct (Nat.eqb (size (Values idObj)) 0); [exact Hsame|].
    destruct (Values idObj !! "id") as [id|]; [|exact Hsame].
    destruct (att_NodeId req) as [nid|]; [|exact Hsame].
    destruct (Nat.eqb (size (node_Values nid)) 0); [exact Hsame|].
    destruct (node_Values nid !! "id") as [nidid|]; [|exact Hsame].
    cbv zeta.
    destruct (findVol EqualFold "id" id st) as [[x v]|]; [|exact Hsame].
    destruct (Metadata v !! ("devpath." +:+ nidid));
      [exact Hsame | apply Hmd].
  - unfold ControllerUnpublishVolume.
    destruct (att_VolumeId req) as [idObj|]; [|exact Hsame].
    destruct (Nat.eqb (size (Values idObj)) 0); [exact Hsame|].
    destruct (Values idObj !! "id") as [id|]; [|exact Hsame].
    destruct (att_NodeId req) as [nid|]; [|exact Hsame].
    destruct (Nat.eqb (size (node_Values nid)) 0); [exact Hsame|].
    destruct (node_Values nid !! "id") as [nidid|]; [|exact Hsame].
    cbv zeta.
    destruct (findVol EqualFold "id" id st) as [[x v]|]; [|exact Hsame].
    destruct (Metadata v !! ("devpath." +:+ nidid));
      [apply Hmd | exact Hsame].
  - unfold NodePublishVolume.
    destruct (np_VolumeId req) as [idObj|]; [|exact Hsame].
    destruct (Nat.eqb (size (Values idObj)) 0); [exact Hsame|].
    destruct (Values idObj !! "id") as [id|]; [|exact Hsame].
    destruct (findVol EqualFold "id" id st) as [[x v]|]; [|exact Hsame].
    cbv zeta.
    destruct (String.eqb (TargetPath req) ""); [exact Hsame | apply Hmd].
  - unfold NodeUnpublishVolume.
    destruct (VolumeId req) as [idObj|]; [|exact Hsame].
    destruct (Nat.eqb (size (Values idObj)) 0); [exact Hsame|].
    destruct (Values idObj !! "id") as [id|]; [|exact Hsame].
    destruct (findVol EqualFold "id" id st) as [[x v]|]; [|exact Hsame].
    apply Hmd.
Qed.

(** X16. The identifiers of the catalog stay distinct. Starting from a
    catalog in which every volume carries the decimal form of a number
    between 1 and the counter and no two volumes the same, this is so
    after any sequence of requests (create, delete, publish and
    unpublish, in any order and with any arguments), as long as the
    64-bit counter does not wrap; and the counter never goes back, so
    that the number of a deleted volume is not given out again. *)
Theorem catalog_stays_well_formed (rs : list request) (st : catalog) :
  wf st = true ->
  (nextVolID st + N.of_nat (length rs) < 2 ^ 64)%N ->
  wf (serve_all EqualFold rs st) = true /\
  (nextVolID st <= nextVolID (serve_all EqualFold rs st)
   <= nextVolID st + N.of_nat (length rs))%N.
Proof.
  revert st. induction rs as [|r rs IH]; intros st Hwf Hnext.
  - simpl in *. split; [exact Hwf | lia].
  - simpl length in Hnext. simpl serve_all.
    destruct (serve_wf r st Hwf) as [Hwf1 Hn1]; [lia|].
    destruct (IH (serve EqualFold r st) Hwf1) as [Hwf2 Hn2]; [lia|].
    split; [exact Hwf2|]. simpl length. lia.
Qed.

Section Decimal.

(** [strings.EqualFold] tells the decimal forms of two numbers apart,
    and each equal to itself. *)
Hypothesis EqualFold_decimal :
  forall m n, EqualFold (fmt_d m) (fmt_d n) = true <-> m = n.

(** In a well-formed catalog a numbered identifier is found where it
    is, and nowhere else. *)
Lemma findVol_id (st : catalog) (k : N) (x : nat) (v : VolumeInfo) :
  wf st = true ->
  findVol EqualFold "id" (fmt_d k) st = Some (x, v) <->
  vols st !! x = Some v /\ id_of v = Some (fmt_d k).
Proof.
  intros Hwf. apply wf_spec in Hwf. destruct Hwf as [Hall Hnd].
  assert (Hmatch : forall y w, vols st !! y = Some w ->
            field_matches EqualFold "id" (fmt_d k) w = true ->
            id_of w = Some (fmt_d k)).
  { intros y w Hy Hm. rewrite field_matches_id_of in Hm.
    destruct (Hall (id_of w)) as (k' & Hk' & _).
    { apply list_elem_of_fmap. exists w. split; [reflexivity|].
      apply list_elem_of_lookup. exists y. exact Hy. }
    rewrite Hk' in Hm |- *. apply EqualFold_decimal in Hm. congruence. }
  split.
  - intros Hf. destruct (findVol_lookup _ _ _ _ _ Hf) as [Hx Hm].
    split; [exact Hx | exact (Hmatch x v Hx Hm)].
  - intros [Hx Hid].
    destruct (findVol EqualFold "id" (fmt_d k) st) as [[y w]|] eqn:Hf.
    + destruct (findVol_lookup _ _ _ _ _ Hf) as [Hy Hm].
      pose proof (Hmatch y w Hy Hm) as Hw.
      assert (y = x).
      { apply (NoDup_lookup (id_of <$> vols st) y x (Some (fmt_d k)) Hnd);
          rewrite list_lookup_fmap; [rewrite Hy | rewrite Hx]; simpl;
          congruence. }
      subst y. congruence.
    + unfold findVol in Hf. rewrite findVol_from_None in Hf.
      assert (Hin : In v (vols st)).
      { apply list_elem_of_In. apply list_elem_of_lookup. exists x. exact Hx. }
      specialize (Hf v Hin). rewrite field_matches_id_of, Hid in Hf.
      rewrite (proj2 (EqualFold_decimal k k) eq_refl) in Hf. discriminate.
Qed.

Lemma findVol_id_None (st : catalog) (k : N) :
  wf st = true ->
  findVol EqualFold "id" (fmt_d k) st = None <->
  Some (fmt_d k) ∉ id_of <$> vols st.
Proof.
  intros Hwf. split.
  - intros Hnone Hin. apply list_elem_of_fmap in Hin.
    destruct Hin as (v & Hid & Hv). apply list_elem_of_lookup in Hv.
    destruct Hv as [x Hx].
    assert (Hf : findVol EqualFold "id" (fmt_d k) st = Some (x, v))
      by (apply findVol_id; auto).
    congruence.
  - intros Hnot.
    destruct (findVol EqualFold "id" (fmt_d k) st) as [[x v]|] eqn:Hf;
      [|reflexivity].
    apply findVol_id in Hf; [|exact Hwf]. destruct Hf as [Hx Hid].
    exfalso. apply Hnot. apply list_elem_of_fmap. exists v.
    split; [congruence|]. apply list_elem_of_lookup. exists x. exact Hx.
Qed.

(** X17. Deleting a volume by the identifier it was given takes exactly
    that volume out of a well-formed catalog: afterwards the identifier
    is not found, every other numbered identifier is found with the
    volume it had, the catalog holds the volumes it held but the one
    deleted (in another order, possibly), and the counter is as before.
    Deleting an identifier no volume has changes nothing, so deleting
    twice is deleting once. In every case the answer is nil with a nil
    error. *)
Theorem DeleteVolume_removes_the_volume
  (req : VolumeRequest) (st : catalog) (idObj : VolumeID) (k : N) :
  wf st = true ->
  VolumeId req = Some idObj ->
  Values idObj !! "id" = Some (fmt_d k) ->
  let st' := snd (DeleteVolume EqualFold req st) in
  fst (DeleteVolume EqualFold req st) = (None, None) /\
  wf st' = true /\ nextVolID st' = nextVolID st /\
  findVol EqualFold "id" (fmt_d k) st' = None /\
  (forall k', k' <> k ->
     snd <$> findVol EqualFold "id" (fmt_d k') st'
       = snd <$> findVol EqualFold "id" (fmt_d k') st) /\
  match findVol EqualFold "id" (fmt_d k) st with
  | Some (_, v) => vols st ≡ₚ v :: vols st'
  | None => st' = st
  end /\
  DeleteVolume EqualFold req st' = ((None, None), st').
Proof.
  intros Hwf Hid Hval.
  assert (Hdel : forall s, DeleteVolume EqualFold req s =
            match findVol EqualFold "id" (fmt_d k) s with
            | Some (x, _) =>
                ((None, None),
                 mkCatalog (nextVolID s) (swap_remove x (vols s)))
            | None => ((None, None), s)
            end).
  { intros s. unfold DeleteVolume.
    rewrite Hid, (size_lookup_Some _ _ _ Hval), Hval. reflexivity. }
  cbv zeta. rewrite !Hdel.
  destruct (findVol EqualFold "id" (fmt_d k) st) as [[x v]|] eqn:Hf.
  - simpl.
    pose proof (proj1 (findVol_id st k x v Hwf) Hf) as [Hx Hv].
    set (st' := mkCatalog (nextVolID st) (swap_remove x (vols st))).
    assert (Hperm : vols st ≡ₚ v :: vols st')
      by (apply swap_remove_perm; exact Hx).
    assert (Hwf' : wf st' = true)
      by (apply (wf_perm st st' v Hperm eq_refl Hwf)).
    assert (Hids : id_of <$> vols st ≡ₚ id_of v :: (id_of <$> vols st'))
      by (rewrite Hperm; reflexivity).
    assert (Hnd : NoDup (id_of v :: (id_of <$> vols st'))).
    { rewrite <- Hids. apply wf_spec in Hwf. tauto. }
    assert (Hgone : findVol EqualFold "id" (fmt_d k) st' = None).
    { apply findVol_id_None; [exact Hwf'|].
      apply NoDup_cons in Hnd. rewrite <- Hv. tauto. }
    split; [reflexivity|]. split; [exact Hwf'|]. split; [reflexivity|].
    split; [exact Hgone|]. split; [|split; [exact Hperm|]].
    + intros k' Hk'.
      destruct (findVol EqualFold "id" (fmt_d k') st) as [[y w]|] eqn:Hf'.
      * pose proof (proj1 (findVol_id st k' y w Hwf) Hf') as [Hy Hw].
        assert (Hin : w ∈ v :: vols st').
        { rewrite <- Hperm. apply list_elem_of_lookup. exists y. exact Hy. }
        apply elem_of_cons in Hin. destruct Hin as [->|Hin].
        -- rewrite Hv in Hw. injection Hw as Hw. apply fmt_d_inj in Hw.
           congruence.
        -- apply list_elem_of_lookup in Hin. destruct Hin as [y' Hy'].
           rewrite (proj2 (findVol_id st' k' y' w Hwf') (conj Hy' Hw)).
           reflexivity.
      * apply (findVol_id_None st k' Hwf) in Hf'.
        assert (Hnone : findVol EqualFold "id" (fmt_d k') st' = None).
        { apply findVol_id_None; [exact Hwf'|]. intros Hin. apply Hf'.
          rewrite Hids. right. exact Hin. }
        rewrite Hnone. reflexivity.
    + rewrite Hgone. reflexivity.
  - simpl. rewrite Hf. repeat split; try assumption; reflexivity.
Qed.

(** X18. Creating a volume under a new name and deleting it by the
    identifier the answer carries leaves the volumes of a well-formed
    catalog exactly as they were, in the same order; only the counter
    has moved, so the number is not used again. *)
Theorem CreateVolume_then_DeleteVolume
  (req : CreateVolumeRequest) (ver : option Version) (st : catalog) :
  wf st = true ->
  (nextVolID st + 1 < 2 ^ 64)%N ->
  csi.Name req <> ""%string ->
  findVolByName EqualFold (csi.Name req) st = None ->
  exists v,
    fst (CreateVolume EqualFold req st) = (Some (Service.Reply v), None) /\
    id_of v = Some (fmt_d (nextVolID st + 1)) /\
    DeleteVolume EqualFold (mkVolumeRequest ver (Id v))
      (snd (CreateVolume EqualFold req st))
    = ((None, None), mkCatalog (nextVolID st + 1) (vols st)).
Proof.
  intros Hwf Hnext Hname Hnone.
  destruct (CreateVolume_new req st Hname Hnone Hnext)
    as (v & Hc & HId & Hid).
  exists v. rewrite Hc. simpl. split; [reflexivity|]. split; [exact Hid|].
  set (st1 := mkCatalog (nextVolID st + 1) (vols st ++ [v])).
  assert (Hwf1 : wf st1 = true) by (apply wf_snoc; assumption).
  assert (Hf : findVol EqualFold "id" (fmt_d (nextVolID st + 1)) st1
               = Some (length (vols st), v)).
  { apply findVol_id; [exact Hwf1|]. split; [|exact Hid].
    simpl. apply list_lookup_middle. reflexivity. }
  unfold DeleteVolume. simpl. rewrite HId. simpl.
  rewrite (size_lookup_Some _ "id" (fmt_d (nextVolID st + 1)))
    by apply lookup_insert_eq.
  rewrite lookup_insert_eq, Hf. simpl.
  rewrite swap_remove_snoc by lia.
  destruct (decide (length (vols st) < length (vols st))); [lia|].
  reflexivity.
Qed.

End Decimal.

(** *** Listing the volumes *)

(** The loop of [ListVolumes] over volumes that all have an
    identifier: as many volumes as the page may hold. *)
Lemma entries_from_spec (maxEntries lena : N) (rest : list VolumeInfo) :
  (forall v, v ∈ rest -> Id v <> None) ->
  entries_from maxEntries lena rest =
    Some (take (if (maxEntries =? 0)%N then length rest
                else N.to_nat (maxEntries - lena)) rest).
Proof.
  revert lena. induction rest as [|v rest IH]; intros lena Hall.
  - simpl. rewrite take_nil. reflexivity.
  - simpl entries_from.
    destruct (N.ltb_spec 0 maxEntries) as [Hpos|Hzero]; simpl.
    + destruct (N.eqb_spec maxEntries 0) as [|_]; [lia|].
      destruct (N.leb_spec maxEntries lena) as [Hfull|Hroom].
      * replace (N.to_nat (maxEntries - lena)) with 0 by lia. reflexivity.
      * destruct (Id v) eqn:Hv;
          [|exfalso; apply (Hall v); [left | exact Hv]].
        rewrite IH by (intros w Hw; apply Hall; right; exact Hw).
        destruct (N.eqb_spec maxEntries 0) as [|_]; [lia|].
        replace (N.to_nat (maxEntries - lena))
          with (S (N.to_nat (maxEntries - (lena + 1)))) by lia.
        reflexivity.
    + assert (maxEntries = 0%N) by lia. subst maxEntries. simpl.
      destruct (Id v) eqn:Hv;
        [|exfalso; apply (Hall v); [left | exact Hv]].
      rewrite IH by (intros w Hw; apply Hall; right; exact Hw).
      reflexivity.
Qed.

(** In a well-formed catalog every volume has an identifier. *)
Lemma wf_identified (st : catalog) (v : VolumeInfo) :
  wf st = true -> v ∈ vols st -> Id v <> None.
Proof.
  intros Hwf Hv HId. apply wf_spec in Hwf. destruct Hwf as [Hall _].
  destruct (Hall (id_of v)) as (k & Hk & _).
  - apply list_elem_of_fmap. exists v. split; [reflexivity | exact Hv].
  - unfold id_of in Hk. rewrite HId in Hk. discriminate.
Qed.

(** The page that starts at [start] and holds at most [n] volumes, all
    the rest when [n] is 0; and the token that follows it. *)
Definition page (n start : N) (st : catalog) : list VolumeInfo :=
  take (if (n =? 0)%N then length (vols st) else N.to_nat n)
    (drop (N.to_nat start) (vols st)).

Definition next_token (n start : N) (st : catalog) : string :=
  if (start + N.of_nat (length (page n start st))
      <? N.of_nat (length (vols st)))%N
  then fmt_d (start + N.of_nat (length (page n start st)))
  else "".

(** [ListVolumes] once the starting token has been read as
    [start]. *)
Lemma ListVolumes_from (n start : N) (token : string) (st : catalog) :
  wf st = true ->
  (N.of_nat (length (vols st)) < 2 ^ 32)%N ->
  (n < 2 ^ 32)%N ->
  (if String.eqb token "" then Some 0%N else strconv.ParseUint32 token)
    = Some start ->
  (start <= N.of_nat (length (vols st)))%N ->
  ListVolumes (mkListVolumesRequest n token) st =
    Some (Some (Result (Entries (page n start st) (next_token n start st))),
          None).
Proof.
  intros Hwf Hlen Hn Htok Hstart. unfold ListVolumes. simpl.
  assert (Hu : uint32 (N.of_nat (length (vols st)))
               = N.of_nat (length (vols st)))
    by (unfold uint32; apply N.mod_small; exact Hlen).
  assert (Hun : uint32 n = n)
    by (unfold uint32; apply N.mod_small; exact Hn).
  rewrite Htok, !Hu, Hun.
  destruct (N.ltb_spec (N.of_nat (length (vols st))) start) as [|_]; [lia|].
  rewrite take_ge by (rewrite length_drop; lia).
  rewrite entries_from_spec.
  2:{ intros v Hv. apply (wf_identified st v Hwf).
      apply list_elem_of_lookup in Hv. destruct Hv as [i Hi].
      rewrite lookup_drop in Hi. apply list_elem_of_lookup.
      eexists. exact Hi. }
  rewrite N.sub_0_r.
  assert (Hpage :
    take (if (n =? 0)%N then length (drop (N.to_nat start) (vols st))
          else N.to_nat n) (drop (N.to_nat start) (vols st))
    = page n start st).
  { unfold page. destruct (n =? 0)%N; [|reflexivity].
    rewrite !take_ge; [reflexivity | rewrite length_drop; lia | lia]. }
  rewrite Hpage. unfold next_token.
  assert (Hle : length (page n start st)
                <= length (vols st) - N.to_nat start).
  { unfold page. rewrite length_take, length_drop. lia. }
  unfold uint32. rewrite N.mod_small by lia. reflexivity.
Qed.

(** X19. One page of [ListVolumes]. On a well-formed catalog of fewer
    than 2^32 volumes, a request for at most [n] entries (0 for no
    limit) from the token that is the decimal form of [start], or from
    the empty token for the start of the list, is answered with the
    volumes from place [start] on in the order of the catalog, [n] of
    them at most, and with the decimal form of the place after the last
    one as next token, or the empty token when the page reaches the end
    of the catalog. *)
Theorem ListVolumes_page (n start : N) (st : catalog) :
  wf st = true ->
  (N.of_nat (length (vols st)) < 2 ^ 32)%N ->
  (n < 2 ^ 32)%N ->
  (start <= N.of_nat (length (vols st)))%N ->
  let entries :=
    take (if (n =? 0)%N then length (vols st) else N.to_nat n)
      (drop (N.to_nat start) (vols st)) in
  let next :=
    if (start + N.of_nat (length entries) <? N.of_nat (length (vols st)))%N
    then fmt_d (start + N.of_nat (length entries)) else ""%string in
  ListVolumes (mkListVolumesRequest n (fmt_d start)) st =
    Some (Some (Result (Entries entries next)), None) /\
  (start = 0%N ->
   ListVolumes (mkListVolumesRequest n "") st =
     Some (Some (Result (Entries entries next)), None)).
Proof.
  intros Hwf Hlen Hn Hstart. cbv zeta. split.
  - apply (ListVolumes_from n start (fmt_d start) st Hwf Hlen Hn);
      [|exact Hstart].
    destruct (String.eqb_spec (fmt_d start) "") as [Hempty|_];
      [exfalso; exact (fmt_d_not_empty start Hempty)|].
    apply ParseUint32_fmt_d. unfold strconv.MaxUint32. lia.
  - intros ->.
    apply (ListVolumes_from n 0 "" st Hwf Hlen Hn); [reflexivity | lia].
Qed.

Lemma list_pages_from (n : N) (st : catalog) (fuel : nat) :
  wf st = true ->
  (N.of_nat (length (vols st)) < 2 ^ 32)%N ->
  (n < 2 ^ 32)%N ->
  forall (start : N) (token : string),
    (if String.eqb token "" then Some 0%N else strconv.ParseUint32 token)
      = Some start ->
    (start <= N.of_nat (length (vols st)))%N ->
    length (vols st) - N.to_nat start < fuel ->
    list_pages fuel n token st = Some (drop (N.to_nat start) (vols st)).
Proof.
  intros Hwf Hlen Hn. induction fuel as [|fuel IH];
    intros start token Htok Hstart Hfuel; [lia|].
  simpl list_pages.
  rewrite (ListVolumes_from n start token st Hwf Hlen Hn Htok Hstart).
  assert (Hpl : length (page n start st)
                = Nat.min (if (n =? 0)%N then length (vols st)
                           else N.to_nat n)
                    (length (vols st) - N.to_nat start)).
  { unfold page. rewrite length_take, length_drop. reflexivity. }
  unfold next_token.
  destruct (N.ltb_spec (start + N.of_nat (length (page n start st)))
              (N.of_nat (length (vols st)))) as [Hmore|Hend].
  - set (start' := (start + N.of_nat (length (page n start st)))%N) in *.
    destruct (String.eqb_spec (fmt_d start') "") as [Hempty|_];
      [exfalso; exact (fmt_d_not_empty start' Hempty)|].
    assert (Hn0 : (n =? 0)%N = false).
    { destruct (N.eqb_spec n 0) as [->|]; [|reflexivity].
      simpl in Hpl. unfold start' in Hmore. lia. }
    rewrite Hn0 in Hpl.
    assert (Hfull : length (page n start st) = N.to_nat n)
      by (unfold start' in Hmore; lia).
    assert (Hpos : 0 < N.to_nat n).
    { destruct (N.eqb_spec n 0); [discriminate | lia]. }
    rewrite (IH start' (fmt_d start')).
    + f_equal. unfold page. rewrite Hn0.
      replace (N.to_nat start') with (N.to_nat start + N.to_nat n)
        by (unfold start'; lia).
      rewrite <- drop_drop. apply take_drop.
    + destruct (String.eqb_spec (fmt_d start') "") as [Hempty|_];
        [exfalso; exact (fmt_d_not_empty start' Hempty)|].
      apply ParseUint32_fmt_d. unfold strconv.MaxUint32. lia.
    + lia.
    + unfold start'. lia.
  - simpl. f_equal. unfold page. apply take_ge.
    rewrite length_drop.
    destruct (n =? 0)%N; lia.
Qed.

(** X20. Paging through the catalog misses nothing and repeats nothing.
    A client that starts with the empty token and goes on with the token
    of each answer until an answer carries none gets, pages joined,
    exactly the volumes of a well-formed catalog in their order, for any
    page size below 2^32 (0 for no limit), and needs no more pages than
    there are volumes, plus one. *)
Theorem ListVolumes_pages_cover_the_catalog (n : N) (st : catalog) :
  wf st = true ->
  (N.of_nat (length (vols st)) < 2 ^ 32)%N ->
  (n < 2 ^ 32)%N ->
  list_pages (S (length (vols st))) n "" st = Some (vols st).
Proof.
  intros Hwf Hlen Hn.
  rewrite (list_pages_from n st (S (length (vols st))) Hwf Hlen Hn 0 "");
    [reflexivity | reflexivity | lia | simpl; lia].
Qed.

(** X21. The tokens [ListVolumes] takes. On a well-formed catalog of
    fewer than 2^32 volumes every request is answered, with entries or
    with an error message of code 0. It is answered with entries when
    the starting token is empty or is made of decimal digits only and
    stands for a number that is at most the number of volumes (the
    number of volumes itself gives an empty page). A token that is not
    made of decimal digits, or stands for a number above 2^32-1, is
    refused with a message that names token 0; a number within 32 bits
    but above the number of volumes is refused with a message that names
    both. *)
Theorem ListVolumes_accepts_token (req : ListVolumesRequest) (st : catalog) :
  wf st = true ->
  (N.of_nat (length (vols st)) < 2 ^ 32)%N ->
  let token := StartingToken req in
  let n := N.of_nat (length (vols st)) in
  ((token = ""%string \/
    exists t, strconv.digits token 0 = Some t /\ (t <= n)%N) ->
   exists es next,
     ListVolumes req st = Some (Some (Result (Entries es next)), None)) /\
  (token <> ""%string ->
   (strconv.digits token 0 = None \/
    exists t, strconv.digits token 0 = Some t /\ (2 ^ 32 <= t)%N) ->
   ListVolumes req st =
     Some (Some (ErrListVolumes 0 "startingToken=0 !< uint32=4294967295"),
           None)) /\
  (forall t, token <> ""%string ->
     strconv.digits token 0 = Some t -> (n < t < 2 ^ 32)%N ->
     ListVolumes req st =
       Some (Some (ErrListVolumes 0
                     ("startingToken=" +:+ fmt_d t +:+ " > len(vols)="
                        +:+ fmt_d n)), None)).
Proof.
  intros Hwf Hlen. destruct req as [n token]. simpl.
  assert (Hparse : forall t, token <> ""%string ->
            strconv.digits token 0 = Some t ->
            strconv.ParseUint32 token =
              if (t <=? strconv.MaxUint32)%N then Some t else None).
  { intros t Hne Hd. unfold strconv.ParseUint32. rewrite Hd.
    destruct token; [contradiction | reflexivity]. }
  assert (Hmod : forall m, (uint32 m < 2 ^ 32)%N)
    by (intros m; unfold uint32; apply N.mod_lt; lia).
  assert (Hu : uint32 (N.of_nat (length (vols st)))
               = N.of_nat (length (vols st)))
    by (unfold uint32; apply N.mod_small; exact Hlen).
  assert (Hres : forall start,
            (if String.eqb token "" then Some 0%N
             else strconv.ParseUint32 token) = Some start ->
            (start <= N.of_nat (length (vols st)))%N ->
            exists es next,
              ListVolumes (mkListVolumesRequest n token) st
              = Some (Some (Result (Entries es next)), None)).
  { intros start Htok Hstart.
    pose proof (ListVolumes_from (uint32 n) start token st Hwf Hlen
                  (Hmod n) Htok Hstart) as H.
    unfold ListVolumes in H |- *. simpl in H |- *.
    assert (Huu : uint32 (uint32 n) = uint32 n)
      by (unfold uint32; apply N.Div0.mod_mod).
    rewrite Huu in H. eexists. eexists. exact H. }
  split; [|split].
  - intros [->|(t & Hd & Ht)].
    + apply (Hres 0%N); [reflexivity | lia].
    + destruct (String.eqb_spec token "") as [->|Hne].
      * apply (Hres 0%N); [reflexivity | lia].
      * apply (Hres t); [|exact Ht].
        destruct (String.eqb_spec token "") as [|_]; [contradiction|].
        rewrite (Hparse t Hne Hd).
        destruct (N.leb_spec t strconv.MaxUint32) as [|Hbig];
          [reflexivity|]. unfold strconv.MaxUint32 in Hbig. lia.
  - intros Hne Hbad. unfold ListVolumes. simpl.
    destruct (String.eqb_spec token "") as [|_]; [contradiction|].
    destruct Hbad as [Hd|(t & Hd & Hbig)].
    + unfold strconv.ParseUint32. rewrite Hd.
      destruct token; [contradiction | reflexivity].
    + rewrite (Hparse t Hne Hd).
      destruct (N.leb_spec t strconv.MaxUint32) as [Hfit|_];
        [|reflexivity]. unfold strconv.MaxUint32 in Hfit. lia.
  - intros t Hne Hd [Hbig Hfit]. unfold ListVolumes. simpl.
    destruct (String.eqb_spec token "") as [|_]; [contradiction|].
    rewrite (Hparse t Hne Hd).
    destruct (N.leb_spec t strconv.MaxUint32) as [_|Hover];
      [|unfold strconv.MaxUint32 in Hover; lia].
    rewrite !Hu.
    destruct (N.ltb_spec (N.of_nat (length (vols st))) t) as [_|]; [|lia].
    reflexivity.
Qed.

End MocOpsProperties.

(** ** The properties at concrete inputs *)
Section Witnesses.
Import Examples.

Lemma Serve_without_services_witness :
  Server.Serve platform
    (Server.mkServer "tcp://127.0.0.1:8080" [] false [] : @Server.Server unit)
    None
  = ("gocsi: empty services"%string,
     Server.mkServer "tcp://127.0.0.1:8080" [] false [], []).
Proof.
  apply (Serve_without_services platform). reflexivity.
Defined.

(** With a Service, the same server parses its address, binds the
    listener and registers the removal of the socket. *)
Example Serve_on_unix_socket :
  Server.Serve platform
    (Server.mkServer "unix://csi.sock"
       [Server.mkServiceEntry provider (fresh "A")] false [])
    None
  = ("grpc: the server has been stopped"%string,
     Server.mkServer "unix:/csi.sock"
       [Server.mkServiceEntry provider (fresh "A")] true
       [Server.RemoveAll "csi.sock"],
     [Server.EvParseProtoAddr "unix://csi.sock";
      Server.EvListen "unix" "csi.sock";
      Server.EvNewServer; Server.EvRegisterControllerServer;
      Server.EvRegisterIdentityServer; Server.EvRegisterNodeServer;
      Server.EvGoServeServices ["A"%string];
      Server.EvGrpcServe (Server.mkListener "unix" "csi.sock")]).
Proof. reflexivity. Qed.

Lemma unsupported_version_is_rejected_witness :
  Service.forwarded
    (Service.hist
       (snd (Service.serve_call provider
               (Service.CallDeleteVolume (mkVolumeRequest (Some v999) (Some id1)))
               (ready "B")))) = 0 /\
  Service.serve_call provider
    (Service.CallDeleteVolume (mkVolumeRequest (Some v999) (Some id1)))
    (ready "B")
  = ((Some (Service.ErrDeleteVolumeGeneral 2
              "unsupported request version: 9.9.9"), None),
     Service.dialled (ready "B")).
Proof.
  destruct (unsupported_version_is_rejected provider
              (Service.CallDeleteVolume (mkVolumeRequest (Some v999) (Some id1)))
              (ready "B") v999 eq_refl eq_refl eq_refl) as [Hfwd Hresp].
  split; [exact Hfwd | apply Hresp; reflexivity].
Defined.

(** C2 as stated fails: DeleteVolume checks the identifier before the
    version, so a request with an unsupported version and no volume
    identifier is answered with INVALID_VOLUME_ID, not with the
    unsupported-version error. *)
Lemma unsupported_version_counterexample :
  ~ (forall (E : @Service.collaborators unit) (c : Service.call)
            (w : Service.world) (rv : Version),
       Service.versionsOnce (Service.svc w) = true ->
       Service.GetVersion c = Some rv ->
       Service.version_supported rv (Service.versions (Service.svc w)) = false ->
       exists msg,
         fst (Service.serve_call E c w) =
           (Some (Service.ErrUnsupportedVersion c msg), None)).
Proof.
  intros H.
  destruct (H provider
              (Service.CallDeleteVolume (mkVolumeRequest (Some v999) None))
              (ready "B") v999 eq_refl eq_refl eq_refl) as [msg Hmsg].
  discriminate Hmsg.
Qed.

Example DeleteVolume_unsupported_version_no_id :
  Service.DeleteVolume provider (mkVolumeRequest (Some v999) None) (ready "B")
  = ((Some (Service.ErrDeleteVolume 3 "missing id obj"), None), ready "B").
Proof. reflexivity. Qed.


Example svcFromCtx_tagged_B :
  Server.svcFromCtx ascii_EqualFold serverAB (tagged "b") = Some 1.
Proof. reflexivity. Qed.

Example svcFromCtx_unmatched_tag :
  Server.svcFromCtx ascii_EqualFold serverAB (tagged "C") = Some 0.
Proof. reflexivity. Qed.

Lemma DeleteVolume_checks_id_before_version_witness :
  Service.DeleteVolume provider (mkVolumeRequest (Some v999) None) (ready "B")
  = ((Some (Service.ErrDeleteVolume 3 "missing id obj"), None), ready "B") /\
  Service.DeleteVolume provider
    (mkVolumeRequest (Some v999) (Some (mkVolumeID ∅))) (ready "B")
  = ((Some (Service.ErrDeleteVolume 3 "missing id map"), None), ready "B") /\
  Service.CreateVolume provider
    (mkCreateVolumeRequest (Some v999) "" None) (ready "B")
  = ((Some (Service.ErrCreateVolumeGeneral 2
              "unsupported request version: 9.9.9"), None),
     Service.dialled (ready "B")).
Proof.
  split; [|split].
  - apply (proj1 (DeleteVolume_checks_id_before_version provider
                    (mkVolumeRequest (Some v999) None)
                    (mkCreateVolumeRequest (Some v999) "" None) v999
                    (ready "B"))).
    reflexivity.
  - apply (proj1 (proj2 (DeleteVolume_checks_id_before_version provider
                    (mkVolumeRequest (Some v999) (Some (mkVolumeID ∅)))
                    (mkCreateVolumeRequest (Some v999) "" None) v999
                    (ready "B"))) (mkVolumeID ∅));
      reflexivity.
  - apply (proj2 (proj2 (DeleteVolume_checks_id_before_version provider
                    (mkVolumeRequest (Some v999) None)
                    (mkCreateVolumeRequest (Some v999) "" None) v999
                    (ready "B"))));
      reflexivity.
Defined.



(** The first call on a Service: the cache is initialised on the way,
    by one query. *)
Example CreateVolume_empty_name_first_call :
  Service.CreateVolume provider
    (mkCreateVolumeRequest (Some v010) "" None) (fresh "B")
  = ((Some (Service.ErrCreateVolume 3 "missing name"), None),
     Service.mkWorld (Service.mkService "mock" "B" [v010] true)
       [Service.EvDial; Service.EvDial; Service.EvGetSupportedVersions]).
Proof. reflexivity. Qed.



Example Stop_twice_trace :
  fst (Server.exits [Server.CallStop; Server.CallStop] serverAB) =
    [Server.EvProviderStop "A"; Server.EvConnClose "A";
     Server.EvProviderStop "B"; Server.EvConnClose "B";
     Server.EvGrpcStop;
     Server.EvCleanup (Server.RemoveAll "csi.sock");
     Server.EvProviderStop "A"; Server.EvConnClose "A";
     Server.EvProviderStop "B"; Server.EvConnClose "B";
     Server.EvGrpcStop;
     Server.EvCleanup (Server.RemoveAll "csi.sock")].
Proof. reflexivity. Qed.



(** A dial that fails is returned as it is, before any check of
    CreateVolume. *)
Example CreateVolume_dial_failure :
  Service.CreateVolume unreachable
    (mkCreateVolumeRequest (Some v010) "" None) (ready "B")
  = ((None, Some "context canceled"%string), Service.dialled (ready "B")).
Proof. reflexivity. Qed.

Lemma parseProtoAddr_spec_witness :
  Endpoint.parseProtoAddr "unixPacket:///var/run/csi.sock"
  = inl ("unixPacket"%string, "/var/run/csi.sock"%string).
Proof.
  apply (proj1 (parseProtoAddr_spec "unixPacket:///var/run/csi.sock")).
  split; [reflexivity|].
  split; [vm_compute; reflexivity|].
  split; [discriminate | vm_compute; reflexivity].
Defined.

(** C8 as stated fails: an address with a newline is not empty, and
    the text is not matched, because [.] matches no newline and [$]
    only the end of the text. *)
Lemma parseProtoAddr_newline_counterexample :
  ~ (forall s : string,
       (exists p a, Endpoint.parseProtoAddr s = inl (p, a)) <->
       Endpoint.endpoint_form s).
Proof.
  intros H.
  destruct (proj2 (H ("tcp://a" +:+ String Regexp.newline "b")))
    as (p & a & Hpa).
  - exists "tcp"%string, ("a" +:+ String Regexp.newline "b").
    split; [reflexivity|]. split; [vm_compute; reflexivity | discriminate].
  - vm_compute in Hpa. discriminate Hpa.
Qed.

Example parseProtoAddr_default :
  Endpoint.parseProtoAddr "tcp://127.0.0.1:8080"
  = inl ("tcp"%string, "127.0.0.1:8080"%string).
Proof. reflexivity. Qed.

Example parseProtoAddr_no_address :
  Endpoint.parseProtoAddr "unix://" = inr "invalid address: unix://"%string.
Proof. reflexivity. Qed.

Example parseProtoAddr_unknown_scheme :
  Endpoint.parseProtoAddr "http://localhost"
  = inr "invalid address: http://localhost"%string.
Proof. reflexivity. Qed.

Example parseProtoAddr_newline :
  Endpoint.parseProtoAddr ("tcp://a" +:+ String Regexp.newline "b")
  = inr ("invalid address: tcp://a" +:+ String Regexp.newline "b").
Proof. reflexivity. Qed.

Example main_invalid_endpoint :
  Endpoint.main "localhost:8080"
  = Endpoint.Exit
      ("error: invalid endpoint: localhost:8080" +:+ String Regexp.newline "")
      1.
Proof. reflexivity. Qed.

Lemma ascii_EqualFold_refl (s : string) : ascii_EqualFold s s = true.
Proof.
  induction s as [|a s IH]; simpl; [reflexivity|].
  rewrite Ascii.eqb_refl, IH. reflexivity.
Qed.

Lemma CreateVolume_idempotent_witness :
  (exists x v,
     Moc.vols Moc.initial_catalog !! x = Some v /\
     Moc.CreateVolume ascii_EqualFold
       (mkCreateVolumeRequest (Some v010) "mock volume 2" None)
       Moc.initial_catalog
     = ((Some (Service.Reply v), None), Moc.initial_catalog)) /\
  (exists v st1,
     Moc.CreateVolume ascii_EqualFold
       (mkCreateVolumeRequest (Some v010) "data" None) Moc.initial_catalog
     = ((Some (Service.Reply v), None), st1) /\
     Moc.CreateVolume ascii_EqualFold
       (mkCreateVolumeRequest (Some v010) "data"
          (Some (mkCapacityRange 4096 0))) st1
     = ((Some (Service.Reply v), None), st1) /\
     length (Moc.vols st1) <= 4).
Proof.
  split.
  - destruct (CreateVolume_idempotent ascii_EqualFold
                (mkCreateVolumeRequest (Some v010) "mock volume 2" None)
                (mkCreateVolumeRequest (Some v010) "mock volume 2" None)
                Moc.initial_catalog ascii_EqualFold_refl)
      as (Hfound & _ & _); [discriminate | reflexivity |].
    destruct Hfound as (x & v & Hx & _ & _ & Hc).
    + eexists. split; [right; left; reflexivity | reflexivity].
    + exists x, v. auto.
  - destruct (CreateVolume_idempotent ascii_EqualFold
                (mkCreateVolumeRequest (Some v010) "data" None)
                (mkCreateVolumeRequest (Some v010) "data"
                   (Some (mkCapacityRange 4096 0)))
                Moc.initial_catalog ascii_EqualFold_refl)
      as (_ & _ & v & st1 & H1 & H2 & Hlen); [discriminate | reflexivity |].
    exists v, st1. repeat split; [exact H1 | exact H2 |].
    exact (proj2 Hlen).
Defined.

Example CreateVolume_existing_name :
  fst (Moc.CreateVolume ascii_EqualFold
         (mkCreateVolumeRequest (Some v010) "MOCK VOLUME 2" None)
         Moc.initial_catalog)
  = (Some (Service.Reply
             (mkVolumeInfo
                (Some (mkVolumeID
                         (<["id" := "2"]> (<["name" := "Mock Volume 2"]> ∅))))
                ∅ Moc.gib100)), None).
Proof. reflexivity. Qed.

Example CreateVolume_new_name :
  let '(r, st) :=
    Moc.CreateVolume ascii_EqualFold
      (mkCreateVolumeRequest (Some v010) "data" None) Moc.initial_catalog in
  r = (Some (Service.Reply
               (mkVolumeInfo
                  (Some (mkVolumeID (<["id" := "4"]> (<["name" := "data"]> ∅))))
                  ∅ Moc.gib100)), None) /\
  length (Moc.vols st) = 4 /\ Moc.nextVolID st = 4%N.
Proof. vm_compute. repeat split. Qed.



Example three_callers_in_turn :
  Once.threads (Once.run provider in_turn (Once.init [] 3))
  = [Once.Observed None [v010]; Once.Observed None [v010];
     Once.Observed None [v010]] /\
  Once.hist (Once.sh (Once.run provider in_turn (Once.init [] 3)))
  = [Service.EvDial; Service.EvGetSupportedVersions].
Proof. split; reflexivity. Qed.

(** When the dial inside [Do] fails the query is never made, by this
    caller or by a later one. *)
Example three_callers_unreachable :
  Once.threads (Once.run unreachable in_turn (Once.init [] 3))
  = [Once.Observed (Some "context canceled"%string) [];
     Once.Observed None []; Once.Observed None []] /\
  Once.hist (Once.sh (Once.run unreachable in_turn (Once.init [] 3)))
  = [Service.EvDial].
Proof. split; reflexivity. Qed.

End Witnesses.

(** ** The further properties at concrete inputs *)
Section MoreWitnesses.
Import Examples MoreExamples.

Lemma serve_call_delegates_witness :
  Service.serve_call provider
    (Service.CallCreateVolume (mkCreateVolumeRequest (Some v010) "data" None))
    (fresh "A")
  = ((Some (Service.Reply tt), None),
     Service.mkWorld (Service.mkService "mock" "A" [v010] true)
       [Service.EvDial; Service.EvDial; Service.EvGetSupportedVersions;
        Service.EvForward
          (Service.CallCreateVolume
             (mkCreateVolumeRequest (Some v010) "data" None))]).
Proof.
  exact (proj1 (serve_call_delegates provider
                  (Service.CallCreateVolume
                     (mkCreateVolumeRequest (Some v010) "data" None))
                  (fresh "A") v010 eq_refl eq_refl eq_refl
                  (conj eq_refl eq_refl)
                  (fun req H =>
                     match H in (_ = c)
                       return match c with
                              | Service.CallCreateVolume r =>
                                  csi.Name r <> ""%string
                              | _ => True
                              end
                     with eq_refl => ltac:(discriminate) end))).
Defined.

Lemma initialised_cache_is_frozen_witness :
  Service.svc
    (Service.serve_calls provider
       [Some (Service.CallListVolumes (mkPlainRequest (Some v010)));
        None;
        Some (Service.CallGetNodeID (mkPlainRequest (Some v999)))]
       (ready "A"))
  = Service.svc (ready "A") /\
  Service.version_queries
    (Service.hist
       (Service.serve_calls provider
          [Some (Service.CallListVolumes (mkPlainRequest (Some v010)));
           None;
           Some (Service.CallGetNodeID (mkPlainRequest (Some v999)))]
          (ready "A")))
  = Service.version_queries (Service.hist (ready "A")).
Proof.
  exact (initialised_cache_is_frozen provider
           [Some (Service.CallListVolumes (mkPlainRequest (Some v010)));
            None;
            Some (Service.CallGetNodeID (mkPlainRequest (Some v999)))]
           (ready "A") eq_refl).
Defined.

Lemma failed_initialisation_is_not_retried_witness :
  Service.GetSupportedVersions silent
    (snd (Service.initSupportedVersionsOnce silent (fresh "A")))
  = ((Some (GSV_Result []), None),
     snd (Service.initSupportedVersionsOnce silent (fresh "A"))).
Proof.
  exact (proj2 (proj2 (proj2
           (failed_initialisation_is_not_retried silent (fresh "A")
              "rpc error: unavailable" eq_refl eq_refl)))).
Defined.

Lemma listed_versions_are_accepted_witness :
  fst (Service.chkReqVersion provider (Some v010)
         (snd (Service.GetSupportedVersions provider (fresh "A"))))
    = ""%string.
Proof.
  exact (proj2 (proj1 (listed_versions_are_accepted provider (fresh "A")
                         [v010] eq_refl) v010)
           (or_introl eq_refl)).
Defined.

Lemma serve_call_early_exits_witness :
  Service.serve_call unreachable
    (Service.CallNodePublishVolume (mkVolumeRequest (Some v010) (Some id1)))
    (ready "A")
  = ((None, Some "context canceled"%string), Service.dialled (ready "A")).
Proof.
  exact (proj2 (serve_call_early_exits unreachable
                  (Service.CallNodePublishVolume
                     (mkVolumeRequest (Some v010) (Some id1)))
                  (ready "A"))
           "context canceled"%string eq_refl eq_refl).
Defined.

Lemma initialisation_error_is_answered_as_unsupported_witness :
  Service.serve_call silent
    (Service.CallListVolumes (mkPlainRequest (Some v010))) (fresh "A")
  = ((Some (Service.ErrListVolumes 2 "rpc error: unavailable"), None),
     snd (Service.initSupportedVersionsOnce silent
            (Service.dialled (fresh "A")))).
Proof.
  exact (proj1 (initialisation_error_is_answered_as_unsupported silent
                  (Service.CallListVolumes (mkPlainRequest (Some v010)))
                  (fresh "A") "rpc error: unavailable"
                  eq_refl eq_refl eq_refl ltac:(discriminate))).
Defined.

Lemma serve_calls_query_once_witness :
  Service.version_queries
    (Service.hist
       (Service.serve_calls provider
          [None;
           Some (Service.CallListVolumes (mkPlainRequest (Some v010)));
           Some (Service.CallGetNodeID (mkPlainRequest (Some v999)));
           None]
          (fresh "A")))
  <= Service.version_queries (Service.hist (fresh "A")) + 1.
Proof.
  exact (serve_calls_query_once provider
           [None;
            Some (Service.CallListVolumes (mkPlainRequest (Some v010)));
            Some (Service.CallGetNodeID (mkPlainRequest (Some v999)));
            None]
           (fresh "A") eq_refl).
Defined.

Lemma dispatch_changes_one_service_witness :
  exists o s',
    Server.dispatch ascii_EqualFold serverAB (tagged "b")
      (Service.CallListVolumes (mkPlainRequest (Some v010)))
    = Some (o, s') /\
    map Server.Name (Server.Services s')
      = map Server.Name (Server.Services serverAB) /\
    Server.Services s' !! 0 = Server.Services serverAB !! 0.
Proof.
  eexists. eexists. split; [reflexivity|].
  destruct (dispatch_changes_one_service ascii_EqualFold serverAB _
              (tagged "b")
              (Service.CallListVolumes (mkPlainRequest (Some v010)))
              _ eq_refl)
    as (_ & _ & _ & (i & Hi & Hother) & Hnames & _).
  split; [exact Hnames|]. apply Hother.
  injection Hi as <-. discriminate.
Defined.

Lemma Stop_after_Serve_removes_unix_socket_witness :
  Server.Stop
    (snd (fst (Server.Serve platform
                 (Server.mkServer "unix://csi.sock"
                    [Server.mkServiceEntry provider (fresh "A")] false [])
                 (Some (Server.mkListener "unix" "/run/csi.sock")))))
  = ([Server.EvProviderStop "A"; Server.EvConnClose "A"; Server.EvGrpcStop;
      Server.EvCleanup (Server.RemoveAll "/run/csi.sock")],
     Server.Returned).
Proof.
  exact (proj2 (Stop_after_Serve_removes_unix_socket platform
                  (Server.mkServer "unix://csi.sock"
                     [Server.mkServiceEntry provider (fresh "A")] false [])
                  (Server.mkListener "unix" "/run/csi.sock")
                  ltac:(discriminate))).
Defined.

Lemma NewService_by_type_witness :
  Registry.NewService ascii_EqualFold plugins_loaded
    (map_to_list registry) "MOCK" "A"
  = inl (Server.mkServiceEntry provider
           (Service.mkWorld (Service.mkService "mock" "A" [] false) [])) /\
  Registry.NewService ascii_EqualFold plugins_loaded
    (map_to_list registry) "ebs" "A"
  = inr "gocsi: invalid service provider"%string.
Proof.
  destruct (NewService_by_type ascii_EqualFold plugins_loaded registry
              (map_to_list registry) "MOCK" "A" (reflexivity _))
    as (_ & _ & Hone).
  destruct (NewService_by_type ascii_EqualFold plugins_loaded registry
              (map_to_list registry) "ebs" "A" (reflexivity _))
    as (_ & Hnone & _).
  split.
  - apply (Hone "mock"%string (inl provider)); try reflexivity.
    intros k' [v Hv] Hm. unfold registry in Hv.
    apply lookup_insert_Some in Hv. destruct Hv as [[<- _]|[_ Hv]];
      [reflexivity|].
    apply lookup_insert_Some in Hv. destruct Hv as [[<- _]|[_ Hv]];
      [discriminate Hm | rewrite lookup_empty in Hv; discriminate Hv].
  - apply Hnone; [reflexivity|].
    intros k [v Hv]. unfold registry in Hv.
    apply lookup_insert_Some in Hv. destruct Hv as [[<- _]|[_ Hv]];
      [reflexivity|].
    apply lookup_insert_Some in Hv. destruct Hv as [[<- _]|[_ Hv]];
      [reflexivity | rewrite lookup_empty in Hv; discriminate Hv].
Defined.

Lemma main_dials_the_address_witness :
  Endpoint.main "UNIX:///run/csi.sock" = Endpoint.DialContext "/run/csi.sock".
Proof.
  exact (proj1 (main_dials_the_address "UNIX" "/run/csi.sock"
                  eq_refl ltac:(discriminate) eq_refl)).
Defined.

Lemma ControllerUnpublishVolume_twice_witness :
  MocOps.ControllerUnpublishVolume ascii_EqualFold (attach id2 "n1")
    (snd (MocOps.ControllerUnpublishVolume ascii_EqualFold (attach id2 "n1")
            attached))
  = ((Some (MocOps.ErrControllerUnpublishVolume 8 "not attached"), None),
     snd (MocOps.ControllerUnpublishVolume ascii_EqualFold (attach id2 "n1")
            attached)).
Proof.
  exact (ControllerUnpublishVolume_twice ascii_EqualFold (attach id2 "n1")
           attached eq_refl).
Defined.

Lemma ControllerPublishVolume_nodes_independent_witness :
  fst (MocOps.ControllerPublishVolume ascii_EqualFold 1600000000
         (attach id2 "n1")
         (snd (MocOps.ControllerPublishVolume ascii_EqualFold 1700000000
                 (attach id2 "n2") attached)))
  = fst (MocOps.ControllerPublishVolume ascii_EqualFold 1600000000
           (attach id2 "n1") attached).
Proof.
  exact (proj1 (ControllerPublishVolume_nodes_independent ascii_EqualFold
                  1700000000 1600000000 (attach id2 "n1") (attach id2 "n2")
                  (node "n1") (node "n2") "n1" "n2" attached
                  eq_refl eq_refl eq_refl eq_refl ltac:(discriminate))).
Defined.

Lemma publishing_keeps_the_volumes_witness :
  Id <$> Moc.vols
           (MocOps.serve ascii_EqualFold
              (MocOps.ReqNodePublishVolume
                 (MocOps.mkNodePublishVolumeRequest (Some id3) "/mnt/3"))
              attached)
  = Id <$> Moc.vols attached.
Proof.
  exact (proj1 (proj2 (publishing_keeps_the_volumes ascii_EqualFold
                  (MocOps.ReqNodePublishVolume
                     (MocOps.mkNodePublishVolumeRequest (Some id3) "/mnt/3"))
                  attached eq_refl))).
Defined.

(** On decimal digits folding the case changes nothing. *)
Lemma to_lower_digit (c : ascii) (d : N) :
  strconv.digit c = Some d -> Regexp.to_lower c = c.
Proof.
  destruct c as [[|] [|] [|] [|] [|] [|] [|] [|]]; vm_compute; intros H;
    first [reflexivity | discriminate H].
Qed.

Lemma ascii_EqualFold_digits (s t : string) (a a' k k' : N) :
  strconv.digits s a = Some k -> strconv.digits t a' = Some k' ->
  ascii_EqualFold s t = true -> s = t.
Proof.
  revert t a a'. induction s as [|c s IH]; intros [|c' t] a a' Hs Ht Heq;
    try discriminate; [reflexivity|].
  simpl in Hs, Ht, Heq.
  destruct (strconv.digit c) as [d|] eqn:Hc; [|discriminate].
  destruct (strconv.digit c') as [d'|] eqn:Hc'; [|discriminate].
  apply andb_true_iff in Heq. destruct Heq as [Hcc Hrest].
  rewrite (to_lower_digit c d Hc), (to_lower_digit c' d' Hc') in Hcc.
  apply Ascii.eqb_eq in Hcc. subst c'.
  f_equal. exact (IH t _ _ Hs Ht Hrest).
Qed.

(** [ascii_EqualFold] tells the decimal forms of two numbers apart. *)
Lemma ascii_EqualFold_decimal (m n : N) :
  ascii_EqualFold (fmt_d m) (fmt_d n) = true <-> m = n.
Proof.
  split.
  - intros H. apply fmt_d_inj.
    exact (ascii_EqualFold_digits _ _ 0 0 m n
             (digits_fmt_d m) (digits_fmt_d n) H).
  - intros ->. apply ascii_EqualFold_refl.
Qed.

Lemma catalog_stays_well_formed_witness :
  MocOps.wf
    (MocOps.serve_all ascii_EqualFold
       [MocOps.ReqCreateVolume (mkCreateVolumeRequest (Some v010) "data" None);
        MocOps.ReqDeleteVolume (mkVolumeRequest (Some v010) (Some id2));
        MocOps.ReqControllerPublishVolume 1500000000 (attach id3 "n1");
        MocOps.ReqCreateVolume (mkCreateVolumeRequest (Some v010) "more" None)]
       Moc.initial_catalog) = true.
Proof.
  exact (proj1 (catalog_stays_well_formed ascii_EqualFold
                  [MocOps.ReqCreateVolume
                     (mkCreateVolumeRequest (Some v010) "data" None);
                   MocOps.ReqDeleteVolume
                     (mkVolumeRequest (Some v010) (Some id2));
                   MocOps.ReqControllerPublishVolume 1500000000
                     (attach id3 "n1");
                   MocOps.ReqCreateVolume
                     (mkCreateVolumeRequest (Some v010) "more" None)]
                  Moc.initial_catalog eq_refl eq_refl)).
Defined.

Lemma DeleteVolume_removes_the_volume_witness :
  Moc.findVol ascii_EqualFold "id" "2"
    (snd (MocOps.DeleteVolume ascii_EqualFold
            (mkVolumeRequest (Some v010) (Some id2)) Moc.initial_catalog))
  = None /\
  MocOps.DeleteVolume ascii_EqualFold
    (mkVolumeRequest (Some v010) (Some id2))
    (snd (MocOps.DeleteVolume ascii_EqualFold
            (mkVolumeRequest (Some v010) (Some id2)) Moc.initial_catalog))
  = ((None, None),
     snd (MocOps.DeleteVolume ascii_EqualFold
            (mkVolumeRequest (Some v010) (Some id2)) Moc.initial_catalog)).
Proof.
  destruct (DeleteVolume_removes_the_volume ascii_EqualFold
              ascii_EqualFold_decimal
              (mkVolumeRequest (Some v010) (Some id2)) Moc.initial_catalog
              id2 2 eq_refl eq_refl eq_refl)
    as (_ & _ & _ & Hgone & _ & _ & Hagain).
  split; [exact Hgone | exact Hagain].
Defined.

Lemma CreateVolume_then_DeleteVolume_witness :
  exists v,
    fst (Moc.CreateVolume ascii_EqualFold
           (mkCreateVolumeRequest (Some v010) "data" None)
           Moc.initial_catalog)
    = (Some (Service.Reply v), None) /\
    MocOps.DeleteVolume ascii_EqualFold (mkVolumeRequest (Some v010) (Id v))
      (snd (Moc.CreateVolume ascii_EqualFold
              (mkCreateVolumeRequest (Some v010) "data" None)
              Moc.initial_catalog))
    = ((None, None), Moc.mkCatalog 4 (Moc.vols Moc.initial_catalog)).
Proof.
  destruct (CreateVolume_then_DeleteVolume ascii_EqualFold
              ascii_EqualFold_decimal
              (mkCreateVolumeRequest (Some v010) "data" None) (Some v010)
              Moc.initial_catalog eq_refl eq_refl ltac:(discriminate)
              eq_refl)
    as (v & Hc & _ & Hd).
  exists v. split; [exact Hc | exact Hd].
Defined.

Lemma ListVolumes_page_witness :
  MocOps.ListVolumes (MocOps.mkListVolumesRequest 2 "1") Moc.initial_catalog
  = Some (Some (MocOps.Result
                  (MocOps.Entries
                     (take 2 (drop 1 (Moc.vols Moc.initial_catalog))) "")),
          None).
Proof.
  exact (proj1 (ListVolumes_page 2 1 Moc.initial_catalog
                  eq_refl eq_refl eq_refl
                  ltac:(vm_compute; discriminate))).
Defined.

Lemma ListVolumes_pages_cover_the_catalog_witness :
  MocOps.list_pages 4 2 "" Moc.initial_catalog
  = Some (Moc.vols Moc.initial_catalog).
Proof.
  exact (ListVolumes_pages_cover_the_catalog 2 Moc.initial_catalog
           eq_refl eq_refl eq_refl).
Defined.

Lemma ListVolumes_accepts_token_witness :
  MocOps.ListVolumes (MocOps.mkListVolumesRequest 0 "-1") Moc.initial_catalog
  = Some (Some (MocOps.ErrListVolumes 0
                  "startingToken=0 !< uint32=4294967295"), None) /\
  MocOps.ListVolumes (MocOps.mkListVolumesRequest 0 "7") Moc.initial_catalog
  = Some (Some (MocOps.ErrListVolumes 0
                  "startingToken=7 > len(vols)=3"), None).
Proof.
  split.
  - exact (proj1 (proj2 (ListVolumes_accepts_token
                    (MocOps.mkListVolumesRequest 0 "-1") Moc.initial_catalog
                    eq_refl eq_refl))
             ltac:(discriminate) (or_introl eq_refl)).
  - exact (proj2 (proj2 (ListVolumes_accepts_token
                    (MocOps.mkListVolumesRequest 0 "7") Moc.initial_catalog
                    eq_refl eq_refl))
             7%N ltac:(discriminate) eq_refl
             (conj eq_refl eq_refl)).
Defined.

End MoreWitnesses.
